(** * main.js: the cinematic motion engine of the portfolio page

    A shallow embedding of the three stateful parts of [src/main.js]:

    - [Reveal]: [initScrollReveals], the IntersectionObserver callback and
      the scroll fallback ([checkFallback], [onScrollFallback]);
    - [Ticker]: [initScrollLinked] and its frame-coalesced [onScroll];
    - [Convo]: [initConvoForm], the chat-style inquiry form.

    The browser is the environment.  Every handler is a function from
    state to state; the event loop is a step function over an explicit
    event type (a scroll event, an animation frame, an observer
    notification, a click, a millisecond of time).  Side effects that the
    claims count ([classList.add], [getBoundingClientRect], assignments to
    [location.href]) are recorded in the state. *)

From Stdlib Require Import ZArith QArith Lia Ascii Floats.
From Stdlib Require Uint63.
From stdpp Require Import base gmap sets list strings.

#[local] Set Warnings "-clear-no-such-hyp".
#[local] Set Warnings "-inexact-float".

Close Scope Q_scope.
Local Open Scope Z_scope.

(* ===================================================================== *)
(** * Viewport reveal engine ([initScrollReveals])                        *)
(* ===================================================================== *)

Module Reveal.

(** A DOM element is known by its identity only. *)
Definition elem := nat.

(** The part of [getBoundingClientRect()] the fallback reads.  The
    coordinates are only ever compared, so integers stand for them. *)
Record rect := { top : Z; bottom : Z }.



(** The options object passed to [new IntersectionObserver]:
    [{ threshold: 0, rootMargin: '50px 0px -60px 0px' }]. *)
Definition revealThreshold : Z := 0.

(** ** Reading a [rootMargin] string

    The platform reads one to four space separated lengths, each a signed
    decimal followed by [px] or [%]. *)












(** ** State *)

(** Side effects a run leaves behind, oldest first. *)
Inductive effect :=
  | ClassListAdd (el : elem)            (* el.classList.add('visible') *)
  | Observe (el : elem)                 (* revealObserver.observe(el) *)
  | Unobserve (el : elem)               (* revealObserver.unobserve(el) *)
  | GetBoundingClientRect (el : elem)   (* el.getBoundingClientRect() *)
  | AddScrollListener                   (* window.addEventListener('scroll', ..) *)
  | RemoveScrollListener                (* window.removeEventListener('scroll', ..) *)
  | RequestAnimationFrame.              (* requestAnimationFrame(checkFallback) *)

#[global] Instance effect_eq_dec : EqDecision effect.
Proof. solve_decision. Defined.

Record state := {
  visible : gset elem;        (* elements whose classList holds 'visible' *)
  observed : gset elem;       (* observation targets of revealObserver *)
  pending : list elem;        (* var pending *)
  fallbackTicking : bool;     (* var fallbackTicking *)
  listening : bool;           (* onScrollFallback is registered on window *)
  frameQueue : nat;           (* checkFallback callbacks awaiting a frame *)
  log : list effect
}.

Definition emit (e : effect) (st : state) : state :=
  {| visible := visible st; observed := observed st; pending := pending st;
     fallbackTicking := fallbackTicking st; listening := listening st;
     frameQueue := frameQueue st; log := log st ++ [e] |}.

(** [el.classList.add('visible')] *)
Definition addVisible (el : elem) (st : state) : state :=
  {| visible := visible st ∪ {[el]}; observed := observed st;
     pending := pending st; fallbackTicking := fallbackTicking st;
     listening := listening st; frameQueue := frameQueue st;
     log := log st ++ [ClassListAdd el] |}.

(** [revealObserver.unobserve(el)] *)
Definition unobserve (el : elem) (st : state) : state :=
  {| visible := visible st; observed := observed st ∖ {[el]};
     pending := pending st; fallbackTicking := fallbackTicking st;
     listening := listening st; frameQueue := frameQueue st;
     log := log st ++ [Unobserve el] |}.

(** Both paths resolve a target the same way: mark it, then unobserve it. *)
Definition resolve (el : elem) (st : state) : state :=
  unobserve el (addVisible el st).

(** [pending.splice(i, 1)] *)
Definition splice (i : nat) (st : state) : state :=
  {| visible := visible st; observed := observed st;
     pending := delete i (pending st);
     fallbackTicking := fallbackTicking st; listening := listening st;
     frameQueue := frameQueue st; log := log st |}.

Definition setFallbackTicking (b : bool) (st : state) : state :=
  {| visible := visible st; observed := observed st; pending := pending st;
     fallbackTicking := b; listening := listening st;
     frameQueue := frameQueue st; log := log st |}.

(** [window.removeEventListener('scroll', onScrollFallback)] *)
Definition removeScrollListener (st : state) : state :=
  {| visible := visible st; observed := observed st; pending := pending st;
     fallbackTicking := fallbackTicking st; listening := false;
     frameQueue := frameQueue st; log := log st ++ [RemoveScrollListener] |}.

(** [requestAnimationFrame(checkFallback)] *)
Definition requestFrame (st : state) : state :=
  {| visible := visible st; observed := observed st; pending := pending st;
     fallbackTicking := fallbackTicking st; listening := listening st;
     frameQueue := S (frameQueue st);
     log := log st ++ [RequestAnimationFrame] |}.

Definition clearFrameQueue (st : state) : state :=
  {| visible := visible st; observed := observed st; pending := pending st;
     fallbackTicking := fallbackTicking st; listening := listening st;
     frameQueue := 0%nat; log := log st |}.

(** ** Initialisation

    [vis0] is the set of targets that carry [visible] in the markup. *)
Definition initScrollReveals (hasObserver prefersReducedMotion : bool)
    (vis0 : gset elem) (revealElements : list elem) : state :=
  match revealElements with
  | [] =>
      (* if (!revealElements.length) return; *)
      {| visible := vis0; observed := ∅; pending := [];
         fallbackTicking := false; listening := false;
         frameQueue := 0%nat; log := [] |}
  | _ =>
      if negb hasObserver || prefersReducedMotion then
        {| visible := vis0 ∪ list_to_set revealElements; observed := ∅;
           pending := []; fallbackTicking := false; listening := false;
           frameQueue := 0%nat; log := ClassListAdd <$> revealElements |}
      else
        {| visible := vis0; observed := list_to_set revealElements;
           pending := revealElements; fallbackTicking := false;
           listening := true; frameQueue := 1%nat;
           log := (Observe <$> revealElements)
                    ++ [AddScrollListener; RequestAnimationFrame] |}
  end.

(** ** Primary path: the observer callback *)

(** Body of [entries.forEach]: an entry is its target and [isIntersecting]. *)
Definition onEntry (st : state) (entry : elem * bool) : state :=
  if entry.2 then resolve entry.1 st else st.

Definition observerCallback (entries : list (elem * bool)) (st : state) : state :=
  foldl onEntry st entries.

(** ** Fallback path *)

(** [rect.top < window.innerHeight && rect.bottom > 0] *)
Definition inView (r : rect) (innerHeight : Z) : bool :=
  (top r <? innerHeight) && (0 <? bottom r).

(** The loop [for (var i = pending.length - 1; i >= 0; i--)], with
    [n = i + 1] iterations left. *)
Fixpoint checkLoop (geometry : elem -> rect) (innerHeight : Z)
    (n : nat) (st : state) : state :=
  match n with
  | O => st
  | S i =>
      match pending st !! i with
      | None => st
      | Some el =>
          if decide (el ∈ visible st) then
            checkLoop geometry innerHeight i (splice i st)
          else
            let st1 := emit (GetBoundingClientRect el) st in
            if inView (geometry el) innerHeight then
              checkLoop geometry innerHeight i
                (splice i (resolve el st1))
            else
              checkLoop geometry innerHeight i st1
      end
  end.

Definition checkFallback (geometry : elem -> rect) (innerHeight : Z)
    (st : state) : state :=
  let st1 := checkLoop geometry innerHeight (length (pending st)) st in
  let st2 := setFallbackTicking false st1 in
  match pending st2 with
  | [] => removeScrollListener st2
  | _ => st2
  end.

Definition onScrollFallback (st : state) : state :=
  if fallbackTicking st then st
  else requestFrame (setFallbackTicking true st).

(** ** The event loop *)

Inductive event :=
  | Notify (entries : list (elem * bool))   (* the observer delivers entries *)
  | Scroll                                  (* a scroll event on window *)
  | Frame (geometry : elem -> rect) (innerHeight : Z).
                                            (* a frame runs the queued callbacks *)

Definition step (st : state) (ev : event) : state :=
  match ev with
  | Notify entries => observerCallback entries st
  | Scroll => if listening st then onScrollFallback st else st
  | Frame geometry innerHeight =>
      Nat.iter (frameQueue st) (checkFallback geometry innerHeight)
        (clearFrameQueue st)
  end.

Definition run (st : state) (evs : list event) : state := foldl step st evs.

(** The states a run passes through, the first one included. *)
Fixpoint trace (st : state) (evs : list event) : list state :=
  match evs with
  | [] => [st]
  | ev :: evs' => st :: trace (step st ev) evs'
  end.

(** ** Observables *)

(** Calls of [classList.add('visible')] on [el]. *)
Definition marks (el : elem) (st : state) : nat :=
  length (filter (λ e, e = ClassListAdd el) (log st)).

Definition isGeometryCheck (e : effect) : bool :=
  match e with GetBoundingClientRect _ => true | _ => false end.

(** Calls of [getBoundingClientRect]. *)
Definition geometryChecks (st : state) : nat :=
  length (filter (λ e, isGeometryCheck e = true) (log st)).

(** Changes of [el]'s visible flag from false to true along a trace. *)
Fixpoint transitions (el : elem) (sts : list state) : nat :=
  match sts with
  | s :: (s' :: _) as rest =>
      ((if bool_decide ((el ∉ visible s) ∧ (el ∈ visible s')) then 1 else 0)
       + transitions el rest)%nat
  | _ => 0%nat
  end.

(** Changes of [el]'s visible flag from true back to false. *)
Fixpoint reversions (el : elem) (sts : list state) : nat :=
  match sts with
  | s :: (s' :: _) as rest =>
      ((if bool_decide ((el ∈ visible s) ∧ (el ∉ visible s')) then 1 else 0)
       + reversions el rest)%nat
  | _ => 0%nat
  end.

(** The observer's side of the contract: a notification carries only
    targets that are under observation when it is delivered, each once. *)
Definition deliversObserved (st : state) (ev : event) : bool :=
  match ev with
  | Notify entries =>
      bool_decide (NoDup (entries.*1))
      && forallb (λ e : elem * bool, bool_decide (e.1 ∈ observed st)) entries
  | _ => true
  end.

Fixpoint wellBehaved (st : state) (evs : list event) : bool :=
  match evs with
  | [] => true
  | ev :: evs' => deliversObserved st ev && wellBehaved (step st ev) evs'
  end.

(** ** Invariants of the event loop *)

(** While a target is hidden or still observed it has not been marked,
    and no target is marked twice. *)
Definition markedOnce (el : elem) (st : state) : Prop :=
  (el ∉ visible st ∨ el ∈ observed st → marks el st = 0%nat)
  ∧ (marks el st ≤ 1)%nat.

(** The fallback is torn down: nothing pending, no listener. *)
Definition tornDown (st : state) : Prop :=
  pending st = [] ∧ listening st = false.

(** Whenever nothing is pending the listener is gone. *)
Definition emptyMeansDetached (st : state) : Prop :=
  pending st = [] → listening st = false.

End Reveal.

(* ===================================================================== *)
(** * Scroll-linked update ticker ([initScrollLinked])                    *)
(* ===================================================================== *)

Module Ticker.

Local Open Scope float_scope.

(** JavaScript numbers are IEEE 754 binary64 values, and so are the
    kernel's primitive floats: the arithmetic of the frame callback is
    read with the rounding it has.  A decimal literal stands, here as in
    the source, for the binary64 value nearest to it. *)

(** What one frame callback writes: the [--scroll-y] custom property and,
    when the hero branch runs, [translateY] in pixels and [opacity]. *)
Record publication := {
  scroll_y : float;
  hero : option (float * float)
}.

Record state := {
  ticking : bool;             (* var ticking *)
  frameQueue : nat;           (* frame callbacks awaiting a frame *)
  scrollY : float;            (* window.scrollY *)
  innerHeight : float;        (* window.innerHeight *)
  heroContent : bool;         (* hero.querySelector('.hero__content') found *)
  listening : bool;           (* onScroll is registered on window *)
  published : list publication
}.

(** [Math.max(x, y)]: NaN when an argument is, and +0 above -0. *)
Definition Math_max (x y : float) : float :=
  if is_nan x || is_nan y then nan
  else if x <? y then y
  else if y <? x then x
  else if is_zero x && get_sign x then y
  else x.

(** [var progress = scrollY / (window.innerHeight * 0.8)] *)
Definition heroProgress (scrollY innerHeight : float) : float :=
  scrollY / (innerHeight * 0.8).

(** [Math.max(0, 1 - progress)] *)
Definition heroOpacity (scrollY innerHeight : float) : float :=
  Math_max 0 (1 - heroProgress scrollY innerHeight).

(** [scrollY * 0.18] *)
Definition heroTranslate (scrollY : float) : float := scrollY * 0.18.

(** The hero branch of the frame callback, under its guard
    [heroContent && scrollY < window.innerHeight]. *)
Definition heroStyle (heroContent : bool) (scrollY innerHeight : float)
    : option (float * float) :=
  if heroContent && (scrollY <? innerHeight)
  then Some (heroTranslate scrollY, heroOpacity scrollY innerHeight)
  else None.

(** The function handed to [requestAnimationFrame]: it reads
    [window.scrollY] when it runs. *)
Definition frameCallback (st : state) : state :=
  let y := scrollY st in
  {| ticking := false; frameQueue := frameQueue st;
     scrollY := scrollY st; innerHeight := innerHeight st;
     heroContent := heroContent st; listening := listening st;
     published := published st
       ++ [{| scroll_y := y;
              hero := heroStyle (heroContent st) y (innerHeight st) |}] |}.

Definition onScroll (st : state) : state :=
  if ticking st then st
  else {| ticking := true; frameQueue := S (frameQueue st);
          scrollY := scrollY st; innerHeight := innerHeight st;
          heroContent := heroContent st; listening := listening st;
          published := published st |}.

(** [initScrollLinked]: the page starts at offset [y0] in a viewport of
    height [h0]. *)
Definition initScrollLinked (prefersReducedMotion : bool)
    (hasHeroContent : bool) (y0 h0 : float) : state :=
  {| ticking := false; frameQueue := 0%nat; scrollY := y0;
     innerHeight := h0; heroContent := hasHeroContent;
     listening := negb prefersReducedMotion; published := [] |}.

Inductive event :=
  | Scroll (y : float)   (* the page scrolls to y and a scroll event fires *)
  | Resize (h : float)   (* the viewport height changes *)
  | Frame.               (* a frame runs the queued callbacks *)

Definition setScrollY (y : float) (st : state) : state :=
  {| ticking := ticking st; frameQueue := frameQueue st; scrollY := y;
     innerHeight := innerHeight st; heroContent := heroContent st;
     listening := listening st; published := published st |}.

Definition setInnerHeight (h : float) (st : state) : state :=
  {| ticking := ticking st; frameQueue := frameQueue st;
     scrollY := scrollY st; innerHeight := h;
     heroContent := heroContent st; listening := listening st;
     published := published st |}.

Definition clearFrameQueue (st : state) : state :=
  {| ticking := ticking st; frameQueue := 0%nat; scrollY := scrollY st;
     innerHeight := innerHeight st; heroContent := heroContent st;
     listening := listening st; published := published st |}.

Definition step (st : state) (ev : event) : state :=
  match ev with
  | Scroll y =>
      let st1 := setScrollY y st in
      if listening st1 then onScroll st1 else st1
  | Resize h => setInnerHeight h st
  | Frame => Nat.iter (frameQueue st) frameCallback (clearFrameQueue st)
  end.

Definition run (st : state) (evs : list event) : state := foldl step st evs.

(** The in-flight flag mirrors the frame queue: a callback is queued
    exactly when [ticking] is set, and never more than one. *)
Definition coherent (st : state) : Prop :=
  (ticking st = true ∧ frameQueue st = 1%nat)
  ∨ (ticking st = false ∧ frameQueue st = 0%nat).

(** Strict comparison of exact rationals, for a threshold on an offset
    that is only compared. *)
Definition Qltb (x y : Q) : bool := negb (Qle_bool y x).

(** ** The pixel grid *)





End Ticker.

(* ===================================================================== *)
(** * Page initialisation ([init])                                        *)
(* ===================================================================== *)

Module Page.

(** The two capability bits read before any listener is attached. *)
Record capabilities := {
  hasObserver : bool;             (* 'IntersectionObserver' in window *)
  prefersReducedMotion : bool     (* matchMedia(..reduce..).matches *)
}.

Record state := {
  reveal : Reveal.state;
  ticker : Ticker.state
}.

(** The part of [init()] that starts the two motion components. *)
Definition init (c : capabilities) (vis0 : gset Reveal.elem)
    (revealElements : list Reveal.elem) (hasHeroContent : bool)
    (y0 h0 : float) : state :=
  {| reveal := Reveal.initScrollReveals (hasObserver c)
                 (prefersReducedMotion c) vis0 revealElements;
     ticker := Ticker.initScrollLinked (prefersReducedMotion c)
                 hasHeroContent y0 h0 |}.

(** Events of either component; a scroll event reaches both. *)
Inductive event :=
  | Notify (entries : list (Reveal.elem * bool))
  | Scroll (y : float)
  | Resize (h : float)
  | Frame (geometry : Reveal.elem -> Reveal.rect) (innerHeight : Z).

Definition step (st : state) (ev : event) : state :=
  match ev with
  | Notify entries =>
      {| reveal := Reveal.step (reveal st) (Reveal.Notify entries);
         ticker := ticker st |}
  | Scroll y =>
      {| reveal := Reveal.step (reveal st) Reveal.Scroll;
         ticker := Ticker.step (ticker st) (Ticker.Scroll y) |}
  | Resize h =>
      {| reveal := reveal st;
         ticker := Ticker.step (ticker st) (Ticker.Resize h) |}
  | Frame geometry innerHeight =>
      {| reveal := Reveal.step (reveal st) (Reveal.Frame geometry innerHeight);
         ticker := Ticker.step (ticker st) Ticker.Frame |}
  end.

Definition run (st : state) (evs : list event) : state := foldl step st evs.

(** A scroll listener of the reveal engine or of the ticker is attached. *)
Definition scrollListenerAttached (st : state) : bool :=
  Reveal.listening (reveal st) || Ticker.listening (ticker st).

End Page.

(* ===================================================================== *)
(** * Inline conversational form ([initConvoForm])                        *)
(* ===================================================================== *)

Module Convo.

Local Open Scope N_scope.

(** ** JavaScript strings

    A string is its sequence of UTF-16 code units. *)
Definition jsstring := list N.

(** An ASCII literal as a JavaScript string. *)
Fixpoint lit (s : string) : jsstring :=
  match s with
  | EmptyString => []
  | String a rest => N_of_ascii a :: lit rest
  end.

(** U+2014 EM DASH, used in two of the script's literals. *)
Definition emDash : N := 8212.

(** ECMAScript WhiteSpace and LineTerminator code points, as
    [String.prototype.trim] strips them. *)
Definition isWhiteSpace (c : N) : bool :=
  (c =? 9) || (c =? 10) || (c =? 11) || (c =? 12) || (c =? 13)
  || (c =? 32) || (c =? 160) || (c =? 5760)
  || ((8192 <=? c) && (c <=? 8202))
  || (c =? 8232) || (c =? 8233) || (c =? 8239) || (c =? 8287)
  || (c =? 12288) || (c =? 65279).

Fixpoint trimStart (s : jsstring) : jsstring :=
  match s with
  | c :: rest => if isWhiteSpace c then trimStart rest else s
  | [] => []
  end.

(** [s.trim()] *)
Definition trim (s : jsstring) : jsstring :=
  reverse (trimStart (reverse (trimStart s))).

(** [s.indexOf(c)] for a one-unit needle: the first position, or -1. *)
Fixpoint indexOfFrom (i : Z) (c : N) (s : jsstring) : Z :=
  match s with
  | [] => (-1)%Z
  | d :: rest => if d =? c then i else indexOfFrom (i + 1)%Z c rest
  end.

Definition indexOf (s : jsstring) (c : N) : Z := indexOfFrom 0%Z c s.

Definition atSign : N := 64.

(** Truthiness of a string: [!s] holds exactly for the empty string. *)
Definition falsy (s : jsstring) : bool :=
  match s with [] => true | _ => false end.

(** ** [encodeURIComponent] *)

Definition isUnreserved (c : N) : bool :=
  ((65 <=? c) && (c <=? 90)) || ((97 <=? c) && (c <=? 122))
  || ((48 <=? c) && (c <=? 57))
  || (c =? 45) || (c =? 95) || (c =? 46) || (c =? 33) || (c =? 126)
  || (c =? 42) || (c =? 39) || (c =? 40) || (c =? 41).

Definition hexDigit (n : N) : N := if n <? 10 then 48 + n else 55 + n.

Definition percentEncode (byte : N) : jsstring :=
  [37; hexDigit (byte / 16); hexDigit (byte mod 16)].

Definition utf8 (cp : N) : list N :=
  if cp <? 128 then [cp]
  else if cp <? 2048 then [192 + cp / 64; 128 + cp mod 64]
  else if cp <? 65536 then
    [224 + cp / 4096; 128 + (cp / 64) mod 64; 128 + cp mod 64]
  else
    [240 + cp / 262144; 128 + (cp / 4096) mod 64;
     128 + (cp / 64) mod 64; 128 + cp mod 64].

Definition isHighSurrogate (c : N) : bool := (55296 <=? c) && (c <=? 56319).
Definition isLowSurrogate (c : N) : bool := (56320 <=? c) && (c <=? 57343).

Definition escapeCodePoint (cp : N) : jsstring :=
  concat (percentEncode <$> utf8 cp).

(** [None] stands for the URIError thrown on a lone surrogate. *)
Fixpoint encodeURIComponent (s : jsstring) : option jsstring :=
  match s with
  | [] => Some []
  | c :: rest =>
      if isUnreserved c then
        match encodeURIComponent rest with
        | Some r => Some (c :: r)
        | None => None
        end
      else if isLowSurrogate c then None
      else if isHighSurrogate c then
        match rest with
        | d :: rest' =>
            if isLowSurrogate d then
              match encodeURIComponent rest' with
              | Some r =>
                  Some (escapeCodePoint
                          ((c - 55296) * 1024 + (d - 56320) + 65536) ++ r)
              | None => None
              end
            else None
        | [] => None
        end
      else
        match encodeURIComponent rest with
        | Some r => Some (escapeCodePoint c ++ r)
        | None => None
        end
  end.

(** ** The data of the form *)

(** [var answers = { work: '', source: '', name: '', email: '', note: '' }] *)
Record answersT := {
  work : jsstring;
  source : jsstring;
  name : jsstring;
  email : jsstring;
  note : jsstring
}.

Definition noAnswers : answersT :=
  {| work := []; source := []; name := []; email := []; note := [] |}.

Inductive actor := Bot | User.

(** The three [.convo-form__step] elements. *)
Inductive stepEl := Step1 | Step2 | Step3.

Inductive field := WorkSelect | NameInput | EmailInput | NoteInput.

(** Children of [convoChat]: a bubble, or a typing indicator. *)
Inductive node :=
  | Bubble (who : actor) (text : jsstring)
  | Typing (id : nat).

(** What a [setTimeout] runs when it fires. *)
Inductive callback :=
  | AfterStart (typing : nat)     (* showTyping(600).then of the start button *)
  | AfterWork (typing : nat)      (* showTyping(500).then of step 1 *)
  | AfterSource (typing : nat)    (* showTyping(500).then of a pill *)
  | FocusName                     (* nameInput.focus(), 100 ms later *)
  | AfterSend (typing : nat) (mailtoLink : jsstring).
                                  (* showTyping(400).then of the send button *)

Record timer := { due : nat; task : callback }.

#[global] Instance actor_eq_dec : EqDecision actor.
Proof. solve_decision. Defined.
#[global] Instance stepEl_eq_dec : EqDecision stepEl.
Proof. solve_decision. Defined.
#[global] Instance field_eq_dec : EqDecision field.
Proof. solve_decision. Defined.
#[global] Instance node_eq_dec : EqDecision node.
Proof. solve_decision. Defined.
#[global] Instance callback_eq_dec : EqDecision callback.
Proof. solve_decision. Defined.

Record state := {
  answers : answersT;
  formActive : bool;            (* convoForm carries class active *)
  active : option stepEl;       (* the step that carries class active *)
  stepsHidden : bool;           (* every step has style.display = 'none' *)
  chat : list node;             (* children of convoChat, in order *)
  workValue : jsstring;         (* workSelect.value *)
  nameValue : jsstring;         (* nameInput.value *)
  emailValue : jsstring;        (* emailInput.value *)
  noteValue : jsstring;         (* noteInput.value *)
  workFlagged : bool;           (* workSelect has the invalid border colour *)
  nameFlagged : bool;           (* nameInput has the invalid border colour *)
  emailFlagged : bool;          (* emailInput has the invalid border colour *)
  focused : option field;       (* document.activeElement, if a field *)
  now : nat;                    (* milliseconds since load *)
  timers : list timer;          (* pending setTimeout callbacks *)
  nextNode : nat;               (* fresh identity for a typing indicator *)
  successPanels : list jsstring;(* .convo-success panels, by their link *)
  navigations : list jsstring   (* assignments to window.location.href *)
}.

(** ** Field updates *)

Definition setAnswers (v : answersT) (st : state) : state :=
  {| answers := v; formActive := formActive st; active := active st;
     stepsHidden := stepsHidden st; chat := chat st;
     workValue := workValue st; nameValue := nameValue st;
     emailValue := emailValue st; noteValue := noteValue st;
     workFlagged := workFlagged st; nameFlagged := nameFlagged st;
     emailFlagged := emailFlagged st; focused := focused st; now := now st;
     timers := timers st; nextNode := nextNode st;
     successPanels := successPanels st; navigations := navigations st |}.

Definition setFormActive (v : bool) (st : state) : state :=
  {| answers := answers st; formActive := v; active := active st;
     stepsHidden := stepsHidden st; chat := chat st;
     workValue := workValue st; nameValue := nameValue st;
     emailValue := emailValue st; noteValue := noteValue st;
     workFlagged := workFlagged st; nameFlagged := nameFlagged st;
     emailFlagged := emailFlagged st; focused := focused st; now := now st;
     timers := timers st; nextNode := nextNode st;
     successPanels := successPanels st; navigations := navigations st |}.

Definition setActive (v : option stepEl) (st : state) : state :=
  {| answers := answers st; formActive := formActive st; active := v;
     stepsHidden := stepsHidden st; chat := chat st;
     workValue := workValue st; nameValue := nameValue st;
     emailValue := emailValue st; noteValue := noteValue st;
     workFlagged := workFlagged st; nameFlagged := nameFlagged st;
     emailFlagged := emailFlagged st; focused := focused st; now := now st;
     timers := timers st; nextNode := nextNode st;
     successPanels := successPanels st; navigations := navigations st |}.

Definition setStepsHidden (v : bool) (st : state) : state :=
  {| answers := answers st; formActive := formActive st;
     active := active st; stepsHidden := v; chat := chat st;
     workValue := workValue st; nameValue := nameValue st;
     emailValue := emailValue st; noteValue := noteValue st;
     workFlagged := workFlagged st; nameFlagged := nameFlagged st;
     emailFlagged := emailFlagged st; focused := focused st; now := now st;
     timers := timers st; nextNode := nextNode st;
     successPanels := successPanels st; navigations := navigations st |}.

Definition setChat (v : list node) (st : state) : state :=
  {| answers := answers st; formActive := formActive st;
     active := active st; stepsHidden := stepsHidden st; chat := v;
     workValue := workValue st; nameValue := nameValue st;
     emailValue := emailValue st; noteValue := noteValue st;
     workFlagged := workFlagged st; nameFlagged := nameFlagged st;
     emailFlagged := emailFlagged st; focused := focused st; now := now st;
     timers := timers st; nextNode := nextNode st;
     successPanels := successPanels st; navigations := navigations st |}.

Definition setWorkValue (v : jsstring) (st : state) : state :=
  {| answers := answers st; formActive := formActive st;
     active := active st; stepsHidden := stepsHidden st; chat := chat st;
     workValue := v; nameValue := nameValue st;
     emailValue := emailValue st; noteValue := noteValue st;
     workFlagged := workFlagged st; nameFlagged := nameFlagged st;
     emailFlagged := emailFlagged st; focused := focused st; now := now st;
     timers := timers st; nextNode := nextNode st;
     successPanels := successPanels st; navigations := navigations st |}.

Definition setNameValue (v : jsstring) (st : state) : state :=
  {| answers := answers st; formActive := formActive st;
     active := active st; stepsHidden := stepsHidden st; chat := chat st;
     workValue := workValue st; nameValue := v;
     emailValue := emailValue st; noteValue := noteValue st;
     workFlagged := workFlagged st; nameFlagged := nameFlagged st;
     emailFlagged := emailFlagged st; focused := focused st; now := now st;
     timers := timers st; nextNode := nextNode st;
     successPanels := successPanels st; navigations := navigations st |}.

Definition setEmailValue (v : jsstring) (st : state) : state :=
  {| answers := answers st; formActive := formActive st;
     active := active st; stepsHidden := stepsHidden st; chat := chat st;
     workValue := workValue st; nameValue := nameValue st; emailValue := v;
     noteValue := noteValue st; workFlagged := workFlagged st;
     nameFlagged := nameFlagged st; emailFlagged := emailFlagged st;
     focused := focused st; now := now st; timers := timers st;
     nextNode := nextNode st; successPanels := successPanels st;
     navigations := navigations st |}.

Definition setNoteValue (v : jsstring) (st : state) : state :=
  {| answers := answers st; formActive := formActive st;
     active := active st; stepsHidden := stepsHidden st; chat := chat st;
     workValue := workValue st; nameValue := nameValue st;
     emailValue := emailValue st; noteValue := v;
     workFlagged := workFlagged st; nameFlagged := nameFlagged st;
     emailFlagged := emailFlagged st; focused := focused st; now := now st;
     timers := timers st; nextNode := nextNode st;
     successPanels := successPanels st; navigations := navigations st |}.

Definition setWorkFlagged (v : bool) (st : state) : state :=
  {| answers := answers st; formActive := formActive st;
     active := active st; stepsHidden := stepsHidden st; chat := chat st;
     workValue := workValue st; nameValue := nameValue st;
     emailValue := emailValue st; noteValue := noteValue st;
     workFlagged := v; nameFlagged := nameFlagged st;
     emailFlagged := emailFlagged st; focused := focused st; now := now st;
     timers := timers st; nextNode := nextNode st;
     successPanels := successPanels st; navigations := navigations st |}.

Definition setNameFlagged (v : bool) (st : state) : state :=
  {| answers := answers st; formActive := formActive st;
     active := active st; stepsHidden := stepsHidden st; chat := chat st;
     workValue := workValue st; nameValue := nameValue st;
     emailValue := emailValue st; noteValue := noteValue st;
     workFlagged := workFlagged st; nameFlagged := v;
     emailFlagged := emailFlagged st; focused := focused st; now := now st;
     timers := timers st; nextNode := nextNode st;
     successPanels := successPanels st; navigations := navigations st |}.

Definition setEmailFlagged (v : bool) (st : state) : state :=
  {| answers := answers st; formActive := formActive st;
     active := active st; stepsHidden := stepsHidden st; chat := chat st;
     workValue := workValue st; nameValue := nameValue st;
     emailValue := emailValue st; noteValue := noteValue st;
     workFlagged := workFlagged st; nameFlagged := nameFlagged st;
     emailFlagged := v; focused := focused st; now := now st;
     timers := timers st; nextNode := nextNode st;
     successPanels := successPanels st; navigations := navigations st |}.

Definition setFocused (v : option field) (st : state) : state :=
  {| answers := answers st; formActive := formActive st;
     active := active st; stepsHidden := stepsHidden st; chat := chat st;
     workValue := workValue st; nameValue := nameValue st;
     emailValue := emailValue st; noteValue := noteValue st;
     workFlagged := workFlagged st; nameFlagged := nameFlagged st;
     emailFlagged := emailFlagged st; focused := v; now := now st;
     timers := timers st; nextNode := nextNode st;
     successPanels := successPanels st; navigations := navigations st |}.

Definition setNow (v : nat) (st : state) : state :=
  {| answers := answers st; formActive := formActive st;
     active := active st; stepsHidden := stepsHidden st; chat := chat st;
     workValue := workValue st; nameValue := nameValue st;
     emailValue := emailValue st; noteValue := noteValue st;
     workFlagged := workFlagged st; nameFlagged := nameFlagged st;
     emailFlagged := emailFlagged st; focused := focused st; now := v;
     timers := timers st; nextNode := nextNode st;
     successPanels := successPanels st; navigations := navigations st |}.

Definition setTimers (v : list timer) (st : state) : state :=
  {| answers := answers st; formActive := formActive st;
     active := active st; stepsHidden := stepsHidden st; chat := chat st;
     workValue := workValue st; nameValue := nameValue st;
     emailValue := emailValue st; noteValue := noteValue st;
     workFlagged := workFlagged st; nameFlagged := nameFlagged st;
     emailFlagged := emailFlagged st; focused := focused st; now := now st;
     timers := v; nextNode := nextNode st;
     successPanels := successPanels st; navigations := navigations st |}.

Definition setNextNode (v : nat) (st : state) : state :=
  {| answers := answers st; formActive := formActive st;
     active := active st; stepsHidden := stepsHidden st; chat := chat st;
     workValue := workValue st; nameValue := nameValue st;
     emailValue := emailValue st; noteValue := noteValue st;
     workFlagged := workFlagged st; nameFlagged := nameFlagged st;
     emailFlagged := emailFlagged st; focused := focused st; now := now st;
     timers := timers st; nextNode := v; successPanels := successPanels st;
     navigations := navigations st |}.

Definition setSuccessPanels (v : list jsstring) (st : state) : state :=
  {| answers := answers st; formActive := formActive st;
     active := active st; stepsHidden := stepsHidden st; chat := chat st;
     workValue := workValue st; nameValue := nameValue st;
     emailValue := emailValue st; noteValue := noteValue st;
     workFlagged := workFlagged st; nameFlagged := nameFlagged st;
     emailFlagged := emailFlagged st; focused := focused st; now := now st;
     timers := timers st; nextNode := nextNode st; successPanels := v;
     navigations := navigations st |}.

Definition setNavigations (v : list jsstring) (st : state) : state :=
  {| answers := answers st; formActive := formActive st;
     active := active st; stepsHidden := stepsHidden st; chat := chat st;
     workValue := workValue st; nameValue := nameValue st;
     emailValue := emailValue st; noteValue := noteValue st;
     workFlagged := workFlagged st; nameFlagged := nameFlagged st;
     emailFlagged := emailFlagged st; focused := focused st; now := now st;
     timers := timers st; nextNode := nextNode st;
     successPanels := successPanels st; navigations := v |}.

(** ** Literals of the script *)

Definition question1 : jsstring :=
  lit "Hey! What kind of work are you looking for?".

Definition question2 : jsstring := lit "Nice. How did you find me?".

Definition question3 : jsstring :=
  lit "Almost there " ++ [emDash]
    ++ lit " drop your details and I'll be in touch.".

(** [' — '] *)
Definition dashSeparator : jsstring := [32; emDash; 32].

Definition recipient : jsstring := lit "azlanallahwala@gmail.com".

Definition newline : jsstring := [10].

(** ** Utilities of [initConvoForm] *)

(** [addBubble(text, type)] *)
Definition addBubble (text : jsstring) (type : actor) (st : state) : state :=
  setChat (chat st ++ [Bubble type text]) st.

(** [showTyping(delay).then(k)]: the indicator is appended now; the timer
    removes it and then runs [k]. *)
Definition showTyping (delay : nat) (k : nat -> callback) (st : state) : state :=
  let id := nextNode st in
  setTimers (timers st ++ [{| due := (now st + delay)%nat; task := k id |}])
    (setNextNode (S id) (setChat (chat st ++ [Typing id]) st)).

(** [convoChat.removeChild(typing)] *)
Definition removeTyping (id : nat) (st : state) : state :=
  setChat (filter (λ n, n ≠ Typing id) (chat st)) st.

(** [showStep(stepEl)]: [None] is [showStep(null)]. *)
Definition showStep (target : option stepEl) (st : state) : state :=
  setActive target st.

(** [setTimeout(f, delay)] *)
Definition setTimeout (f : callback) (delay : nat) (st : state) : state :=
  setTimers (timers st ++ [{| due := (now st + delay)%nat; task := f |}]) st.

(** Modelled from the spec: the stylesheet and the markup are not among
    the sources.  A step's controls are open to interaction only while the
    step is shown; the other steps are "hidden/removed from interaction".
    A step is shown when it carries [active], no inline [display: none]
    hides it, and the form itself is open. *)
Definition displayed (s : stepEl) (st : state) : bool :=
  bool_decide (active st = Some s) && negb (stepsHidden st) && formActive st.

(** ** Composition of the outbound message *)

(** ['New inquiry from ' + answers.name + ' — ' + answers.work] *)
Definition composeSubject (a : answersT) : jsstring :=
  lit "New inquiry from " ++ name a ++ dashSeparator ++ work a.

Definition composeBody (a : answersT) : jsstring :=
  lit "Hi Azlan," ++ newline ++ newline
    ++ lit "Name: " ++ name a ++ newline
    ++ lit "Email: " ++ email a ++ newline
    ++ lit "Looking for: " ++ work a ++ newline
    ++ lit "Found you via: " ++ source a ++ newline
    ++ (if falsy (note a) then [] else lit "Note: " ++ note a ++ newline)
    ++ newline ++ lit "Sent from your portfolio site.".

(** [mailtoLink]; [None] when [encodeURIComponent] throws. *)
Definition composeMailto (a : answersT) : option jsstring :=
  match encodeURIComponent (composeSubject a) with
  | None => None
  | Some subject =>
      match encodeURIComponent (composeBody a) with
      | None => None
      | Some body =>
          Some (lit "mailto:" ++ recipient ++ lit "?subject=" ++ subject
                  ++ lit "&body=" ++ body)
      end
  end.

(** ** Click handlers *)

(** Step 0: the start button (its change of colour is left out). *)
Definition onStartClick (st : state) : state :=
  showTyping 600 AfterStart (setFormActive true st).

(** Step 1: the Next button beside the work type dropdown. *)
Definition onStep1Next (st : state) : state :=
  if falsy (workValue st) then
    setFocused (Some WorkSelect) (setWorkFlagged true st)
  else
    let a := answers st in
    let st1 :=
      setAnswers {| work := workValue st; source := source a;
                    name := name a; email := email a; note := note a |} st in
    showTyping 500 AfterWork
      (showStep None (addBubble (work (answers st1)) User st1)).

(** Step 2: a source pill whose [data-value] is [value]. *)
Definition onPillClick (value : jsstring) (st : state) : state :=
  let a := answers st in
  let st1 :=
    setAnswers {| work := work a; source := value;
                  name := name a; email := email a; note := note a |} st in
  showTyping 500 AfterSource
    (showStep None (addBubble (source (answers st1)) User st1)).

(** Step 3: the send button. *)
Definition onSendClick (st : state) : state :=
  let name' := trim (nameValue st) in
  let email' := trim (emailValue st) in
  let note' := trim (noteValue st) in
  if falsy name' then
    setNameFlagged true (setFocused (Some NameInput) st)
  else if falsy email' || (indexOf email' atSign =? -1)%Z then
    setEmailFlagged true (setFocused (Some EmailInput) st)
  else
    let a := answers st in
    let a' := {| work := work a; source := source a;
                 name := name'; email := email'; note := note' |} in
    let st1 := setAnswers a' st in
    match composeMailto a' with
    | None => st1   (* the URIError leaves the handler here *)
    | Some mailtoLink =>
        showTyping 400 (λ id, AfterSend id mailtoLink)
          (addBubble (name' ++ dashSeparator ++ email') User
             (showStep None st1))
    end.

(** ** Timer callbacks *)

Definition fire (st : state) (k : callback) : state :=
  match k with
  | AfterStart id =>
      showStep (Some Step1) (addBubble question1 Bot (removeTyping id st))
  | AfterWork id =>
      showStep (Some Step2) (addBubble question2 Bot (removeTyping id st))
  | AfterSource id =>
      setTimeout FocusName 100
        (showStep (Some Step3) (addBubble question3 Bot (removeTyping id st)))
  | FocusName =>
      (* focus() does nothing on an element that is not displayed *)
      if displayed Step3 st then setFocused (Some NameInput) st else st
  | AfterSend id mailtoLink =>
      setNavigations (navigations st ++ [mailtoLink])
        (setSuccessPanels (successPanels st ++ [mailtoLink])
           (setStepsHidden true (removeTyping id st)))
  end.

(** One millisecond passes: the timers that are due run in the order in
    which they were set. *)
Definition tick (st : state) : state :=
  let t := S (now st) in
  let ready := filter (λ x, (due x ≤ t)%nat) (timers st) in
  let waiting := filter (λ x, ¬ (due x ≤ t)%nat) (timers st) in
  foldl fire (setTimers waiting (setNow t st)) (task <$> ready).

(** ** The event loop *)

Inductive event :=
  | ClickStart
  | SelectWork (value : jsstring)     (* the user picks a work type *)
  | ClickStep1Next
  | ClickPill (i : nat)               (* the i-th source pill *)
  | InputName (value : jsstring)
  | InputEmail (value : jsstring)
  | InputNote (value : jsstring)
  | ClickSend
  | KeydownEnter (shiftKey : bool)    (* Enter in one of the detail fields *)
  | Tick.

Definition initConvoForm : state :=
  {| answers := noAnswers; formActive := false; active := None;
     stepsHidden := false; chat := []; workValue := []; nameValue := [];
     emailValue := []; noteValue := []; workFlagged := false;
     nameFlagged := false; emailFlagged := false; focused := None;
     now := 0%nat; timers := []; nextNode := 0%nat; successPanels := [];
     navigations := [] |}.

Section Dispatch.

(** The [data-value] of each [.convo-pill] of step 2, from the markup. *)
Variable pills : list jsstring.

(** The browser hands a user's input to a handler only while the control
    is displayed; the start button is always on the page. *)
Definition dispatch (st : state) (ev : event) : state :=
  match ev with
  | ClickStart => onStartClick st
  | SelectWork v => if displayed Step1 st then setWorkValue v st else st
  | ClickStep1Next => if displayed Step1 st then onStep1Next st else st
  | ClickPill i =>
      if displayed Step2 st then
        match pills !! i with
        | Some v => onPillClick v st
        | None => st
        end
      else st
  | InputName v => if displayed Step3 st then setNameValue v st else st
  | InputEmail v => if displayed Step3 st then setEmailValue v st else st
  | InputNote v => if displayed Step3 st then setNoteValue v st else st
  | ClickSend => if displayed Step3 st then onSendClick st else st
  | KeydownEnter shiftKey =>
      (* if (e.key === 'Enter' && !e.shiftKey) sendBtn.click() *)
      if displayed Step3 st && negb shiftKey then onSendClick st else st
  | Tick => tick st
  end.

Definition run (st : state) (evs : list event) : state :=
  foldl dispatch st evs.

End Dispatch.

(** [n] milliseconds pass with no input. *)
Definition wait (n : nat) : list event := replicate n Tick.

(** ** Observables *)

(** The transcript: the bubbles of the chat, in order. *)
Definition transcript (st : state) : list (actor * jsstring) :=
  omap (λ n, match n with Bubble a t => Some (a, t) | Typing _ => None end)
    (chat st).

(** Bot and user turns alternate, a bot turn first. *)
Fixpoint alternates (expected : actor) (turns : list (actor * jsstring)) : bool :=
  match turns with
  | [] => true
  | (a, _) :: rest =>
      bool_decide (a = expected)
      && alternates (match expected with Bot => User | User => Bot end) rest
  end.

Definition isAfterSend (t : timer) : bool :=
  match task t with AfterSend _ _ => true | _ => false end.

(** The session is at the Details step: step 3 is the displayed step. *)
Definition atDetails (st : state) : bool := displayed Step3 st.

(** The session has reached Success: a submission was accepted (its
    closing timer is pending) or the summary panel is up. *)
Definition atSuccess (st : state) : bool :=
  existsb isAfterSend (timers st)
  || negb (bool_decide (successPanels st = []))
  || negb (bool_decide (navigations st = [])).

(** [s] has no white space at either end. *)
Definition trimmed (s : jsstring) : Prop :=
  (∀ c, head s = Some c → isWhiteSpace c = false)
  ∧ (∀ c, last s = Some c → isWhiteSpace c = false).

(** The lines of [s], split at line feeds. *)
Fixpoint linesFrom (cur : jsstring) (s : jsstring) : list jsstring :=
  match s with
  | [] => [cur]
  | c :: rest =>
      if c =? 10 then cur :: linesFrom [] rest
      else linesFrom (cur ++ [c]) rest
  end.

Definition lines (s : jsstring) : list jsstring := linesFrom [] s.

(** [s.startsWith(prefix)] *)
Fixpoint startsWith (prefix s : jsstring) : bool :=
  match prefix, s with
  | [], _ => true
  | p :: prefix', c :: s' => (p =? c) && startsWith prefix' s'
  | _ :: _, [] => false
  end.

(** The two checks of the send handler, on the trimmed field values. *)
Definition validDetails (st : state) : bool :=
  negb (falsy (trim (nameValue st)))
  && negb (falsy (trim (emailValue st))
           || (indexOf (trim (emailValue st)) atSign =? -1)%Z).

(** What the send handler does when it refuses the name, and the email. *)
Definition refuseName (st : state) : state :=
  setNameFlagged true (setFocused (Some NameInput) st).

Definition refuseEmail (st : state) : state :=
  setEmailFlagged true (setFocused (Some EmailInput) st).

(** The answers committed by an accepted submission. *)
Definition committed (st : state) : answersT :=
  {| work := work (answers st); source := source (answers st);
     name := trim (nameValue st); email := trim (emailValue st);
     note := trim (noteValue st) |}.

(** ** The worked example of the specification

    Start, pick "Design", click the pill numbered [i], fill in the
    details, send; the user answers each question once it has appeared. *)
Definition inquiryOpening : list event :=
  [ClickStart] ++ wait 600
    ++ [SelectWork (lit "Design"); ClickStep1Next] ++ wait 500.

Definition inquiryDetails : list event :=
  wait 500
    ++ [InputName (lit "Ana"); InputEmail (lit "ana@x.com"); InputNote [];
        ClickSend]
    ++ wait 400.

Definition inquiry (i : nat) : list event :=
  inquiryOpening ++ [ClickPill i] ++ inquiryDetails.

Definition inquiryLink : jsstring :=
  lit "mailto:azlanallahwala@gmail.com?subject=New%20inquiry%20from%20Ana%20%E2%80%94%20Design&body=Hi%20Azlan%2C%0A%0AName%3A%20Ana%0AEmail%3A%20ana%40x.com%0ALooking%20for%3A%20Design%0AFound%20you%20via%3A%20Referral%0A%0ASent%20from%20your%20portfolio%20site.".

Definition isPillClick (ev : event) : bool :=
  match ev with ClickPill _ => true | _ => false end.

(** ** Invariant of the form

    What the answers must hold for a step to be shown, for a pending
    callback to run, and for the summary to be up.  The source answer is
    never tested by the code: all that holds of it is that it is the
    [data-value] of one of the markup's pills. *)
Definition hasWork (a : answersT) : Prop := work a ≠ [].
Definition hasSource (pills : list jsstring) (a : answersT) : Prop :=
  source a ∈ pills.
Definition hasContact (a : answersT) : Prop :=
  name a ≠ [] ∧ atSign ∈ email a.

Definition stepNeeds (pills : list jsstring) (s : option stepEl)
    (a : answersT) : Prop :=
  match s with
  | Some Step2 => hasWork a
  | Some Step3 => hasWork a ∧ hasSource pills a
  | _ => True
  end.

Definition callbackNeeds (pills : list jsstring) (k : callback)
    (a : answersT) : Prop :=
  match k with
  | AfterWork _ => hasWork a
  | AfterSource _ => hasWork a ∧ hasSource pills a
  | AfterSend _ _ => hasContact a
  | _ => True
  end.

Definition formInvariant (pills : list jsstring) (st : state) : Prop :=
  stepNeeds pills (active st) (answers st)
  ∧ Forall (λ t, callbackNeeds pills (task t) (answers st)) (timers st)
  ∧ (successPanels st ≠ [] ∨ navigations st ≠ [] → hasContact (answers st)).

End Convo.

(* ===================================================================== *)
(** * Observables of a session of the conversational form                 *)
(* ===================================================================== *)

Module Session.

Import Convo.
Local Open Scope N_scope.

(** The session is at the Source step: step 2 is the displayed step. *)
Definition atSource (st : state) : bool := displayed Step2 st.

(** What the answers must hold, as far as the work type goes, for a step
    to be shown and for a pending callback to run. *)
Definition stepNeedsWork (s : option stepEl) (a : answersT) : Prop :=
  match s with
  | Some Step2 | Some Step3 => work a ≠ []
  | _ => True
  end.

Definition callbackNeedsWork (k : callback) (a : answersT) : Prop :=
  match k with
  | AfterWork _ | AfterSource _ => work a ≠ []
  | _ => True
  end.

Definition workInvariant (st : state) : Prop :=
  stepNeedsWork (active st) (answers st)
  ∧ Forall (λ t, callbackNeedsWork (task t) (answers st)) (timers st).

(** The session is over: the steps have been hidden for good and no
    accepted submission is still waiting for its closing timer. *)
Definition closed (st : state) : Prop :=
  stepsHidden st = true ∧ existsb isAfterSend (timers st) = false.

(** Nothing the form collected or handed over differs between two states. *)
Definition sameOutcome (st st' : state) : Prop :=
  answers st' = answers st
  ∧ navigations st' = navigations st
  ∧ successPanels st' = successPanels st
  ∧ workValue st' = workValue st
  ∧ nameValue st' = nameValue st
  ∧ emailValue st' = emailValue st
  ∧ noteValue st' = noteValue st.

(** Clicks on the start button in a list of events. *)
Definition isStart (ev : event) : bool :=
  match ev with ClickStart => true | _ => false end.

Definition starts (evs : list event) : nat :=
  length (filter (λ ev, isStart ev = true) evs).

(** The callbacks that carry the dialog forward: all but the focus timer. *)
Definition isChain (k : callback) : bool :=
  match k with FocusName => false | _ => true end.

(** Dialog steps under way: pending callbacks of the chain, and the step
    on display if there is one. *)
Definition inFlight (st : state) : nat :=
  (length (filter (λ t, isChain (task t) = true) (timers st))
   + match active st with Some _ => 1 | None => 0 end)%nat.

(** Typing indicators on screen, and those a pending timer will remove. *)
Definition typingOfNode (n : node) : option nat :=
  match n with Typing id => Some id | Bubble _ _ => None end.

Definition typingOfCallback (k : callback) : option nat :=
  match k with
  | AfterStart id | AfterWork id | AfterSource id | AfterSend id _ => Some id
  | FocusName => None
  end.

Definition indicators (st : state) : list nat :=
  omap typingOfNode (chat st).

Definition awaited (ts : list timer) : list nat :=
  omap (λ t, typingOfCallback (task t)) ts.

(** The indicators [shown] are exactly those the timers in [waiting] will
    remove, each awaited once, all older than the next fresh identity. *)
Definition typingInvariant (shown waiting : list nat) (next : nat) : Prop :=
  (∀ id, id ∈ shown ↔ id ∈ waiting)
  ∧ NoDup waiting
  ∧ Forall (λ id, (id < next)%nat) waiting.

(** ** Code units *)

(** A JavaScript string holds 16-bit code units. *)
Definition isCodeUnit (c : N) : bool := c <? 65536.

Definition isSurrogate (c : N) : bool :=
  isHighSurrogate c || isLowSurrogate c.

(** What [encodeURIComponent] can put out: an unreserved character or a
    percent sign. *)
Definition isUriSafe (c : N) : bool := isUnreserved c || (c =? 37).

(** How often the code unit [c] occurs in [s]. *)
Definition occurrences (c : N) (s : list N) : nat :=
  length (filter (λ d, d = c) s).

(** The answers hold no surrogate code unit. *)
Definition plainAnswers (a : answersT) : Prop :=
  Forall (λ c, isSurrogate c = false)
    (work a ++ source a ++ name a ++ email a ++ note a).

(** The answers hold code units only. *)
Definition codeUnitAnswers (a : answersT) : Prop :=
  Forall (λ c, isCodeUnit c = true)
    (work a ++ source a ++ name a ++ email a ++ note a).

(** What [encodeURIComponent] writes for a code unit that is not half of
    a surrogate pair. *)
Definition encodeUnit (c : N) : jsstring :=
  if isUnreserved c then [c] else escapeCodePoint c.

End Session.

(* ===================================================================== *)
(** * The single-class reveals: pull quotes, stat callouts, contact bar   *)
(* ===================================================================== *)

Module Observers.

Definition elem := nat.

Record state := {
  marked : gset elem;         (* elements that carry the class *)
  observed : gset elem        (* observation targets of the observer *)
}.

(** The shape the three functions share: nothing to do without elements;
    without the observer, or with reduced motion, every element gets the
    class at once; otherwise every element is observed. *)
Definition initClassReveal (hasObserver prefersReducedMotion : bool)
    (marked0 : gset elem) (els : list elem) : state :=
  match els with
  | [] => {| marked := marked0; observed := ∅ |}
  | _ =>
      if negb hasObserver || prefersReducedMotion then
        {| marked := marked0 ∪ list_to_set els; observed := ∅ |}
      else
        {| marked := marked0; observed := list_to_set els |}
  end.

(** [initPullQuoteReveals]: class [visible], threshold 0.25. *)
Definition initPullQuoteReveals := initClassReveal.

(** [initStatCalloutReveals]: class [visible], threshold 0.25. *)
Definition initStatCalloutReveals := initClassReveal.

(** [initContactBarReveal]: class [in-view], threshold 0.2, on the one
    element [document.querySelector('.contact-bar')], if there is one. *)
Definition initContactBarReveal (hasObserver prefersReducedMotion : bool)
    (marked0 : gset elem) (contactBar : option elem) : state :=
  initClassReveal hasObserver prefersReducedMotion marked0
    (option_list contactBar).

(** Body of [entries.forEach]: an entry is its target and [isIntersecting]. *)
Definition onEntry (st : state) (entry : elem * bool) : state :=
  if entry.2 then
    {| marked := marked st ∪ {[entry.1]};
       observed := observed st ∖ {[entry.1]} |}
  else st.

Definition observerCallback (entries : list (elem * bool)) (st : state) : state :=
  foldl onEntry st entries.

(** The notifications of a page view, one list of entries each. *)
Definition run (st : state) (batches : list (list (elem * bool))) : state :=
  foldl (λ s entries, observerCallback entries s) st batches.

(** Some notification reported [el] as intersecting. *)
Definition reported (el : elem) (batches : list (list (elem * bool))) : Prop :=
  ∃ entries, entries ∈ batches ∧ (el, true) ∈ entries.

End Observers.

(* ===================================================================== *)
(** * Navigation: solid bar, mobile menu, active link                     *)
(* ===================================================================== *)

Module Nav.

Import Convo.
Local Open Scope N_scope.

(** ** [initNavScroll] *)

(** [handleNavScroll]: the class [nav--solid] is added above 80 pixels and
    removed otherwise; the result is whether the class is set. *)
Definition handleNavScroll (scrollY : Q) : bool :=
  if Ticker.Qltb 80 scrollY then true else false.

(** The class after initialisation at offset [y0] and scroll events to the
    offsets [ys]; [None] when there is no [#nav]. *)
Definition initNavScroll (nav : bool) (y0 : Q) : option bool :=
  if nav then Some (handleNavScroll y0) else None.

Definition onNavScroll (solid : option bool) (scrollY : Q) : option bool :=
  match solid with
  | Some _ => Some (handleNavScroll scrollY)
  | None => None
  end.

Definition runNavScroll (nav : bool) (y0 : Q) (ys : list Q) : option bool :=
  foldl onNavScroll (initNavScroll nav y0) ys.

(** ** [initMobileNav] *)

Record menu := {
  toggleActive : bool;        (* navToggle carries class active *)
  menuActive : bool;          (* mobileNav carries class active *)
  bodyNavOpen : bool          (* body carries class nav-open *)
}.

(** The click handler of [navToggle]: three [classList.toggle]. *)
Definition onToggleClick (m : menu) : menu :=
  {| toggleActive := negb (toggleActive m);
     menuActive := negb (menuActive m);
     bodyNavOpen := negb (bodyNavOpen m) |}.

(** The click handler of every link of the menu: three [classList.remove]. *)
Definition onLinkClick (m : menu) : menu :=
  {| toggleActive := false; menuActive := false; bodyNavOpen := false |}.

Inductive menuEvent := ToggleClick | LinkClick.

(** [wired] is false when [navToggle] or [mobileNav] is missing: no
    listener is attached then. *)
Definition menuStep (wired : bool) (m : menu) (ev : menuEvent) : menu :=
  if wired then
    match ev with
    | ToggleClick => onToggleClick m
    | LinkClick => onLinkClick m
    end
  else m.

Definition runMenu (wired : bool) (m : menu) (evs : list menuEvent) : menu :=
  foldl (menuStep wired) m evs.

Definition menuClosed : menu :=
  {| toggleActive := false; menuActive := false; bodyNavOpen := false |}.

Definition menuOpen : menu :=
  {| toggleActive := true; menuActive := true; bodyNavOpen := true |}.

(** ** [initActiveNavLink] *)

(** [s.split(sep)] for a one-unit separator. *)
Fixpoint splitFrom (sep : N) (cur : jsstring) (s : jsstring) : list jsstring :=
  match s with
  | [] => [cur]
  | c :: rest =>
      if c =? sep then cur :: splitFrom sep [] rest
      else splitFrom sep (cur ++ [c]) rest
  end.

Definition split (sep : N) (s : jsstring) : list jsstring := splitFrom sep [] s.

Definition slash : N := 47.

(** [fullPath.split('/').pop() || 'index.html'] *)
Definition currentFile (fullPath : jsstring) : jsstring :=
  match last (split slash fullPath) with
  | Some file => if falsy file then lit "index.html" else file
  | None => lit "index.html"
  end.

(** [s.indexOf(needle)]: the first position at which [needle] starts. *)
Fixpoint indexOfStringFrom (i : Z) (needle s : jsstring) : Z :=
  if startsWith needle s then i
  else match s with
       | [] => (-1)%Z
       | _ :: rest => indexOfStringFrom (i + 1)%Z needle rest
       end.

Definition indexOfString (s needle : jsstring) : Z :=
  indexOfStringFrom 0%Z needle s.

(** [fullPath.indexOf('/blog/') !== -1] *)
Definition isInBlogDir (fullPath : jsstring) : bool :=
  negb (indexOfString fullPath (lit "/blog/") =? -1)%Z.

(** Whether the loop adds [nav__link--active] to a link; [href] is [None]
    when the link has no such attribute. *)
Definition activates (fullPath : jsstring) (href : option jsstring) : bool :=
  if isInBlogDir fullPath
     && (bool_decide (href = Some (lit "../blog.html"))
         || bool_decide (href = Some (lit "blog.html")))
  then true
  else if bool_decide (href = Some (currentFile fullPath)) then true
  else false.

(** The class on each [.nav__link] afterwards, given its [href] and
    whether it carried the class before. *)
Definition initActiveNavLink (fullPath : jsstring)
    (links : list (option jsstring * bool)) : list bool :=
  (λ link, link.2 || activates fullPath link.1) <$> links.

End Nav.

(* ====================================================================== *)
(** * The lightbox ([initLightbox]) *)

Module Lightbox.
Import Convo.

(** An element matched by [[data-lightbox]]: its [dataset.lightbox], and
    its [dataset.caption] when it has that attribute. *)
Record trigger := { dataLightbox : jsstring; dataCaption : option jsstring }.

(** An entry of [galleryItems]. *)
Record galleryItem := { src : jsstring; caption : jsstring }.

(** What [initLightbox] finds in the document. *)
Record page := {
  lightbox : bool;              (* #lightbox *)
  lightboxImg : bool;           (* .lightbox__img *)
  lightboxCaption : bool;       (* .lightbox__caption *)
  lightboxClose : bool;         (* .lightbox__close *)
  lightboxPrev : bool;          (* .lightbox__nav--prev *)
  lightboxNext : bool;          (* .lightbox__nav--next *)
  triggers : list trigger       (* [data-lightbox], in document order *)
}.

(** [item.dataset.caption || ''] *)
Definition captionOf (t : trigger) : jsstring :=
  match dataCaption t with
  | Some c => if falsy c then [] else c
  | None => []
  end.

Definition galleryItems (p : page) : list galleryItem :=
  (λ t, {| src := dataLightbox t; caption := captionOf t |}) <$> triggers p.

(** [currentIndex] is [None] when it is NaN.  The fixed width, height and
    border radius written to the image are left out. *)
Record state := {
  currentIndex : option nat;
  active : bool;                (* lightbox carries class active *)
  bodyOverflow : jsstring;      (* document.body.style.overflow *)
  imgBackground : jsstring;     (* last value given to the image's background *)
  captionText : jsstring        (* lightboxCaption.textContent *)
}.

Definition setIndex (i : option nat) (st : state) : state :=
  {| currentIndex := i; active := active st; bodyOverflow := bodyOverflow st;
     imgBackground := imgBackground st; captionText := captionText st |}.

(** [item.src || 'var(--bg-tertiary)'] *)
Definition backgroundOf (item : galleryItem) : jsstring :=
  if falsy (src item) then lit "var(--bg-tertiary)" else src item.

(** With an index that names no item, reading [item.src] or
    [item.caption] throws before anything is written. *)
Definition openLightbox (p : page) (st : state) : state :=
  match galleryItems p with
  | [] => st
  | _ :: _ =>
      match currentIndex st ≫= (λ i, galleryItems p !! i) with
      | Some item =>
          {| currentIndex := currentIndex st;
             active := true;
             bodyOverflow := lit "hidden";
             imgBackground :=
               if lightboxImg p then backgroundOf item else imgBackground st;
             captionText :=
               if lightboxCaption p then caption item else captionText st |}
      | None =>
          if lightboxImg p || lightboxCaption p then st
          else {| currentIndex := currentIndex st;
                  active := true;
                  bodyOverflow := lit "hidden";
                  imgBackground := imgBackground st;
                  captionText := captionText st |}
      end
  end.

Definition closeLightbox (st : state) : state :=
  {| currentIndex := currentIndex st; active := false; bodyOverflow := [];
     imgBackground := imgBackground st; captionText := captionText st |}.

(** [(currentIndex + 1) % galleryItems.length]; the remainder by zero is
    NaN. *)
Definition nextIndex (p : page) (st : state) : option nat :=
  match currentIndex st, length (galleryItems p) with
  | Some i, S n => Some ((i + 1) mod S n)%nat
  | _, _ => None
  end.

(** [(currentIndex - 1 + galleryItems.length) % galleryItems.length]; the
    index is never negative, so neither is the dividend when there is an
    item. *)
Definition prevIndex (p : page) (st : state) : option nat :=
  match currentIndex st, length (galleryItems p) with
  | Some i, S n => Some ((i + S n - 1) mod S n)%nat
  | _, _ => None
  end.

Definition nextImage (p : page) (st : state) : state :=
  openLightbox p (setIndex (nextIndex p st) st).

Definition prevImage (p : page) (st : state) : state :=
  openLightbox p (setIndex (prevIndex p st) st).

Inductive key := Escape | ArrowRight | ArrowLeft | OtherKey.

(** [TriggerClick i] is a click on the [i]-th trigger; [LightboxClick b]
    a click that reaches the lightbox, [b] telling whether the lightbox
    itself is its target. *)
Inductive event :=
  | TriggerClick (index : nat)
  | CloseClick
  | PrevClick
  | NextClick
  | LightboxClick (onItself : bool)
  | KeyDown (k : key).

Definition onKeyDown (p : page) (k : key) (st : state) : state :=
  if active st then
    match k with
    | Escape => closeLightbox st
    | ArrowRight => nextImage p st
    | ArrowLeft => prevImage p st
    | OtherKey => st
    end
  else st.

(** The state after [initLightbox], given what the document shows at
    load. *)
Definition initLightbox (isActive : bool) (overflow background text : jsstring)
    : state :=
  {| currentIndex := Some 0%nat; active := isActive; bodyOverflow := overflow;
     imgBackground := background; captionText := text |}.

(** Without [#lightbox] nothing is wired; a listener is attached to each
    trigger, and to each of the three buttons that exist. *)
Definition step (p : page) (st : state) (ev : event) : state :=
  if lightbox p then
    match ev with
    | TriggerClick index =>
        if bool_decide (index < length (triggers p))%nat
        then openLightbox p (setIndex (Some index) st)
        else st
    | CloseClick => if lightboxClose p then closeLightbox st else st
    | PrevClick => if lightboxPrev p then prevImage p st else st
    | NextClick => if lightboxNext p then nextImage p st else st
    | LightboxClick onItself => if onItself then closeLightbox st else st
    | KeyDown k => onKeyDown p k st
    end
  else st.

Definition run (p : page) (st : state) (evs : list event) : state :=
  foldl (step p) st evs.

(** What the lightbox shows when it is open: the item at the current
    index, as far as the image and the caption exist. *)
Definition showsCurrent (p : page) (st : state) : Prop :=
  ∃ i item,
    currentIndex st = Some i
    ∧ galleryItems p !! i = Some item
    ∧ (lightboxImg p = true → imgBackground st = backgroundOf item)
    ∧ (lightboxCaption p = true → captionText st = caption item).

(** The current index names an item. *)
Definition inRange (p : page) (st : state) : Prop :=
  ∃ i, currentIndex st = Some i ∧ (i < length (triggers p))%nat.

(** What every handler of the lightbox keeps. *)
Definition lightboxInvariant (p : page) (st : state) : Prop :=
  (triggers p ≠ [] → inRange p st)
  ∧ (triggers p = [] → active st = false)
  ∧ bodyOverflow st = (if active st then lit "hidden" else [])
  ∧ (active st = true → showsCurrent p st).

End Lightbox.

(* ====================================================================== *)
(** * The gallery filter ([initGalleryFilter]) *)

Module GalleryFilter.
Import Convo.

(** A [.gallery-filter__btn]: its [dataset.filter], if it has one, and
    whether it carries class [active]. *)
Record button := { dataFilter : option jsstring; btnActive : bool }.

(** A [.masonry-grid__item]: its [dataset.category], if it has one, and
    its [style.display]. *)
Record item := { dataCategory : option jsstring; display : jsstring }.

Record state := { filterButtons : list button; galleryItems : list item }.

Definition setActive (b : bool) (btn : button) : button :=
  {| dataFilter := dataFilter btn; btnActive := b |}.

Definition setDisplay (d : jsstring) (it : item) : item :=
  {| dataCategory := dataCategory it; display := d |}.

(** [filter === 'all' || item.dataset.category === filter] *)
Definition shows (filter category : option jsstring) : bool :=
  bool_decide (filter = Some (lit "all")) || bool_decide (category = filter).

(** The click listener of the [i]-th button. *)
Definition onFilterClick (i : nat) (st : state) : state :=
  match filterButtons st !! i with
  | None => st
  | Some btn =>
      let filter := dataFilter btn in
      {| filterButtons :=
           alter (setActive true) i (setActive false <$> filterButtons st);
         galleryItems :=
           (λ it, setDisplay (if shows filter (dataCategory it) then []
                              else lit "none") it) <$> galleryItems st |}
  end.

(** Whether the listeners are attached: not when there is no button or no
    item. *)
Definition initGalleryFilter (st : state) : bool :=
  negb ((length (filterButtons st) =? 0)%nat
        || (length (galleryItems st) =? 0)%nat).

Inductive event := FilterClick (i : nat).

Definition step (wired : bool) (st : state) (ev : event) : state :=
  if wired then match ev with FilterClick i => onFilterClick i st end
  else st.

Definition run (st : state) (evs : list event) : state :=
  foldl (step (initGalleryFilter st)) st evs.

End GalleryFilter.

(* ====================================================================== *)
(** * The contact form ([initContactForm]) *)

Module ContactForm.
Import Convo.

(** The [value] of each control at the time of a submission; [None] for
    a control that is not in the form. *)
Record controls := {
  nameControl : option jsstring;        (* #name *)
  emailControl : option jsstring;       (* #email *)
  companyControl : option jsstring;     (* #company *)
  projectTypeControl : option jsstring; (* #projectType *)
  budgetControl : option jsstring;      (* #budget *)
  timelineControl : option jsstring;    (* #timeline *)
  messageControl : option jsstring      (* #message *)
}.

(** [(contactForm.querySelector(sel) || {}).value || ''] *)
Definition valueOr (c : option jsstring) : jsstring :=
  match c with
  | Some v => if falsy v then [] else v
  | None => []
  end.

Record values := {
  name : jsstring;
  email : jsstring;
  company : jsstring;
  projectType : jsstring;
  budget : jsstring;
  timeline : jsstring;
  message : jsstring
}.

Definition gather (c : controls) : values :=
  {| name := valueOr (nameControl c);
     email := valueOr (emailControl c);
     company := valueOr (companyControl c);
     projectType := valueOr (projectTypeControl c);
     budget := valueOr (budgetControl c);
     timeline := valueOr (timelineControl c);
     message := valueOr (messageControl c) |}.

(** [parts.join(sep)] *)
Fixpoint join (sep : jsstring) (parts : list jsstring) : jsstring :=
  match parts with
  | [] => []
  | [part] => part
  | part :: rest => part ++ sep ++ join sep rest
  end.

Definition composeSubject (v : values) : jsstring :=
  lit "New project inquiry from " ++ name v ++ dashSeparator
    ++ projectType v.

(** A line that is pushed only for a value that is not empty. *)
Definition optionalPart (label value : jsstring) : list jsstring :=
  if falsy value then [] else [label ++ value].

Definition bodyParts (v : values) : list jsstring :=
  [ lit "Hi Azlan,"; []; lit "Name: " ++ name v; lit "Email: " ++ email v ]
    ++ optionalPart (lit "Company: ") (company v)
    ++ optionalPart (lit "Project Type: ") (projectType v)
    ++ optionalPart (lit "Budget: ") (budget v)
    ++ optionalPart (lit "Timeline: ") (timeline v)
    ++ [ [] ]
    ++ optionalPart (lit "Message:" ++ newline) (message v)
    ++ [ []; lit "Sent from your portfolio site." ].

Definition composeBody (v : values) : jsstring := join newline (bodyParts v).

(** [mailtoLink]; [None] when [encodeURIComponent] throws. *)
Definition composeMailto (v : values) : option jsstring :=
  match encodeURIComponent (composeSubject v) with
  | None => None
  | Some subject =>
      match encodeURIComponent (composeBody v) with
      | None => None
      | Some body =>
          Some (lit "mailto:azlanallahwala@gmail.com?subject=" ++ subject
                  ++ lit "&body=" ++ body)
      end
  end.

(** The two faces the handler gives the button, and the one it has
    before: [Opening] is the text "Opening email client..." on green,
    [SendMessage] the text "Send Message" with its arrow and no
    background of its own. *)
Inductive face := Original | Opening | SendMessage.

Record state := {
  navigations : list jsstring;  (* assignments to window.location.href *)
  btnFace : face;
  now : nat;                    (* milliseconds since load *)
  timers : list nat             (* when each pending reset is due *)
}.

(** The submit listener.  An encoding that throws ends it before
    anything is written; without a [.btn] it ends on the first write to
    the button, after the navigation. *)
Definition onSubmit (btn : bool) (c : controls) (st : state) : state :=
  match composeMailto (gather c) with
  | None => st
  | Some mailtoLink =>
      if btn then
        {| navigations := navigations st ++ [mailtoLink];
           btnFace := Opening;
           now := now st;
           timers := timers st ++ [(now st + 3000)%nat] |}
      else
        {| navigations := navigations st ++ [mailtoLink];
           btnFace := btnFace st;
           now := now st;
           timers := timers st |}
  end.

(** One millisecond passes; a reset that is due runs. *)
Definition tick (st : state) : state :=
  let t := S (now st) in
  let ready := filter (λ due, (due ≤ t)%nat) (timers st) in
  let waiting := filter (λ due, ¬ (due ≤ t)%nat) (timers st) in
  {| navigations := navigations st;
     btnFace := match ready with [] => btnFace st | _ :: _ => SendMessage end;
     now := t;
     timers := waiting |}.

Inductive event := Submit (c : controls) | Tick.

(** [contactForm] tells whether [#contactForm] exists, [btn] whether it
    holds a [.btn]. *)
Definition step (contactForm btn : bool) (st : state) (ev : event) : state :=
  match ev with
  | Submit c => if contactForm then onSubmit btn c st else st
  | Tick => tick st
  end.

Definition run (contactForm btn : bool) (st : state) (evs : list event)
    : state :=
  foldl (step contactForm btn) st evs.

Definition initContactForm : state :=
  {| navigations := []; btnFace := Original; now := 0; timers := [] |}.

(** The values hold code units only. *)
Definition codeUnitValues (v : values) : Prop :=
  Forall (λ c, Session.isCodeUnit c = true)
    (name v ++ email v ++ company v ++ projectType v ++ budget v
       ++ timeline v ++ message v).

(** The values hold no surrogate code unit. *)
Definition plainValues (v : values) : Prop :=
  Forall (λ c, Session.isSurrogate c = false)
    (name v ++ email v ++ company v ++ projectType v ++ budget v
       ++ timeline v ++ message v).

(** A pending reset makes the button show [Opening] no longer than three
    seconds. *)
Definition resetsPending (st : state) : Prop :=
  Forall (λ due, (now st < due ≤ now st + 3000)%nat) (timers st)
  ∧ (btnFace st = Opening → timers st ≠ []).

End ContactForm.

(* ====================================================================== *)
(** * The hero title ([splitHeroTitle]) *)

Module Hero.
Import Convo.
Local Open Scope N_scope.

(** The rest of a line break after [<br]: what [\s*\/?>] takes at the
    start of [s], in code units. *)
Fixpoint closeBr (s : jsstring) : option nat :=
  match s with
  | [] => None
  | c :: rest =>
      if isWhiteSpace c then S <$> closeBr rest
      else if c =? 62 then Some 1%nat
      else if c =? 47 then
        match rest with
        | d :: _ => if d =? 62 then Some 2%nat else None
        | [] => None
        end
      else None
  end.

(** Whether [/<br\s*\/?>/i] matches at the start of [s], and how many
    code units the match takes. *)
Definition matchBr (s : jsstring) : option nat :=
  match s with
  | lt :: b :: r :: rest =>
      if (lt =? 60) && ((b =? 98) || (b =? 66)) && ((r =? 114) || (r =? 82))
      then (λ n, 3 + n)%nat <$> closeBr rest
      else None
  | _ => None
  end.

(** [s.split(/<br\s*\/?>/gi)], read from left to right: [cur] is the
    piece being read and [skip] what is left of the match being passed
    over. *)
Fixpoint splitBrFrom (cur : jsstring) (skip : nat) (s : jsstring)
    : list jsstring :=
  match s with
  | [] => [cur]
  | c :: rest =>
      match skip with
      | S k => splitBrFrom cur k rest
      | O =>
          match matchBr s with
          | Some n => cur :: splitBrFrom [] (n - 1) rest
          | None => splitBrFrom (cur ++ [c]) 0 rest
          end
      end
  end.

Definition splitBr (s : jsstring) : list jsstring := splitBrFrom [] 0 s.

Definition quote : jsstring := [34].

Definition openWrapper : jsstring :=
  lit "<span class=" ++ quote ++ lit "line-wrapper" ++ quote
    ++ lit "><span class=" ++ quote ++ lit "line-inner" ++ quote ++ lit ">".

Definition closeWrapper : jsstring := lit "</span></span>".

(** The function mapped over the lines. *)
Definition wrapLine (lineHTML : jsstring) : jsstring :=
  let trimmed := trim lineHTML in
  if falsy trimmed then [] else openWrapper ++ trimmed ++ closeWrapper.

(** The new [innerHTML] of the title. *)
Definition rebuild (rawHTML : jsstring) : jsstring :=
  ContactForm.join []
    (filter (λ s, falsy s = false) (wrapLine <$> splitBr rawHTML)).

(** The title: [awaiting] counts the animation frames that have yet to
    pass before the class is added, when that is pending. *)
Record title := {
  innerHTML : jsstring;
  motionReady : bool;           (* the title carries class motion-ready *)
  awaiting : option nat
}.

Definition splitHeroTitle (prefersReducedMotion : bool) (t : title) : title :=
  {| innerHTML := rebuild (innerHTML t);
     motionReady := if prefersReducedMotion then true else motionReady t;
     awaiting := if prefersReducedMotion then awaiting t else Some 2%nat |}.

(** An animation frame: the outer callback asks for the next frame, the
    inner one adds the class. *)
Definition frame (t : title) : title :=
  match awaiting t with
  | Some (S (S k)) =>
      {| innerHTML := innerHTML t; motionReady := motionReady t;
         awaiting := Some (S k) |}
  | Some _ =>
      {| innerHTML := innerHTML t; motionReady := true; awaiting := None |}
  | None => t
  end.

Definition frames (n : nat) (t : title) : title := Nat.iter n frame t.

(** No line break starts anywhere in [piece]. *)
Definition noBreak (piece : jsstring) : Prop :=
  ∀ before after, piece = before ++ after → matchBr after = None.

End Hero.

(* ===================================================================== *)
(** * Properties of the reveal engine                                     *)
(* ===================================================================== *)

Section RevealProperties.

Import Reveal.

Lemma marks_log_app (el : elem) (st : state) (l : list effect) (es : list effect) :
  log st = l ++ es →
  marks el st
  = (length (filter (λ e, e = ClassListAdd el) l)
     + length (filter (λ e, e = ClassListAdd el) es))%nat.
Proof. intros E. unfold marks. by rewrite E, filter_app, length_app. Qed.

Lemma marks_addVisible (el el' : elem) (st : state) :
  marks el (addVisible el' st)
  = (marks el st + (if decide (el' = el) then 1 else 0))%nat.
Proof.
  rewrite (marks_log_app el _ (log st) [ClassListAdd el']) by done.
  unfold marks. f_equal.
  destruct (decide (el' = el)) as [->|Hne].
  - by rewrite filter_cons_True.
  - rewrite filter_cons_False; [done | congruence].
Qed.

Lemma marks_unobserve (el el' : elem) (st : state) :
  marks el (unobserve el' st) = marks el st.
Proof.
  rewrite (marks_log_app el _ (log st) [Unobserve el']) by done.
  unfold marks. rewrite filter_cons_False by congruence. simpl. lia.
Qed.

Lemma marks_emit_rect (el el' : elem) (st : state) :
  marks el (emit (GetBoundingClientRect el') st) = marks el st.
Proof.
  rewrite (marks_log_app el _ (log st) [GetBoundingClientRect el']) by done.
  unfold marks. rewrite filter_cons_False by congruence. simpl. lia.
Qed.

(** Anything the three moves of the loop body keep, the loop keeps. *)
Lemma checkLoop_preserves (P : state → Prop) geometry h :
  (∀ st i, P st → P (splice i st)) →
  (∀ st el, el ∉ visible st → P st → P (emit (GetBoundingClientRect el) st)) →
  (∀ st el, el ∉ visible st → P st → P (resolve el st)) →
  ∀ n st, P st → P (checkLoop geometry h n st).
Proof.
  intros Hsplice Hemit Hresolve n.
  induction n as [|i IH]; intros st HP; simpl; [done|].
  destruct (pending st !! i) as [el|]; [|done].
  destruct (decide (el ∈ visible st)) as [Hin|Hnot].
  - apply IH, Hsplice, HP.
  - destruct (inView (geometry el) h).
    + apply IH, Hsplice. apply (Hresolve _ el); [exact Hnot|].
      by apply Hemit.
    + apply IH. by apply Hemit.
Qed.

Lemma checkLoop_visible_mono geometry h n st :
  visible st ⊆ visible (checkLoop geometry h n st).
Proof.
  apply (checkLoop_preserves (λ s, visible st ⊆ visible s)); try done.
  intros s el _ Hs. simpl. set_solver.
Qed.

Lemma checkLoop_same_flags geometry h n st :
  let st' := checkLoop geometry h n st in
  listening st' = listening st ∧ fallbackTicking st' = fallbackTicking st
  ∧ frameQueue st' = frameQueue st.
Proof.
  apply (checkLoop_preserves
           (λ s, listening s = listening st
                 ∧ fallbackTicking s = fallbackTicking st
                 ∧ frameQueue s = frameQueue st)); done.
Qed.

Lemma checkFallback_visible_mono geometry h st :
  visible st ⊆ visible (checkFallback geometry h st).
Proof.
  unfold checkFallback. pose proof (checkLoop_visible_mono geometry h
    (length (pending st)) st) as H.
  simpl. by destruct (pending (checkLoop _ _ _ _)).
Qed.

Lemma onEntry_visible_mono st e : visible st ⊆ visible (onEntry st e).
Proof. unfold onEntry. destruct e.2; simpl; set_solver. Qed.

Lemma observerCallback_visible_mono entries st :
  visible st ⊆ visible (observerCallback entries st).
Proof.
  unfold observerCallback. revert st.
  induction entries as [|e es IH]; intros st; simpl; [done|].
  etrans; [apply (onEntry_visible_mono st e) | apply IH].
Qed.

Lemma iter_checkFallback_visible_mono geometry h k st :
  visible st ⊆ visible (Nat.iter k (checkFallback geometry h) st).
Proof.
  induction k as [|k IH]; simpl; [done|].
  etrans; [exact IH | apply checkFallback_visible_mono].
Qed.

(** No event ever takes the visible flag away. *)
Lemma step_visible_mono st ev : visible st ⊆ visible (step st ev).
Proof.
  destruct ev as [entries| |geometry h]; simpl.
  - apply observerCallback_visible_mono.
  - unfold onScrollFallback.
    destruct (listening st); [|done]. by destruct (fallbackTicking st).
  - apply (iter_checkFallback_visible_mono geometry h _ (clearFrameQueue st)).
Qed.

Lemma reversions_zero el st evs : reversions el (trace st evs) = 0%nat.
Proof.
  revert st. induction evs as [|ev evs IH]; intros st; [done|].
  change (trace st (ev :: evs)) with (st :: trace (step st ev) evs).
  destruct evs as [|ev' evs'].
  - simpl. rewrite bool_decide_eq_false_2; [done|].
    intros [Hin Hout]. apply Hout. by apply step_visible_mono.
  - specialize (IH (step st ev)). simpl in *.
    rewrite bool_decide_eq_false_2; [exact IH|].
    intros [Hin Hout]. apply Hout. by apply step_visible_mono.
Qed.

Lemma transitions_once_visible el st evs :
  el ∈ visible st → transitions el (trace st evs) = 0%nat.
Proof.
  revert st. induction evs as [|ev evs IH]; intros st Hin; [done|].
  change (trace st (ev :: evs)) with (st :: trace (step st ev) evs).
  assert (Hin' : el ∈ visible (step st ev)) by by apply step_visible_mono.
  specialize (IH _ Hin').
  destruct evs as [|ev' evs']; simpl in *;
    rewrite bool_decide_eq_false_2 by tauto; done.
Qed.

Lemma transitions_at_most_one el st evs :
  (transitions el (trace st evs) ≤ 1)%nat.
Proof.
  revert st. induction evs as [|ev evs IH]; intros st; [simpl; lia|].
  change (trace st (ev :: evs)) with (st :: trace (step st ev) evs).
  assert (Hhead : ∀ s rest,
    transitions el (st :: s :: rest)
    = ((if bool_decide ((el ∉ visible st) ∧ (el ∈ visible s)) then 1 else 0)
       + transitions el (s :: rest))%nat) by done.
  destruct (trace (step st ev) evs) as [|s rest] eqn:E.
  { destruct evs; discriminate. }
  assert (s = step st ev) as -> by (destruct evs; simpl in E; congruence).
  rewrite Hhead. case_bool_decide as Hd.
  - destruct Hd as [_ Hin]. rewrite <- E.
    rewrite (transitions_once_visible el _ evs Hin). lia.
  - specialize (IH (step st ev)). rewrite E in IH. lia.
Qed.

(** ** The marking call *)

Lemma marks_resolve (el el' : elem) (st : state) :
  marks el (resolve el' st)
  = (marks el st + (if decide (el' = el) then 1 else 0))%nat.
Proof. unfold resolve. by rewrite marks_unobserve, marks_addVisible. Qed.

Lemma markedOnce_resolve el el' st :
  el' ∉ visible st ∨ el' ∈ observed st →
  markedOnce el st → markedOnce el (resolve el' st).
Proof.
  intros Hfresh [Hzero Hle]. unfold markedOnce.
  rewrite marks_resolve. destruct (decide (el' = el)) as [->|Hne].
  - rewrite (Hzero Hfresh). split; [|lia].
    clear. simpl. intros [Hvis|Hobs]; set_solver.
  - split; [|lia]. simpl. intros [Hvis|Hobs].
    + rewrite Hzero; [lia|]. left. clear -Hvis. set_solver.
    + rewrite Hzero; [lia|]. right. clear -Hobs. set_solver.
Qed.

Lemma markedOnce_checkLoop el geometry h n st :
  markedOnce el st → markedOnce el (checkLoop geometry h n st).
Proof.
  apply (checkLoop_preserves (markedOnce el)).
  - intros s i H. exact H.
  - intros s el' _ [Hzero Hle]. unfold markedOnce.
    rewrite marks_emit_rect. by split.
  - intros s el' Hnot H. apply markedOnce_resolve; [by left | exact H].
Qed.

Lemma markedOnce_checkFallback el geometry h st :
  markedOnce el st → markedOnce el (checkFallback geometry h st).
Proof.
  intros H. unfold checkFallback.
  pose proof (markedOnce_checkLoop el geometry h (length (pending st)) st H)
    as [Hzero Hle].
  set (st1 := checkLoop geometry h (length (pending st)) st) in *.
  assert (Hm : ∀ s, log s = log st1 ∨ log s = log st1 ++ [RemoveScrollListener] →
               marks el s = marks el st1).
  { intros s [E|E].
    - unfold marks. by rewrite E.
    - rewrite (marks_log_app el s _ _ E). unfold marks.
      rewrite filter_cons_False by congruence. simpl. lia. }
  simpl. destruct (pending st1); unfold markedOnce;
    (rewrite Hm; [by split | simpl; auto]).
Qed.

Lemma markedOnce_iter el geometry h k st :
  markedOnce el st → markedOnce el (Nat.iter k (checkFallback geometry h) st).
Proof.
  intros H. induction k as [|k IH]; simpl; [done|].
  by apply markedOnce_checkFallback.
Qed.

Lemma markedOnce_observerCallback el entries st :
  NoDup (entries.*1) →
  (∀ e, e ∈ entries → e.1 ∈ observed st) →
  markedOnce el st → markedOnce el (observerCallback entries st).
Proof.
  unfold observerCallback. revert st.
  induction entries as [|[t b] es IH]; intros st Hnd Hobs H; [done|].
  simpl. apply NoDup_cons in Hnd as [Hfresh Hnd].
  assert (Ht : t ∈ observed st) by (apply (Hobs (t, b)); left).
  apply IH; [exact Hnd | |].
  - intros e He. assert (e.1 ∈ observed st) by (apply Hobs; by right).
    unfold onEntry; simpl. destruct b; simpl; [|done].
    assert (e.1 ≠ t).
    { intros <-. apply Hfresh. apply list_elem_of_fmap. by exists e. }
    set_solver.
  - unfold onEntry; simpl. destruct b; [|exact H].
    apply markedOnce_resolve; [by right | exact H].
Qed.

Lemma markedOnce_step el st ev :
  deliversObserved st ev = true → markedOnce el st → markedOnce el (step st ev).
Proof.
  destruct ev as [entries| |geometry h]; simpl; intros Hd H.
  - apply andb_true_iff in Hd as [Hnd Hall].
    apply bool_decide_eq_true in Hnd.
    apply markedOnce_observerCallback; [exact Hnd | | exact H].
    intros e He. rewrite forallb_forall in Hall.
    specialize (Hall e). rewrite <- list_elem_of_In in Hall.
    specialize (Hall He). by apply bool_decide_eq_true in Hall.
  - unfold onScrollFallback.
    destruct (listening st); [|done].
    destruct (fallbackTicking st); [done|].
    destruct H as [Hzero Hle].
    assert (Hm : marks el (requestFrame (setFallbackTicking true st))
                 = marks el st).
    { rewrite (marks_log_app el _ (log st) [RequestAnimationFrame]) by done.
      unfold marks. rewrite filter_cons_False by congruence. simpl. lia. }
    unfold markedOnce. rewrite Hm. by split.
  - by apply markedOnce_iter.
Qed.

Lemma markedOnce_run el st evs :
  wellBehaved st evs = true → markedOnce el st → markedOnce el (run st evs).
Proof.
  revert st. induction evs as [|ev evs IH]; intros st Hw H; [done|].
  simpl in Hw. apply andb_true_iff in Hw as [Hd Hw].
  simpl. apply IH; [exact Hw|]. by apply markedOnce_step.
Qed.

Lemma markedOnce_init el vis0 els :
  markedOnce el (initScrollReveals true false vis0 els).
Proof.
  assert (Hobs : ∀ l : list elem,
            filter (λ e, e = ClassListAdd el) (Observe <$> l) = []).
  { induction l as [|y l IHl]; [done|].
    rewrite fmap_cons, filter_cons_False by congruence. exact IHl. }
  assert (Hz : marks el (initScrollReveals true false vis0 els) = 0%nat).
  { destruct els as [|x xs]; [done|]. unfold marks.
    change (log (initScrollReveals true false vis0 (x :: xs)))
      with ((Observe <$> (x :: xs))
              ++ [AddScrollListener; RequestAnimationFrame]).
    rewrite filter_app, Hobs.
    by rewrite !filter_cons_False by congruence. }
  split; [done | lia].
Qed.

(** ** What a fallback check leaves pending *)

Lemma checkLoop_pending_hidden geometry h n st :
  (n ≤ length (pending st))%nat →
  (∀ j el, (n ≤ j)%nat → pending st !! j = Some el →
           (el ∉ visible st) ∧ inView (geometry el) h = false) →
  ∀ el, el ∈ pending (checkLoop geometry h n st) →
        (el ∉ visible (checkLoop geometry h n st))
        ∧ inView (geometry el) h = false.
Proof.
  revert st. induction n as [|i IH]; intros st Hlen Hdone el Hin.
  - simpl in *. apply list_elem_of_lookup in Hin as [j Hj].
    apply (Hdone j); [lia | exact Hj].
  - simpl in Hin |- *.
    destruct (lookup_lt_is_Some_2 (pending st) i) as [el0 Hel0]; [lia|].
    rewrite Hel0 in Hin |- *.
    assert (Hlen' : (i ≤ length (delete i (pending st)))%nat).
    { rewrite length_delete by eauto. lia. }
    destruct (decide (el0 ∈ visible st)) as [Hv|Hv].
    + apply IH in Hin; [exact Hin | exact Hlen' |].
      intros j x Hj Hx. simpl in Hx.
      rewrite list_lookup_delete_ge in Hx by lia.
      apply (Hdone (S j)); [lia | exact Hx].
    + destruct (inView (geometry el0) h) eqn:Hview.
      * apply IH in Hin; [exact Hin | exact Hlen' |].
        intros j x Hj Hx. simpl in Hx |- *.
        rewrite list_lookup_delete_ge in Hx by lia.
        destruct (Hdone (S j) x) as [Hxv Hxo]; [lia | exact Hx |].
        split; [|exact Hxo].
        assert (x ≠ el0) by congruence. set_solver.
      * apply IH in Hin; [exact Hin | simpl; lia |].
        intros j x Hj Hx. simpl in Hx |- *.
        destruct (decide (j = i)) as [->|Hne].
        -- assert (x = el0) as -> by congruence. by split.
        -- apply (Hdone j); [lia | exact Hx].
Qed.

(** After a check, nothing that is visible is still pending. *)
Lemma checkFallback_pending_hidden geometry h st el :
  el ∈ pending (checkFallback geometry h st) →
  el ∉ visible (checkFallback geometry h st).
Proof.
  unfold checkFallback. simpl.
  pose proof (checkLoop_pending_hidden geometry h (length (pending st)) st)
    as H.
  set (st1 := checkLoop geometry h (length (pending st)) st) in *.
  assert (Hst1 : el ∈ pending st1 → el ∉ visible st1).
  { intros Hin. apply H; [lia | | exact Hin].
    intros j x Hj Hx. apply lookup_lt_Some in Hx. lia. }
  destruct (pending st1) eqn:E; simpl; rewrite ?E; exact Hst1.
Qed.

(** The fallback does not mark, nor measure, what is already visible. *)
Lemma checkLoop_skips_visible el geometry h n st :
  el ∈ visible st →
  marks el (checkLoop geometry h n st) = marks el st.
Proof.
  intros Hin.
  apply (checkLoop_preserves
           (λ s, el ∈ visible s ∧ marks el s = marks el st)); try done.
  - intros s el' Hnot [Hv Hm]. split; [done|].
    by rewrite marks_emit_rect.
  - intros s el' Hnot [Hv Hm]. split; [simpl; set_solver|].
    rewrite marks_resolve. destruct (decide (el' = el)) as [->|]; [done|lia].
Qed.

Lemma checkFallback_skips_visible el geometry h st :
  el ∈ visible st →
  marks el (checkFallback geometry h st) = marks el st.
Proof.
  intros Hin. unfold checkFallback. simpl.
  rewrite <- (checkLoop_skips_visible el geometry h (length (pending st)) st Hin).
  set (st1 := checkLoop geometry h (length (pending st)) st).
  destruct (pending st1); [|done].
  rewrite (marks_log_app el _ (log st1) [RemoveScrollListener]) by done.
  unfold marks. rewrite filter_cons_False by congruence. simpl. lia.
Qed.

(** What the fallback marks it also takes off the observer. *)
Lemma checkLoop_marks_unobserved el geometry h n st :
  (marks el st < marks el (checkLoop geometry h n st))%nat →
  el ∉ observed (checkLoop geometry h n st).
Proof.
  intros Hlt.
  assert (H : marks el (checkLoop geometry h n st) = marks el st
              ∨ el ∉ observed (checkLoop geometry h n st)).
  { apply (checkLoop_preserves
             (λ s, marks el s = marks el st ∨ el ∉ observed s)).
    - intros s i Hs. exact Hs.
    - intros s el' _ [Hm|Ho]; [left | by right].
      by rewrite marks_emit_rect.
    - intros s el' _ [Hm|Ho].
      + rewrite marks_resolve. destruct (decide (el' = el)) as [->|].
        * right. simpl. set_solver.
        * left. lia.
      + right. simpl. set_solver.
    - by left. }
  destruct H as [H|H]; [lia | exact H].
Qed.

Lemma checkFallback_marks_of_loop el geometry h st :
  marks el (checkFallback geometry h st)
  = marks el (checkLoop geometry h (length (pending st)) st).
Proof.
  unfold checkFallback. simpl.
  set (st1 := checkLoop geometry h (length (pending st)) st).
  destruct (pending st1); [|done].
  rewrite (marks_log_app el _ (log st1) [RemoveScrollListener]) by done.
  unfold marks. rewrite filter_cons_False by congruence. simpl. lia.
Qed.

Lemma checkFallback_sets_of_loop geometry h st :
  visible (checkFallback geometry h st)
  = visible (checkLoop geometry h (length (pending st)) st)
  ∧ observed (checkFallback geometry h st)
    = observed (checkLoop geometry h (length (pending st)) st).
Proof.
  unfold checkFallback. simpl.
  by destruct (pending (checkLoop geometry h (length (pending st)) st)).
Qed.

Lemma checkLoop_marks_visible el geometry h n st :
  (marks el st < marks el (checkLoop geometry h n st))%nat →
  el ∈ visible (checkLoop geometry h n st).
Proof.
  intros Hlt.
  assert (H : marks el (checkLoop geometry h n st) = marks el st
              ∨ el ∈ visible (checkLoop geometry h n st)).
  { apply (checkLoop_preserves
             (λ s, marks el s = marks el st ∨ el ∈ visible s)).
    - intros s i Hs. exact Hs.
    - intros s el' _ [Hm|Hv]; [left | by right].
      by rewrite marks_emit_rect.
    - intros s el' _ [Hm|Hv].
      + rewrite marks_resolve. destruct (decide (el' = el)) as [->|].
        * right. simpl. set_solver.
        * left. lia.
      + right. simpl. set_solver.
    - by left. }
  destruct H as [H|H]; [lia | exact H].
Qed.

(** A target the fallback marks ends up visible, unobserved and no
    longer pending. *)
Lemma checkFallback_resolves el geometry h st :
  (marks el st < marks el (checkFallback geometry h st))%nat →
  el ∈ visible (checkFallback geometry h st)
  ∧ (el ∉ observed (checkFallback geometry h st))
  ∧ (el ∉ pending (checkFallback geometry h st)).
Proof.
  intros Hlt.
  assert (Hv : el ∈ visible (checkFallback geometry h st)).
  { rewrite checkFallback_marks_of_loop in Hlt.
    destruct (checkFallback_sets_of_loop geometry h st) as [-> _].
    by apply checkLoop_marks_visible. }
  split; [exact Hv|]. split.
  - rewrite checkFallback_marks_of_loop in Hlt.
    destruct (checkFallback_sets_of_loop geometry h st) as [_ ->].
    by apply checkLoop_marks_unobserved.
  - intros Hp. by apply checkFallback_pending_hidden in Hp.
Qed.

(** The observer's callback marks an intersecting target whatever its
    state, and unobserves it. *)
Lemma onEntry_marks el st :
  marks el (onEntry st (el, true)) = S (marks el st)
  ∧ el ∉ observed (onEntry st (el, true)).
Proof.
  unfold onEntry. simpl. rewrite marks_resolve.
  rewrite decide_True by done. split; [lia|]. simpl. set_solver.
Qed.

(** C1, as the code has it.  Along every run of the engine the visible
    flag of a target never goes back to false and goes from false to true
    at most once.  The fallback path checks "already visible" first: it
    never marks a target that is visible, and what it does mark it removes
    from the observer and from its own pending list.  The observer path
    has no such check: its callback marks every intersecting entry it is
    handed and then unobserves the target.  So the marking call is made at
    most once per target provided every notification carries only targets
    that are still observed, each of them once. *)
Theorem reveal_exactly_once (vis0 : gset elem) (els : list elem)
    (evs : list event) (el : elem) :
  let st0 := initScrollReveals true false vis0 els in
  reversions el (trace st0 evs) = 0%nat
  ∧ (transitions el (trace st0 evs) ≤ 1)%nat
  ∧ (∀ st geometry h, el ∈ visible st →
       marks el (checkFallback geometry h st) = marks el st)
  ∧ (∀ st geometry h,
       (marks el st < marks el (checkFallback geometry h st))%nat →
       el ∈ visible (checkFallback geometry h st)
       ∧ (el ∉ observed (checkFallback geometry h st))
       ∧ (el ∉ pending (checkFallback geometry h st)))
  ∧ (∀ st, marks el (onEntry st (el, true)) = S (marks el st)
           ∧ el ∉ observed (onEntry st (el, true)))
  ∧ (wellBehaved st0 evs = true → (marks el (run st0 evs) ≤ 1)%nat).
Proof.
  intros st0. repeat split.
  - apply reversions_zero.
  - apply transitions_at_most_one.
  - intros st geometry h. apply checkFallback_skips_visible.
  - by apply checkFallback_resolves.
  - by apply checkFallback_resolves.
  - by apply checkFallback_resolves.
  - apply onEntry_marks.
  - apply onEntry_marks.
  - intros Hw.
    by destruct (markedOnce_run el st0 evs Hw (markedOnce_init el vis0 els)).
Qed.

(** A run in which the observer keeps its side of the contract: target 1
    is reported by the observer, target 0 is found by the fallback. *)
Lemma reveal_exactly_once_witness :
  let st0 := initScrollReveals true false ∅ [0%nat; 1%nat] in
  let evs := [Notify [(1%nat, true)]; Scroll;
              Frame (λ _, {| top := 10; bottom := 20 |}) 800; Scroll] in
  wellBehaved st0 evs = true ∧ (marks 0%nat (run st0 evs) ≤ 1)%nat.
Proof.
  split; [reflexivity|].
  apply (reveal_exactly_once ∅ [0%nat; 1%nat]
           [Notify [(1%nat, true)]; Scroll;
            Frame (λ _, {| top := 10; bottom := 20 |}) 800; Scroll] 0%nat).
  reflexivity.
Defined.

(** C1 as stated fails on the observer path, which does not look at the
    visible flag before it commits.  The fallback resolves target 0 in a
    frame (one marking call, the target visible and unobserved); an entry
    for target 0 that the observer had queued before that frame is still
    delivered, and the callback marks the target a second time.  Even a
    notification about a target that is still observed is committed
    without the check: on a target that carries [visible] from the start
    the callback marks, where the fallback leaves it alone. *)
Lemma reveal_marking_repeats :
  let st0 := initScrollReveals true false ∅ [0%nat] in
  let st1 := step st0 (Frame (λ _, {| top := 10; bottom := 20 |}) 800) in
  let st2 := step st1 (Notify [(0%nat, true)]) in
  let shown := initScrollReveals true false {[0%nat]} [0%nat] in
  marks 0%nat st1 = 1%nat
  ∧ 0%nat ∈ visible st1
  ∧ marks 0%nat st2 = 2%nat
  ∧ 0%nat ∈ visible shown
  ∧ deliversObserved shown (Notify [(0%nat, true)]) = true
  ∧ marks 0%nat (step shown (Notify [(0%nat, true)])) = 1%nat
  ∧ marks 0%nat
      (step shown (Frame (λ _, {| top := 10; bottom := 20 |}) 800))
    = 0%nat.
Proof. repeat apply conj; vm_compute; reflexivity. Qed.

(** ** Teardown of the fallback *)

Lemma checkLoop_nil geometry h n st :
  pending st = [] → checkLoop geometry h n st = st.
Proof. intros E. destruct n; simpl; [done|]. by rewrite E. Qed.

Lemma geometryChecks_log_app st l e :
  log st = l ++ [e] → isGeometryCheck e = false →
  geometryChecks st = length (filter (λ e, isGeometryCheck e = true) l).
Proof.
  intros E He. unfold geometryChecks.
  rewrite E, filter_app, filter_cons_False by congruence.
  rewrite length_app. simpl. lia.
Qed.

Lemma checkFallback_tornDown geometry h st :
  pending st = [] →
  tornDown (checkFallback geometry h st)
  ∧ geometryChecks (checkFallback geometry h st) = geometryChecks st.
Proof.
  intros E. unfold checkFallback. rewrite checkLoop_nil by done.
  simpl. rewrite E. split; [done|].
  by rewrite (geometryChecks_log_app _ (log st) RemoveScrollListener).
Qed.

Lemma iter_checkFallback_tornDown geometry h k st :
  tornDown st →
  tornDown (Nat.iter k (checkFallback geometry h) st)
  ∧ geometryChecks (Nat.iter k (checkFallback geometry h) st)
    = geometryChecks st.
Proof.
  intros Ht. induction k as [|k [IHt IHg]]; simpl; [done|].
  destruct IHt as [IHp IHl].
  destruct (checkFallback_tornDown geometry h _ IHp) as [H1 H2].
  split; [exact H1 | congruence].
Qed.

Lemma observerCallback_keeps_fallback entries st :
  pending (observerCallback entries st) = pending st
  ∧ listening (observerCallback entries st) = listening st
  ∧ geometryChecks (observerCallback entries st) = geometryChecks st.
Proof.
  unfold observerCallback. revert st.
  induction entries as [|[t b] es IH]; intros st; [done|].
  simpl. destruct (IH (onEntry st (t, b))) as (-> & -> & ->).
  unfold onEntry. simpl. destruct b; [|done]. repeat split.
  rewrite (geometryChecks_log_app _ (log (addVisible t st)) (Unobserve t))
    by done.
  change (length (filter (λ e, isGeometryCheck e = true)
                     (log (addVisible t st))))
    with (geometryChecks (addVisible t st)).
  by rewrite (geometryChecks_log_app _ (log st) (ClassListAdd t)).
Qed.

Lemma step_tornDown st ev :
  tornDown st →
  tornDown (step st ev) ∧ geometryChecks (step st ev) = geometryChecks st.
Proof.
  intros [Hp Hl]. destruct ev as [entries| |geometry h]; simpl.
  - destruct (observerCallback_keeps_fallback entries st) as (E1 & E2 & E3).
    unfold tornDown. rewrite E1, E2, E3. done.
  - rewrite Hl. done.
  - apply (iter_checkFallback_tornDown geometry h _ (clearFrameQueue st)).
    done.
Qed.

Lemma run_tornDown st evs :
  tornDown st →
  tornDown (run st evs) ∧ geometryChecks (run st evs) = geometryChecks st.
Proof.
  revert st. induction evs as [|ev evs IH]; intros st Ht; [done|].
  simpl. destruct (step_tornDown st ev Ht) as [Ht' Hg].
  destruct (IH _ Ht') as [Ht'' Hg']. split; [exact Ht'' | congruence].
Qed.

Lemma checkFallback_emptyMeansDetached geometry h st :
  emptyMeansDetached (checkFallback geometry h st).
Proof.
  unfold emptyMeansDetached, checkFallback. simpl.
  destruct (pending (checkLoop geometry h (length (pending st)) st)) eqn:E;
    simpl; [done|]. by rewrite E.
Qed.

Lemma step_emptyMeansDetached st ev :
  emptyMeansDetached st → emptyMeansDetached (step st ev).
Proof.
  intros H. destruct ev as [entries| |geometry h]; simpl.
  - destruct (observerCallback_keeps_fallback entries st) as (E1 & E2 & _).
    unfold emptyMeansDetached. by rewrite E1, E2.
  - destruct (listening st) eqn:El; [|done].
    unfold onScrollFallback. destruct (fallbackTicking st); [done|].
    intros Hp. simpl in Hp. specialize (H Hp). congruence.
  - destruct (frameQueue st) as [|k]; simpl; [exact H|].
    apply checkFallback_emptyMeansDetached.
Qed.

Lemma run_emptyMeansDetached st evs :
  emptyMeansDetached st → emptyMeansDetached (run st evs).
Proof.
  revert st. induction evs as [|ev evs IH]; intros st H; [done|].
  simpl. by apply IH, step_emptyMeansDetached.
Qed.

Lemma init_emptyMeansDetached hasObserver reduced vis0 els :
  emptyMeansDetached (initScrollReveals hasObserver reduced vis0 els).
Proof.
  unfold emptyMeansDetached, initScrollReveals.
  destruct els as [|x xs]; [done|].
  destruct (negb hasObserver || reduced); [done | discriminate].
Qed.

(** C6.  Once the pending list of the fallback is empty its scroll
    listener is removed, and from then on, whatever events follow (scroll
    events included), the listener stays removed and no further geometry
    check is made. *)
Theorem fallback_teardown (hasObserver reduced : bool) (vis0 : gset elem)
    (els : list elem) (evs : list event) :
  let st := run (initScrollReveals hasObserver reduced vis0 els) evs in
  pending st = [] →
  listening st = false
  ∧ ∀ more : list event,
      listening (run st more) = false
      ∧ pending (run st more) = []
      ∧ geometryChecks (run st more) = geometryChecks st.
Proof.
  intros st Hp.
  assert (Hl : listening st = false).
  { apply (run_emptyMeansDetached _ evs); [|exact Hp].
    apply init_emptyMeansDetached. }
  split; [exact Hl|]. intros more.
  destruct (run_tornDown st more (conj Hp Hl)) as [[Hp' Hl'] Hg]. done.
Qed.

(** Two targets, both in view at the first frame; scrolling goes on. *)
Lemma fallback_teardown_witness :
  let st := run (initScrollReveals true false ∅ [0%nat; 1%nat])
              [Scroll; Frame (λ _, {| top := 10; bottom := 20 |}) 800] in
  pending st = []
  ∧ listening st = false
  ∧ geometryChecks
      (run st [Scroll; Scroll;
               Frame (λ _, {| top := 10; bottom := 20 |}) 800; Scroll])
    = geometryChecks st.
Proof.
  split; [reflexivity|].
  pose proof (fallback_teardown true false ∅ [0%nat; 1%nat]
                [Scroll; Frame (λ _, {| top := 10; bottom := 20 |}) 800])
    as H.
  cbv zeta in H. destruct H as [Hl Hmore]; [reflexivity|].
  split; [exact Hl|]. apply Hmore.
Defined.

(** ** The observer's margins *)



End RevealProperties.

(* ===================================================================== *)
(** * Properties of the ticker                                            *)
(* ===================================================================== *)

Section TickerProperties.

Import Ticker.
Local Open Scope float_scope.

Lemma step_coherent st ev : coherent st → coherent (step st ev).
Proof.
  intros H. destruct ev as [y|h|]; simpl.
  - destruct (listening st); [|exact H].
    unfold onScroll. simpl.
    destruct H as [[Ht Hq]|[Ht Hq]]; rewrite Ht; left; simpl; [done|].
    by rewrite Hq.
  - exact H.
  - right. destruct H as [[Ht Hq]|[Ht Hq]]; rewrite Hq; simpl; done.
Qed.

Lemma iter_frameCallback_keeps k s :
  listening (Nat.iter k frameCallback s) = listening s
  ∧ heroContent (Nat.iter k frameCallback s) = heroContent s.
Proof. induction k as [|k IH]; simpl; [done | exact IH]. Qed.

Lemma step_keeps_listening st ev : listening (step st ev) = listening st.
Proof.
  destruct ev as [y|h|]; simpl; [| done |].
  - destruct (listening st) eqn:E; [|done].
    unfold onScroll. simpl. by destruct (ticking st).
  - by destruct (iter_frameCallback_keeps (frameQueue st) (clearFrameQueue st))
      as [-> _].
Qed.

Lemma step_keeps_heroContent st ev : heroContent (step st ev) = heroContent st.
Proof.
  destruct ev as [y|h|]; simpl; [| done |].
  - destruct (listening st); [|done].
    unfold onScroll. simpl. by destruct (ticking st).
  - by destruct (iter_frameCallback_keeps (frameQueue st) (clearFrameQueue st))
      as [_ ->].
Qed.

Lemma run_invariants st evs :
  coherent st →
  coherent (run st evs)
  ∧ listening (run st evs) = listening st
  ∧ heroContent (run st evs) = heroContent st.
Proof.
  revert st. induction evs as [|ev evs IH]; intros st H; [done|].
  simpl. destruct (IH _ (step_coherent st ev H)) as (Hc & Hl & Hh).
  rewrite Hl, Hh, step_keeps_listening, step_keeps_heroContent. done.
Qed.

(** A scroll event on a listening ticker leaves exactly one callback
    queued and moves the position; nothing is published yet. *)
Lemma scroll_queues_one st y :
  coherent st → listening st = true →
  let st' := step st (Scroll y) in
  ticking st' = true ∧ frameQueue st' = 1%nat ∧ scrollY st' = y
  ∧ innerHeight st' = innerHeight st ∧ heroContent st' = heroContent st
  ∧ listening st' = true ∧ published st' = published st.
Proof.
  intros H Hl. simpl. rewrite Hl. unfold onScroll. simpl.
  destruct H as [[Ht Hq]|[Ht Hq]]; rewrite Ht; simpl; rewrite ?Hq; done.
Qed.

Lemma scroll_burst st ys y :
  coherent st → listening st = true →
  let st' := run st ((Scroll <$> ys) ++ [Scroll y]) in
  ticking st' = true ∧ frameQueue st' = 1%nat ∧ scrollY st' = y
  ∧ innerHeight st' = innerHeight st ∧ heroContent st' = heroContent st
  ∧ published st' = published st.
Proof.
  revert st. induction ys as [|y' ys IH]; intros st H Hl.
  - destruct (scroll_queues_one st y H Hl) as (?&?&?&?&?&?&?). done.
  - destruct (scroll_queues_one st y' H Hl) as (_&_&_&Hh&Hc&Hl'&Hp).
    cbn [fmap list_fmap app run foldl] in *.
    destruct (IH (step st (Scroll y')) (step_coherent _ _ H) Hl')
      as (?&?&?&Hh'&Hc'&Hp').
    unfold run in *. rewrite Hh', Hc', Hp', Hh, Hc, Hp. done.
Qed.

(** A frame publishes at most once. *)
Lemma frame_publishes_at_most_once st :
  coherent st →
  (length (published (step st Frame)) ≤ S (length (published st)))%nat.
Proof.
  intros [[_ Hq]|[_ Hq]]; simpl; rewrite Hq; simpl; [|lia].
  rewrite length_app. simpl. lia.
Qed.

(** C2.  However the ticker got to its present state, a burst of one or
    more scroll events (those to the positions [ys], then one to [y])
    followed by a frame makes exactly one computation: one publication is
    added, and it carries the position of the last event.  No frame ever
    publishes more than once. *)
Theorem frame_coalescing (hasHeroContent : bool) (y0 h0 : float)
    (history : list event) (ys : list float) (y : float) :
  let st := run (initScrollLinked false hasHeroContent y0 h0) history in
  let st' := run st ((Scroll <$> ys) ++ [Scroll y] ++ [Frame]) in
  published st'
  = published st
      ++ [{| scroll_y := y;
             hero := heroStyle hasHeroContent y (innerHeight st) |}]
  ∧ ticking st' = false ∧ frameQueue st' = 0%nat
  ∧ (length (published (step st Frame)) ≤ S (length (published st)))%nat.
Proof.
  intros st st'.
  destruct (run_invariants (initScrollLinked false hasHeroContent y0 h0)
              history) as (Hc & Hl & Hh); [by right|].
  fold st in Hc, Hl, Hh. simpl in Hl, Hh.
  assert (Hmost := frame_publishes_at_most_once st Hc).
  destruct (scroll_burst st ys y Hc Hl) as (Ht & Hq & Hy & Hi & Hhc & Hp).
  cbv zeta in *.
  set (s := run st ((Scroll <$> ys) ++ [Scroll y])) in *.
  assert (E : st' = step s Frame).
  { subst st' s. rewrite app_assoc. unfold run. by rewrite foldl_app. }
  rewrite E. simpl. rewrite Hq. simpl. rewrite Hp, Hy, Hi, Hhc, Hh. done.
Qed.

(** ** The hero's opacity *)












End TickerProperties.

(* ===================================================================== *)
(** * Degraded mode                                                       *)
(* ===================================================================== *)

Section PageProperties.

Lemma reveal_checkFallback_detached geometry h st :
  Reveal.listening st = false →
  Reveal.listening (Reveal.checkFallback geometry h st) = false.
Proof.
  intros Hl. unfold Reveal.checkFallback. simpl.
  destruct (checkLoop_same_flags geometry h
              (length (Reveal.pending st)) st) as (E & _ & _).
  destruct (Reveal.pending (Reveal.checkLoop _ _ _ _)); simpl;
    [done | congruence].
Qed.

Lemma reveal_step_detached st ev :
  Reveal.listening st = false → Reveal.listening (Reveal.step st ev) = false.
Proof.
  intros Hl. destruct ev as [entries| |geometry h]; simpl.
  - by destruct (observerCallback_keeps_fallback entries st) as (_ & -> & _).
  - by rewrite Hl.
  - assert (H : Reveal.listening (Reveal.clearFrameQueue st) = false) by done.
    revert H. generalize (Reveal.clearFrameQueue st).
    induction (Reveal.frameQueue st) as [|k IH]; intros s Hs; simpl; [done|].
    by apply reveal_checkFallback_detached, IH.
Qed.

Lemma page_step_invariants st ev :
  Reveal.visible (Page.reveal st)
    ⊆ Reveal.visible (Page.reveal (Page.step st ev))
  ∧ (Reveal.listening (Page.reveal st) = false →
     Reveal.listening (Page.reveal (Page.step st ev)) = false)
  ∧ Ticker.listening (Page.ticker (Page.step st ev))
    = Ticker.listening (Page.ticker st).
Proof.
  destruct ev; unfold Page.step; cbn [Page.reveal Page.ticker];
    (split; [|split]);
    first [ done | apply step_visible_mono | apply reveal_step_detached
          | apply step_keeps_listening ].
Qed.

Lemma page_run_invariants st evs :
  Reveal.visible (Page.reveal st)
    ⊆ Reveal.visible (Page.reveal (Page.run st evs))
  ∧ (Reveal.listening (Page.reveal st) = false →
     Reveal.listening (Page.reveal (Page.run st evs)) = false)
  ∧ Ticker.listening (Page.ticker (Page.run st evs))
    = Ticker.listening (Page.ticker st).
Proof.
  revert st. induction evs as [|ev evs IH]; intros st; [done|].
  change (Page.run st (ev :: evs)) with (Page.run (Page.step st ev) evs).
  destruct (IH (Page.step st ev)) as (Hv & Hl & Ht).
  destruct (page_step_invariants st ev) as (Hv' & Hl' & Ht').
  split; [|split].
  - etrans; [exact Hv' | exact Hv].
  - intros H. by apply Hl, Hl'.
  - by rewrite Ht.
Qed.

Lemma degraded_init_visible hasObserver reduced vis0 els el :
  negb hasObserver || reduced = true → el ∈ els →
  el ∈ Reveal.visible (Reveal.initScrollReveals hasObserver reduced vis0 els).
Proof.
  intros Hd Hin. unfold Reveal.initScrollReveals.
  destruct els as [|x xs]; [by apply elem_of_nil in Hin|].
  rewrite Hd. simpl. apply elem_of_union_r.
  rewrite <- list_to_set_cons. by apply elem_of_list_to_set.
Qed.

Lemma degraded_init_detached hasObserver reduced vis0 els :
  negb hasObserver || reduced = true →
  Reveal.listening (Reveal.initScrollReveals hasObserver reduced vis0 els)
  = false.
Proof.
  intros Hd. unfold Reveal.initScrollReveals.
  destruct els as [|x xs]; [done|]. by rewrite Hd.
Qed.

(** C7, as the code has it.  With reduced motion requested every
    revealable target is visible from initialisation on and neither the
    reveal engine nor the ticker ever has a scroll listener.  With the
    observation primitive missing the same holds for the reveal engine;
    the ticker does not look at that capability, and attaches its scroll
    listener whenever reduced motion is not requested. *)
Theorem degraded_mode_totality (c : Page.capabilities)
    (vis0 : gset Reveal.elem) (els : list Reveal.elem)
    (hasHeroContent : bool) (y0 h0 : float) (evs : list Page.event) :
  let st := Page.run (Page.init c vis0 els hasHeroContent y0 h0) evs in
  (Page.prefersReducedMotion c = true →
     (∀ el, el ∈ els → el ∈ Reveal.visible (Page.reveal st))
     ∧ Page.scrollListenerAttached st = false)
  ∧ (Page.hasObserver c = false →
     (∀ el, el ∈ els → el ∈ Reveal.visible (Page.reveal st))
     ∧ Reveal.listening (Page.reveal st) = false)
  ∧ (Page.prefersReducedMotion c = false →
     Ticker.listening (Page.ticker st) = true).
Proof.
  intros st.
  destruct (page_run_invariants (Page.init c vis0 els hasHeroContent y0 h0)
              evs) as (Hv & Hl & Ht).
  fold st in Hv, Hl, Ht. simpl in Hv, Hl, Ht.
  assert (Hdeg : negb (Page.hasObserver c) || Page.prefersReducedMotion c
                 = true →
                 (∀ el, el ∈ els → el ∈ Reveal.visible (Page.reveal st))
                 ∧ Reveal.listening (Page.reveal st) = false).
  { intros Hd. split.
    - intros el Hin. apply Hv. by apply degraded_init_visible.
    - apply Hl. by apply degraded_init_detached. }
  split; [|split].
  - intros Hr. destruct Hdeg as [Hvis Hdet].
    { rewrite Hr. apply orb_true_r. }
    split; [exact Hvis|].
    unfold Page.scrollListenerAttached. rewrite Hdet, Ht, Hr. done.
  - intros Ho. apply Hdeg. by rewrite Ho.
  - intros Hr. rewrite Ht, Hr. done.
Qed.

(** Reduced motion on a page with two targets, scrolled once. *)
Lemma degraded_mode_totality_witness :
  let c := {| Page.hasObserver := true; Page.prefersReducedMotion := true |} in
  let st := Page.run (Page.init c ∅ [0%nat; 1%nat] true 0%float 800%float)
              [Page.Scroll 120%float;
               Page.Frame (λ _, {| Reveal.top := 10; Reveal.bottom := 20 |})
                 800] in
  Page.prefersReducedMotion c = true
  ∧ Page.scrollListenerAttached st = false.
Proof.
  split; [reflexivity|].
  pose proof (degraded_mode_totality
           {| Page.hasObserver := true; Page.prefersReducedMotion := true |}
           ∅ [0%nat; 1%nat] true 0%float 800%float
           [Page.Scroll 120%float;
            Page.Frame (λ _, {| Reveal.top := 10; Reveal.bottom := 20 |})
              800]) as H.
  cbv zeta in H. destruct H as [H _]. apply H. reflexivity.
Defined.

(** C7 as stated fails on its second alternative: without the observation
    primitive, and with no reduced motion requested, the targets are all
    visible but initialisation attaches the ticker's scroll listener. *)
Lemma degraded_without_observer_ticker_listens :
  let c := {| Page.hasObserver := false;
              Page.prefersReducedMotion := false |} in
  let st := Page.init c ∅ [0%nat; 1%nat] true 0%float 800%float in
  Reveal.listening (Page.reveal st) = false
  ∧ Ticker.listening (Page.ticker st) = true
  ∧ Page.scrollListenerAttached st = true.
Proof. repeat split. Qed.

End PageProperties.

(* ===================================================================== *)
(** * Properties of the conversational form                               *)
(* ===================================================================== *)

Section ConvoProperties.

Import Convo.
Local Open Scope N_scope.

(** ** Strings *)

Lemma trimStart_head s c :
  head (trimStart s) = Some c → isWhiteSpace c = false.
Proof.
  induction s as [|d s IH]; simpl; [done|].
  destruct (isWhiteSpace d) eqn:E; [exact IH|].
  simpl. congruence.
Qed.

Lemma trimStart_suffix s : ∃ p, s = p ++ trimStart s.
Proof.
  induction s as [|d s [p IH]]; simpl; [by exists []|].
  destruct (isWhiteSpace d).
  - exists (d :: p). simpl. congruence.
  - by exists [].
Qed.

Lemma trimStart_blank s : forallb isWhiteSpace s = true → trimStart s = [].
Proof.
  induction s as [|d s IH]; simpl; [done|].
  intros H. apply andb_true_iff in H as [-> H]. by apply IH.
Qed.

Lemma trim_blank s : forallb isWhiteSpace s = true → trim s = [].
Proof. intros H. unfold trim. by rewrite (trimStart_blank s H). Qed.

Lemma trim_trimmed s : trimmed (trim s).
Proof.
  unfold trim, trimmed.
  set (u := trimStart s). set (t := trimStart (reverse u)).
  split; intros c Hc.
  - rewrite head_reverse in Hc.
    destruct (trimStart_suffix (reverse u)) as [p Hp]. fold t in Hp.
    apply (trimStart_head s). fold u.
    rewrite <- last_reverse, Hp, last_app, Hc. done.
  - rewrite last_reverse in Hc. by apply (trimStart_head (reverse u)).
Qed.

Lemma indexOfFrom_found i c s :
  (0 <= i)%Z → indexOfFrom i c s ≠ (-1)%Z → c ∈ s.
Proof.
  revert i. induction s as [|d s IH]; intros i Hi; simpl; [done|].
  destruct (d =? c) eqn:E.
  - apply N.eqb_eq in E as ->. intros _. left.
  - intros H. right. apply (IH (i + 1)%Z); [lia | exact H].
Qed.

Lemma indexOfFrom_missing i c s : c ∉ s → indexOfFrom i c s = (-1)%Z.
Proof.
  revert i. induction s as [|d s IH]; intros i Hc; simpl; [done|].
  destruct (d =? c) eqn:E.
  - apply N.eqb_eq in E as ->. exfalso. apply Hc. left.
  - apply IH. intros H. apply Hc. by right.
Qed.

Lemma indexOfFrom_present i c s : c ∈ s → (i <= indexOfFrom i c s)%Z.
Proof.
  revert i. induction s as [|d s IH]; intros i Hin.
  - by apply elem_of_nil in Hin.
  - simpl. destruct (d =? c) eqn:E; [lia|].
    apply elem_of_cons in Hin as [->|Hin].
    + rewrite N.eqb_refl in E. discriminate.
    + specialize (IH (i + 1)%Z Hin). lia.
Qed.

Lemma indexOf_spec s c : indexOf s c = (-1)%Z ↔ c ∉ s.
Proof.
  split.
  - intros H Hin. pose proof (indexOfFrom_present 0%Z c s Hin) as Hp.
    unfold indexOf in H. lia.
  - apply indexOfFrom_missing.
Qed.


Lemma validDetails_spec st :
  validDetails st = true
  ↔ trim (nameValue st) ≠ [] ∧ atSign ∈ trim (emailValue st).
Proof.
  unfold validDetails. rewrite andb_true_iff, !negb_true_iff, orb_false_iff.
  rewrite Z.eqb_neq. split.
  - intros (Hn & He & Hi). split.
    + intros E. by rewrite E in Hn.
    + apply (indexOfFrom_found 0%Z); [lia | exact Hi].
  - intros (Hn & He). split; [|split].
    + by destruct (trim (nameValue st)).
    + destruct (trim (emailValue st)); [by apply elem_of_nil in He | done].
    + intros Hi. by apply indexOf_spec in Hi.
Qed.

(** ** The send handler *)

Lemma onSendClick_refused st :
  validDetails st = false →
  onSendClick st
  = if falsy (trim (nameValue st)) then refuseName st else refuseEmail st.
Proof.
  unfold validDetails, onSendClick. intros H.
  destruct (falsy (trim (nameValue st))); [done|].
  simpl in H. apply negb_false_iff in H. by rewrite H.
Qed.

Lemma onSendClick_accepted st :
  validDetails st = true →
  onSendClick st
  = match composeMailto (committed st) with
    | None => setAnswers (committed st) st
    | Some mailtoLink =>
        showTyping 400 (λ id, AfterSend id mailtoLink)
          (addBubble (trim (nameValue st) ++ dashSeparator
                        ++ trim (emailValue st)) User
             (showStep None (setAnswers (committed st) st)))
    end.
Proof.
  unfold validDetails, onSendClick. intros H.
  apply andb_true_iff in H as [Hn He].
  apply negb_true_iff in Hn, He. by rewrite Hn, He.
Qed.

Lemma onSendClick_commits st :
  validDetails st = true → answers (onSendClick st) = committed st.
Proof.
  intros H. rewrite (onSendClick_accepted st H).
  by destruct (composeMailto (committed st)).
Qed.

(** What a refused submission leaves untouched. *)
Lemma refusal_frame st :
  validDetails st = false →
  let st' := onSendClick st in
  answers st' = answers st ∧ chat st' = chat st
  ∧ active st' = active st ∧ stepsHidden st' = stepsHidden st
  ∧ formActive st' = formActive st ∧ timers st' = timers st
  ∧ successPanels st' = successPanels st
  ∧ navigations st' = navigations st.
Proof.
  intros H. cbv zeta. rewrite (onSendClick_refused st H).
  by destruct (falsy (trim (nameValue st))).
Qed.

Lemma refusal_same_step st :
  validDetails st = false →
  atDetails (onSendClick st) = atDetails st
  ∧ atSuccess (onSendClick st) = atSuccess st
  ∧ transcript (onSendClick st) = transcript st.
Proof.
  intros H.
  destruct (refusal_frame st H) as (Ha & Hc & Hac & Hh & Hf & Ht & Hs & Hn).
  unfold atDetails, displayed, atSuccess, transcript.
  by rewrite Hc, Hac, Hh, Hf, Ht, Hs, Hn.
Qed.

Lemma refusal_repeats st :
  validDetails st = false →
  onSendClick (onSendClick st) = onSendClick st.
Proof.
  intros H. rewrite (onSendClick_refused st H).
  destruct (falsy (trim (nameValue st))) eqn:E.
  - rewrite onSendClick_refused.
    + change (nameValue (refuseName st)) with (nameValue st). by rewrite E.
    + exact H.
  - rewrite onSendClick_refused.
    + change (nameValue (refuseEmail st)) with (nameValue st). by rewrite E.
    + exact H.
Qed.

Lemma refusal_iterates st n :
  validDetails st = false →
  Nat.iter (S n) onSendClick st = onSendClick st.
Proof.
  intros H. induction n as [|n IH]; [done|].
  change (Nat.iter (S (S n)) onSendClick st)
    with (onSendClick (Nat.iter (S n) onSendClick st)).
  rewrite IH. by apply refusal_repeats.
Qed.

(** C8.  When the submission of the details fails validation (the
    trimmed name is empty, or the trimmed email has no '@') nothing is
    committed: the answers, the transcript, the displayed step, the
    pending timers and the outbound navigations are what they were; the
    first offending field alone is flagged and focused.  Failing again any
    number of times changes nothing more, and a later submission with
    valid values is accepted. *)
Theorem send_refusal_atomic (st : state) :
  trim (nameValue st) = [] ∨ atSign ∉ trim (emailValue st) →
  let st' := onSendClick st in
  st' = (if falsy (trim (nameValue st)) then refuseName st
         else refuseEmail st)
  ∧ answers st' = answers st
  ∧ chat st' = chat st
  ∧ transcript st' = transcript st
  ∧ active st' = active st
  ∧ atDetails st' = atDetails st
  ∧ atSuccess st' = atSuccess st
  ∧ timers st' = timers st
  ∧ navigations st' = navigations st
  ∧ (if falsy (trim (nameValue st))
     then nameFlagged st' = true ∧ focused st' = Some NameInput
          ∧ emailFlagged st' = emailFlagged st
     else emailFlagged st' = true ∧ focused st' = Some EmailInput
          ∧ nameFlagged st' = nameFlagged st)
  ∧ (∀ n, Nat.iter (S n) onSendClick st = st')
  ∧ (∀ nm em nt,
       let retry := setNoteValue nt (setEmailValue em (setNameValue nm st')) in
       validDetails retry = true →
       answers (onSendClick retry) = committed retry).
Proof.
  intros Hbad st'.
  assert (Hv : validDetails st = false).
  { destruct (validDetails st) eqn:E; [|done].
    apply validDetails_spec in E as [Hn He]. by destruct Hbad. }
  assert (E : st' = if falsy (trim (nameValue st)) then refuseName st
                    else refuseEmail st)
    by (by apply onSendClick_refused).
  split; [exact E|].
  repeat split; try (rewrite E; by destruct (falsy (trim (nameValue st)))).
  - intros n. by apply refusal_iterates.
  - intros nm em nt retry Hr. by apply onSendClick_commits.
Qed.

(** The example of the specification: an empty name with "a@b.com". *)
Lemma send_refusal_atomic_witness :
  let st := setEmailValue (lit "a@b.com")
              (setActive (Some Step3) (setFormActive true initConvoForm)) in
  (trim (nameValue st) = [] ∨ atSign ∉ trim (emailValue st))
  ∧ atDetails (onSendClick st) = true
  ∧ answers (onSendClick st) = noAnswers.
Proof.
  split; [left; reflexivity|].
  pose proof (send_refusal_atomic
                (setEmailValue (lit "a@b.com")
                   (setActive (Some Step3)
                      (setFormActive true initConvoForm)))
                (or_introl eq_refl)) as H.
  cbv zeta in H. destruct H as (_ & Ha & _ & _ & _ & Hd & _).
  split; [by rewrite Hd | by rewrite Ha].
Defined.

(** C10.  The send handler works on the trimmed values.  A name, or an
    email, made of white space only is refused exactly as the empty
    string is.  When the submission is accepted the committed name, email
    and note are the trimmed field values, with no white space at either
    end, and the subject, the body and the timer that carries the link
    are built from these trimmed values. *)
Theorem send_trims_fields (st : state) :
  (forallb isWhiteSpace (nameValue st) = true →
     onSendClick st
     = setNameValue (nameValue st) (onSendClick (setNameValue [] st))
     ∧ onSendClick st = refuseName st)
  ∧ (forallb isWhiteSpace (emailValue st) = true →
     onSendClick st
     = setEmailValue (emailValue st) (onSendClick (setEmailValue [] st))
     ∧ validDetails st = false)
  ∧ (validDetails st = true →
     let a := answers (onSendClick st) in
     name a = trim (nameValue st)
     ∧ email a = trim (emailValue st)
     ∧ note a = trim (noteValue st)
     ∧ trimmed (name a) ∧ trimmed (email a) ∧ trimmed (note a)
     ∧ composeSubject a
       = lit "New inquiry from " ++ trim (nameValue st) ++ dashSeparator
           ++ work (answers st)
     ∧ composeBody a
       = lit "Hi Azlan," ++ newline ++ newline
           ++ lit "Name: " ++ trim (nameValue st) ++ newline
           ++ lit "Email: " ++ trim (emailValue st) ++ newline
           ++ lit "Looking for: " ++ work (answers st) ++ newline
           ++ lit "Found you via: " ++ source (answers st) ++ newline
           ++ (if falsy (trim (noteValue st)) then []
               else lit "Note: " ++ trim (noteValue st) ++ newline)
           ++ newline ++ lit "Sent from your portfolio site."
     ∧ (∀ mailtoLink, composeMailto a = Some mailtoLink →
          timers (onSendClick st)
          = timers st ++ [{| due := (now st + 400)%nat;
                             task := AfterSend (nextNode st) mailtoLink |}]
          ∧ transcript (onSendClick st)
            = transcript st
                ++ [(User, trim (nameValue st) ++ dashSeparator
                             ++ trim (emailValue st))])).
Proof.
  split; [|split].
  - intros Hb. unfold onSendClick. simpl.
    rewrite (trim_blank _ Hb). done.
  - intros Hb. split.
    + unfold onSendClick. simpl. rewrite (trim_blank _ Hb).
      change (trim []) with (@nil N).
      by destruct (falsy (trim (nameValue st))).
    + unfold validDetails. rewrite (trim_blank _ Hb). simpl.
      apply andb_false_r.
  - intros Hv a. subst a. rewrite (onSendClick_commits st Hv).
    repeat split; try apply trim_trimmed.
    + rewrite (onSendClick_accepted st Hv), H. done.
    + rewrite (onSendClick_accepted st Hv), H. unfold transcript. simpl.
      rewrite !omap_app. simpl. by rewrite app_nil_r.
Qed.

(** A name of three spaces is refused; " Ana " is committed as "Ana". *)
Lemma send_trims_fields_witness :
  let blank := setNameValue (lit "   ") initConvoForm in
  let padded := setEmailValue (lit " ana@x.com ")
                  (setNameValue (lit " Ana ") initConvoForm) in
  forallb isWhiteSpace (nameValue blank) = true
  ∧ onSendClick blank = refuseName blank
  ∧ validDetails padded = true
  ∧ name (answers (onSendClick padded)) = trim (lit " Ana ").
Proof.
  split; [reflexivity|]. split.
  - destruct (send_trims_fields (setNameValue (lit "   ") initConvoForm))
      as [H _]. by apply H.
  - split; [reflexivity|].
    destruct (send_trims_fields
                (setEmailValue (lit " ana@x.com ")
                   (setNameValue (lit " Ana ") initConvoForm)))
      as (_ & _ & H).
    by destruct (H eq_refl) as [Hn _].
Defined.

(** ** The invariant of the form *)

Section FormInvariant.

Variable pills : list jsstring.

(** The invariant reads five fields only. *)
Lemma formInvariant_ext st st' :
  active st' = active st → answers st' = answers st →
  timers st' = timers st → successPanels st' = successPanels st →
  navigations st' = navigations st →
  formInvariant pills st → formInvariant pills st'.
Proof.
  unfold formInvariant. intros -> -> -> -> ->. done.
Qed.

Lemma callbackNeeds_mono k a a' :
  (hasWork a → hasWork a') → (hasSource pills a → hasSource pills a') →
  (hasContact a → hasContact a') →
  callbackNeeds pills k a → callbackNeeds pills k a'.
Proof. destruct k; simpl; tauto. Qed.

Lemma stepNeeds_mono s a a' :
  (hasWork a → hasWork a') → (hasSource pills a → hasSource pills a') →
  stepNeeds pills s a → stepNeeds pills s a'.
Proof. destruct s as [[| |]|]; simpl; tauto. Qed.

Lemma inv_setAnswers st a' :
  (hasWork (answers st) → hasWork a') →
  (hasSource pills (answers st) → hasSource pills a') →
  (hasContact (answers st) → hasContact a') →
  formInvariant pills st → formInvariant pills (setAnswers a' st).
Proof.
  intros Hw Hs Hc (H1 & H2 & H3). unfold formInvariant. simpl.
  split; [|split].
  - by apply (stepNeeds_mono _ (answers st)).
  - eapply Forall_impl; [exact H2|].
    intros t. by apply callbackNeeds_mono.
  - intros H. by apply Hc, H3.
Qed.

Lemma inv_showStep st target :
  stepNeeds pills target (answers st) →
  formInvariant pills st → formInvariant pills (showStep target st).
Proof. intros Hn (H1 & H2 & H3). unfold formInvariant. simpl. done. Qed.

Lemma inv_addTimer st t :
  callbackNeeds pills (task t) (answers st) →
  formInvariant pills st →
  formInvariant pills (setTimers (timers st ++ [t]) st).
Proof.
  intros Hn (H1 & H2 & H3). unfold formInvariant. simpl.
  split; [done|]. split; [|done].
  apply Forall_app. split; [done|]. by apply Forall_singleton.
Qed.

Lemma inv_showTyping st delay k :
  (∀ id, callbackNeeds pills (k id) (answers st)) →
  formInvariant pills st → formInvariant pills (showTyping delay k st).
Proof.
  intros Hn H. unfold showTyping.
  set (s1 := setNextNode _ _).
  assert (H1 : formInvariant pills s1) by (by apply (formInvariant_ext st)).
  apply (inv_addTimer s1 {| due := (now st + delay)%nat;
                            task := k (nextNode st) |}); [|exact H1].
  apply Hn.
Qed.

Lemma displayed_active s st : displayed s st = true → active st = Some s.
Proof.
  unfold displayed. rewrite !andb_true_iff. intros [[H _] _].
  by apply bool_decide_eq_true in H.
Qed.

Lemma inv_onStartClick st :
  formInvariant pills st → formInvariant pills (onStartClick st).
Proof.
  intros H. unfold onStartClick. apply inv_showTyping; [done|].
  by apply (formInvariant_ext st).
Qed.

Lemma inv_onStep1Next st :
  formInvariant pills st → formInvariant pills (onStep1Next st).
Proof.
  intros H. unfold onStep1Next.
  destruct (falsy (workValue st)) eqn:E.
  { by apply (formInvariant_ext st). }
  assert (Hw : workValue st ≠ []) by (by destruct (workValue st)).
  apply inv_showTyping; [intros id; exact Hw|].
  apply inv_showStep; [done|].
  apply (formInvariant_ext (setAnswers
           {| work := workValue st; source := source (answers st);
              name := name (answers st); email := email (answers st);
              note := note (answers st) |} st)); try done.
  by apply inv_setAnswers.
Qed.

(** The pill handler stores the pill's value as it is. *)
Lemma inv_onPillClick st v :
  v ∈ pills → hasWork (answers st) →
  formInvariant pills st → formInvariant pills (onPillClick v st).
Proof.
  intros Hv Hw H. unfold onPillClick.
  apply inv_showTyping; [intros id; by split|].
  apply inv_showStep; [done|].
  apply (formInvariant_ext (setAnswers
           {| work := work (answers st); source := v;
              name := name (answers st); email := email (answers st);
              note := note (answers st) |} st)); try done.
  by apply inv_setAnswers.
Qed.

Lemma committed_hasContact st :
  validDetails st = true → hasContact (committed st).
Proof. intros H. by apply validDetails_spec in H. Qed.

Lemma inv_onSendClick st :
  formInvariant pills st → formInvariant pills (onSendClick st).
Proof.
  intros H. destruct (validDetails st) eqn:Hv.
  - assert (Hc : formInvariant pills (setAnswers (committed st) st)).
    { apply inv_setAnswers; try done.
      intros _. by apply committed_hasContact. }
    rewrite (onSendClick_accepted st Hv).
    destruct (composeMailto (committed st)) as [mailtoLink|]; [|exact Hc].
    apply inv_showTyping; [intros id; by apply committed_hasContact|].
    apply (formInvariant_ext (showStep None (setAnswers (committed st) st)));
      try done.
    by apply inv_showStep.
  - rewrite (onSendClick_refused st Hv).
    destruct (falsy (trim (nameValue st))); by apply (formInvariant_ext st).
Qed.

Lemma fire_answers st k : answers (fire st k) = answers st.
Proof.
  destruct k; simpl; try done. by destruct (displayed Step3 st).
Qed.

Lemma inv_fire st k :
  callbackNeeds pills k (answers st) →
  formInvariant pills st → formInvariant pills (fire st k).
Proof.
  intros Hn H. destruct k as [id|id|id| |id mailtoLink]; simpl in *.
  - apply inv_showStep; [done|]. by apply (formInvariant_ext st).
  - apply inv_showStep; [done|]. by apply (formInvariant_ext st).
  - unfold setTimeout.
    set (s1 := showStep (Some Step3) _).
    apply (inv_addTimer s1 {| due := (now s1 + 100)%nat; task := FocusName |});
      [done|].
    apply inv_showStep; [done|]. by apply (formInvariant_ext st).
  - destruct (displayed Step3 st); [|done]. by apply (formInvariant_ext st).
  - destruct H as (H1 & H2 & H3). unfold formInvariant. simpl. done.
Qed.

Lemma inv_foldl_fire ks st :
  Forall (λ k, callbackNeeds pills k (answers st)) ks →
  formInvariant pills st → formInvariant pills (foldl fire st ks).
Proof.
  revert st. induction ks as [|k ks IH]; intros st Hn H; [done|].
  apply Forall_cons in Hn as [Hk Hks]. simpl.
  apply IH; [by rewrite fire_answers | by apply inv_fire].
Qed.

Lemma inv_tick st : formInvariant pills st → formInvariant pills (tick st).
Proof.
  intros (H1 & H2 & H3). unfold tick.
  apply inv_foldl_fire.
  - simpl. apply Forall_fmap.
    apply Forall_forall. intros t Ht.
    apply list_elem_of_filter in Ht as [_ Ht].
    rewrite Forall_forall in H2. by apply H2.
  - unfold formInvariant. simpl. split; [done|]. split; [|done].
    apply Forall_forall. intros t Ht.
    apply list_elem_of_filter in Ht as [_ Ht].
    rewrite Forall_forall in H2. by apply H2.
Qed.

Lemma inv_dispatch st ev :
  formInvariant pills st → formInvariant pills (dispatch pills st ev).
Proof.
  intros H. destruct ev as [|v| |i|v|v|v| |shiftKey|]; simpl.
  - by apply inv_onStartClick.
  - destruct (displayed Step1 st); [|done]. by apply (formInvariant_ext st).
  - destruct (displayed Step1 st); [|done]. by apply inv_onStep1Next.
  - destruct (displayed Step2 st) eqn:Hd; [|done].
    destruct (_ !! i) as [v|] eqn:Hv; [|done].
    apply inv_onPillClick; [| |exact H].
    + apply list_elem_of_lookup. by exists i.
    + destruct H as (H1 & _). apply displayed_active in Hd.
      by rewrite Hd in H1.
  - destruct (displayed Step3 st); [|done]. by apply (formInvariant_ext st).
  - destruct (displayed Step3 st); [|done]. by apply (formInvariant_ext st).
  - destruct (displayed Step3 st); [|done]. by apply (formInvariant_ext st).
  - destruct (displayed Step3 st); [|done]. by apply inv_onSendClick.
  - destruct (displayed Step3 st && negb shiftKey); [|done].
    by apply inv_onSendClick.
  - by apply inv_tick.
Qed.

Lemma inv_run st evs :
  formInvariant pills st → formInvariant pills (run pills st evs).
Proof.
  revert st. induction evs as [|ev evs IH]; intros st H; [done|].
  simpl. by apply IH, inv_dispatch.
Qed.

Lemma inv_init : formInvariant pills initConvoForm.
Proof.
  unfold formInvariant. simpl. split; [done|]. split; [done|].
  by intros [H|H].
Qed.

Lemma atSuccess_hasContact st :
  formInvariant pills st → atSuccess st = true → hasContact (answers st).
Proof.
  intros (H1 & H2 & H3). unfold atSuccess.
  rewrite !orb_true_iff, !negb_true_iff, !bool_decide_eq_false.
  intros [[He|Hs]|Hn]; [|by apply H3; left|by apply H3; right].
  apply existsb_exists in He as (t & Ht & Hk).
  rewrite Forall_forall in H2. apply list_elem_of_In in Ht.
  specialize (H2 t Ht). unfold isAfterSend in Hk.
  by destruct (task t).
Qed.

End FormInvariant.

(** C3.  Whatever the markup's source pills are, whatever the user does
    from the idle form (clicks, selections, typing, the Enter key) and
    however time passes: the Details step is displayed only with a
    non-empty work answer and with a source answer that is the value of
    one of the pills, so with a non-empty source answer provided every
    pill carries a non-empty value; and Success is reached only with a
    non-empty name and an email that contains '@'.  In particular, at
    Details, sending with an empty name and the email "a@b.com" is
    refused: the session stays at Details, does not reach Success, and
    commits nothing. *)
Theorem form_linearity (pills : list jsstring) (evs : list event) :
  let st := run pills initConvoForm evs in
  (atDetails st = true →
     work (answers st) ≠ [] ∧ source (answers st) ∈ pills)
  ∧ (Forall (λ v, v ≠ []) pills → atDetails st = true →
       work (answers st) ≠ [] ∧ source (answers st) ≠ [])
  ∧ (atSuccess st = true →
     name (answers st) ≠ [] ∧ atSign ∈ email (answers st))
  ∧ (∀ s, atDetails s = true → nameValue s = [] →
          emailValue s = lit "a@b.com" →
          let s' := dispatch pills s ClickSend in
          atDetails s' = true ∧ atSuccess s' = atSuccess s
          ∧ answers s' = answers s ∧ transcript s' = transcript s).
Proof.
  intros st.
  assert (H : formInvariant pills st) by (by apply inv_run, inv_init).
  assert (Hdetails : atDetails st = true →
            work (answers st) ≠ [] ∧ source (answers st) ∈ pills).
  { intros Hd. apply displayed_active in Hd.
    destruct H as (H1 & _). by rewrite Hd in H1. }
  split; [exact Hdetails|]. split; [|split].
  - intros Hp Hd. destruct (Hdetails Hd) as [Hw Hs]. split; [done|].
    rewrite Forall_forall in Hp. by apply Hp.
  - by apply (atSuccess_hasContact pills).
  - intros s Hd Hn He s'. subst s'.
    change (dispatch pills s ClickSend)
      with (if displayed Step3 s then onSendClick s else s).
    change (displayed Step3 s) with (atDetails s). rewrite Hd.
    assert (Hv : validDetails s = false).
    { unfold validDetails. by rewrite Hn. }
    destruct (refusal_frame s Hv) as (Ha & _).
    destruct (refusal_same_step s Hv) as (Hd' & Hs & Ht).
    by rewrite Hd', Hs, Ha, Ht.
Qed.

(** One pill valued "Referral": the user reaches Details. *)
Lemma form_linearity_witness :
  let pills := [lit "Referral"] in
  let evs := inquiryOpening ++ [ClickPill 0] ++ wait 500 in
  let st := run pills initConvoForm evs in
  Forall (λ v, v ≠ []) pills
  ∧ atDetails st = true
  ∧ work (answers st) ≠ [] ∧ source (answers st) ≠ [].
Proof.
  assert (Hp : Forall (λ v : jsstring, v ≠ []) [lit "Referral"])
    by (by apply Forall_singleton).
  split; [exact Hp|]. split; [vm_compute; reflexivity|].
  pose proof (form_linearity [lit "Referral"]
                (inquiryOpening ++ [ClickPill 0] ++ wait 500)) as H.
  cbv zeta in H. destruct H as (_ & H & _). apply H; [exact Hp|].
  vm_compute. reflexivity.
Defined.

(** A pill whose [data-value] is empty: the user picks "Design", clicks
    the pill, and is at Details with a non-empty work answer and an empty
    source answer. *)
Lemma form_linearity_empty_pill :
  let pills := [[]] in
  let evs := inquiryOpening ++ [ClickPill 0] ++ wait 500 in
  let st := run pills initConvoForm evs in
  atDetails st = true
  ∧ work (answers st) = lit "Design"
  ∧ source (answers st) = [].
Proof.
  intros pills evs st. subst st.
  let final := eval vm_compute in (run pills initConvoForm evs) in
  assert (E : run pills initConvoForm evs = final)
    by (vm_compute; reflexivity);
  rewrite E.
  repeat apply conj; vm_compute; reflexivity.
Qed.

(** ** The worked example *)

Lemma run_app pills st evs1 evs2 :
  run pills st (evs1 ++ evs2) = run pills (run pills st evs1) evs2.
Proof. unfold run. apply foldl_app. Qed.

(** Only a click on a pill looks at the markup's pill values. *)
Lemma run_without_pills pills pills' st evs :
  forallb (λ ev, negb (isPillClick ev)) evs = true →
  run pills st evs = run pills' st evs.
Proof.
  revert st. induction evs as [|ev evs IH]; intros st H; [done|].
  simpl in H. apply andb_true_iff in H as [Hev H].
  simpl. rewrite (IH _ H). f_equal. by destruct ev.
Qed.

Lemma dispatch_pill pills i v st :
  pills !! i = Some v →
  dispatch pills st (ClickPill i) = dispatch [v] st (ClickPill 0).
Proof. intros H. simpl. by rewrite H. Qed.

Lemma run_around pills st evs1 ev evs2 :
  run pills st (evs1 ++ [ev] ++ evs2)
  = run pills (dispatch pills (run pills st evs1) ev) evs2.
Proof. by rewrite !run_app. Qed.

Lemma run_inquiry pills i :
  run pills initConvoForm (inquiry i)
  = run pills
      (dispatch pills (run pills initConvoForm inquiryOpening) (ClickPill i))
      inquiryDetails.
Proof. unfold inquiry. apply run_around. Qed.

Lemma inquiry_any_markup pills i :
  pills !! i = Some (lit "Referral") →
  run pills initConvoForm (inquiry i)
  = run [lit "Referral"] initConvoForm (inquiry 0).
Proof.
  intros H. rewrite (run_inquiry pills i), (run_inquiry [lit "Referral"] 0).
  rewrite (run_without_pills pills [lit "Referral"] initConvoForm
             inquiryOpening) by (vm_compute; reflexivity).
  generalize (run [lit "Referral"] initConvoForm inquiryOpening). intros s.
  rewrite (dispatch_pill pills i _ s H).
  apply run_without_pills. vm_compute. reflexivity.
Qed.

(** The transcript only ever grows at its end. *)
Lemma omap_bubbles_filter id (l : list node) :
  omap (λ n, match n with Bubble a t => Some (a, t) | Typing _ => None end)
    (filter (λ n, n ≠ Typing id) l)
  = omap (λ n, match n with Bubble a t => Some (a, t) | Typing _ => None end)
      l.
Proof.
  induction l as [|n l IH]; [done|].
  destruct n as [who text|id'].
  - rewrite filter_cons_True by done. cbn. by rewrite IH.
  - destruct (decide (id' = id)) as [->|Hne].
    + rewrite filter_cons_False by (intros Hn; by apply Hn). exact IH.
    + rewrite filter_cons_True by congruence. exact IH.
Qed.

Lemma transcript_removeTyping id st :
  transcript (removeTyping id st) = transcript st.
Proof. apply omap_bubbles_filter. Qed.

Lemma transcript_addBubble text who st :
  transcript (addBubble text who st) = transcript st ++ [(who, text)].
Proof. unfold transcript, addBubble. simpl. by rewrite omap_app. Qed.

Lemma transcript_showTyping delay k st :
  transcript (showTyping delay k st) = transcript st.
Proof.
  unfold transcript, showTyping. simpl. rewrite omap_app. simpl.
  apply app_nil_r.
Qed.


Lemma transcript_fire st k : transcript st `prefix_of` transcript (fire st k).
Proof.
  assert (Hbot : ∀ id q, transcript st
            `prefix_of` transcript (addBubble q Bot (removeTyping id st))).
  { intros id q. rewrite transcript_addBubble, transcript_removeTyping.
    by apply prefix_app_r. }
  destruct k as [id|id|id| |id mailtoLink]; unfold fire.
  - exact (Hbot id question1).
  - exact (Hbot id question2).
  - exact (Hbot id question3).
  - by destruct (displayed Step3 st).
  - change (transcript st `prefix_of` transcript (removeTyping id st)).
    by rewrite transcript_removeTyping.
Qed.

Lemma transcript_foldl_fire ks st :
  transcript st `prefix_of` transcript (foldl fire st ks).
Proof.
  revert st. induction ks as [|k ks IH]; intros st; [done|].
  simpl. etrans; [apply (transcript_fire st k) | apply IH].
Qed.

Lemma transcript_onSendClick st :
  transcript st `prefix_of` transcript (onSendClick st).
Proof.
  destruct (validDetails st) eqn:Hv.
  - rewrite (onSendClick_accepted st Hv).
    destruct (composeMailto (committed st)); [|done].
    rewrite transcript_showTyping, transcript_addBubble.
    by apply prefix_app_r.
  - by destruct (refusal_same_step st Hv) as (_ & _ & ->).
Qed.

Lemma transcript_dispatch pills st ev :
  transcript st `prefix_of` transcript (dispatch pills st ev).
Proof.
  destruct ev as [|v| |i|v|v|v| |shiftKey|]; unfold dispatch.
  - unfold onStartClick. by rewrite transcript_showTyping.
  - by destruct (displayed Step1 st).
  - destruct (displayed Step1 st); [|done]. unfold onStep1Next.
    destruct (falsy (workValue st)); [done|].
    rewrite transcript_showTyping.
    match goal with
    | |- _ `prefix_of` transcript (showStep None ?s) =>
        change (transcript (showStep None s)) with (transcript s)
    end.
    rewrite transcript_addBubble. by apply prefix_app_r.
  - destruct (displayed Step2 st); [|done].
    destruct (_ !! i) as [v|]; [|done]. unfold onPillClick.
    rewrite transcript_showTyping.
    match goal with
    | |- _ `prefix_of` transcript (showStep None ?s) =>
        change (transcript (showStep None s)) with (transcript s)
    end.
    rewrite transcript_addBubble. by apply prefix_app_r.
  - by destruct (displayed Step3 st).
  - by destruct (displayed Step3 st).
  - by destruct (displayed Step3 st).
  - destruct (displayed Step3 st); [|done]. apply transcript_onSendClick.
  - destruct (displayed Step3 st && negb shiftKey); [|done].
    apply transcript_onSendClick.
  - unfold tick.
    apply (transcript_foldl_fire _
             (setTimers (filter (λ x, ¬ (due x ≤ S (now st))%nat) (timers st))
                (setNow (S (now st)) st))).
Qed.

Lemma transcript_run pills st evs :
  transcript st `prefix_of` transcript (run pills st evs).
Proof.
  revert st. induction evs as [|ev evs IH]; intros st; [done|].
  simpl. etrans; [apply (transcript_dispatch pills st ev) | apply IH].
Qed.

(** C5.  For the inputs start, work "Design", source "Referral" (the pill
    that carries this value), name "Ana", email "ana@x.com" and an empty
    note, each given once the bot's question has appeared: the transcript
    is bot, user, bot, user, bot, user in that order; exactly one link is
    handed to the mail client, addressed to the fixed recipient, with a
    subject made of the name and the work type and a body whose lines are
    the greeting, the name, the email, "Looking for: Design", "Found you
    via: Referral" and the closing line, with no "Note:" line.  At every
    point of the run the transcript so far is an initial part of the final
    one: turns are only ever added at the end. *)
Theorem inquiry_transcript (pills : list jsstring) (i : nat) :
  pills !! i = Some (lit "Referral") →
  let st := run pills initConvoForm (inquiry i) in
  (∀ evs1 evs2, inquiry i = evs1 ++ evs2 →
     transcript (run pills initConvoForm evs1) `prefix_of` transcript st)
  ∧ transcript st
  = [(Bot, question1); (User, lit "Design");
     (Bot, question2); (User, lit "Referral");
     (Bot, question3);
     (User, lit "Ana" ++ dashSeparator ++ lit "ana@x.com")]
  ∧ alternates Bot (transcript st) = true
  ∧ navigations st = [inquiryLink]
  ∧ successPanels st = [inquiryLink]
  ∧ timers st = []
  ∧ composeMailto (answers st) = Some inquiryLink
  ∧ startsWith (lit "mailto:" ++ recipient ++ lit "?subject=") inquiryLink
    = true
  ∧ composeSubject (answers st)
    = lit "New inquiry from Ana" ++ dashSeparator ++ lit "Design"
  ∧ lines (composeBody (answers st))
    = [lit "Hi Azlan,"; []; lit "Name: Ana"; lit "Email: ana@x.com";
       lit "Looking for: Design"; lit "Found you via: Referral"; [];
       lit "Sent from your portfolio site."]
  ∧ existsb (startsWith (lit "Note:")) (lines (composeBody (answers st)))
    = false.
Proof.
  intros H st. subst st. split.
  { intros evs1 evs2 ->. rewrite run_app. apply transcript_run. }
  rewrite (inquiry_any_markup pills i H).
  let final := eval vm_compute in
                 (run [lit "Referral"] initConvoForm (inquiry 0)) in
  assert (E : run [lit "Referral"] initConvoForm (inquiry 0) = final)
    by (vm_compute; reflexivity);
  rewrite E.
  repeat apply conj; vm_compute; reflexivity.
Qed.

(** A markup with three pills, "Referral" the second. *)
Lemma inquiry_transcript_witness :
  let pills := [lit "Google"; lit "Referral"; lit "Other"] in
  pills !! 1%nat = Some (lit "Referral")
  ∧ navigations (run pills initConvoForm (inquiry 1)) = [inquiryLink].
Proof.
  split; [reflexivity|].
  pose proof (inquiry_transcript [lit "Google"; lit "Referral"; lit "Other"]
                1 eq_refl) as H.
  cbv zeta in H. by destruct H as (_ & _ & _ & H & _).
Defined.

End ConvoProperties.

(* ===================================================================== *)
(** * Further properties of the reveal engine                             *)
(* ===================================================================== *)

Section RevealFallback.

Import Reveal.

(** ** What one fallback check does *)

Lemma delete_keeps_others {A} (l : list A) (i : nat) (x y : A) :
  l !! i = Some y → x ∈ l → x ∈ delete i l ∨ x = y.
Proof.
  intros Hi Hx. apply list_elem_of_lookup in Hx as [j Hj].
  destruct (decide (j = i)) as [->|Hne]; [right; congruence|].
  left. apply list_elem_of_lookup.
  destruct (decide (j < i)%nat) as [Hlt|Hge].
  - exists j. by rewrite list_lookup_delete_lt.
  - exists (pred j). rewrite list_lookup_delete_ge by lia.
    by replace (S (pred j)) with j by lia.
Qed.

(** A pending target leaves the list only by being visible. *)
Lemma checkLoop_keeps_or_shows geometry h n st el :
  el ∈ pending st →
  el ∈ pending (checkLoop geometry h n st)
  ∨ el ∈ visible (checkLoop geometry h n st).
Proof.
  revert st. induction n as [|i IH]; intros st Hin; simpl; [by left|].
  destruct (pending st !! i) as [el0|] eqn:Hi; [|by left].
  destruct (decide (el0 ∈ visible st)) as [Hv|Hv].
  - destruct (delete_keeps_others _ _ _ _ Hi Hin) as [Hd| ->].
    + by apply IH.
    + right. by apply checkLoop_visible_mono.
  - destruct (inView (geometry el0) h).
    + destruct (delete_keeps_others _ _ _ _ Hi Hin) as [Hd| ->].
      * by apply IH.
      * right. apply checkLoop_visible_mono. simpl. set_solver.
    + by apply IH.
Qed.

Lemma checkLoop_pending_subset geometry h n st el :
  el ∈ pending (checkLoop geometry h n st) → el ∈ pending st.
Proof.
  apply (checkLoop_preserves (λ s, el ∈ pending s → el ∈ pending st)).
  - intros s i Hs Hin. apply Hs. simpl in Hin.
    by apply list_elem_of_delete_inv in Hin.
  - intros s x _ Hs. exact Hs.
  - intros s x _ Hs. exact Hs.
  - done.
Qed.

Lemma checkFallback_pending_of_loop geometry h st :
  pending (checkFallback geometry h st)
  = pending (checkLoop geometry h (length (pending st)) st).
Proof.
  unfold checkFallback. simpl.
  destruct (pending (checkLoop geometry h (length (pending st)) st)) eqn:E;
    simpl; by rewrite E.
Qed.

(** The fallback marks a target only if the target is in view. *)
Lemma checkLoop_marks_in_view geometry h n st el :
  (marks el st < marks el (checkLoop geometry h n st))%nat →
  inView (geometry el) h = true.
Proof.
  revert st. induction n as [|i IH]; intros st Hlt; simpl in Hlt; [lia|].
  destruct (pending st !! i) as [el0|]; [|lia].
  destruct (decide (el0 ∈ visible st)) as [Hv|Hv].
  - by apply (IH (splice i st)).
  - destruct (inView (geometry el0) h) eqn:Hview.
    + destruct (decide (el0 = el)) as [->|Hne]; [done|].
      apply (IH (splice i (resolve el0
                             (emit (GetBoundingClientRect el0) st)))).
      change (marks el (splice i (resolve el0
                (emit (GetBoundingClientRect el0) st))))
        with (marks el (resolve el0 (emit (GetBoundingClientRect el0) st))).
      rewrite marks_resolve, marks_emit_rect.
      rewrite decide_False by done. lia.
    + apply (IH (emit (GetBoundingClientRect el0) st)).
      by rewrite marks_emit_rect.
Qed.

(** X1.  One fallback check is sound and complete for the targets it
    tracks.  A pending target whose box meets the viewport is visible
    afterwards; a target that is still pending afterwards is hidden and
    out of view, and was pending before; and the check marks no target
    that is out of view. *)
Theorem fallback_check_contract (geometry : elem → rect) (h : Z)
    (st : state) (el : elem) :
  let st' := checkFallback geometry h st in
  (el ∈ pending st → inView (geometry el) h = true → el ∈ visible st')
  ∧ (el ∈ pending st' →
       el ∈ pending st ∧ (el ∉ visible st')
       ∧ inView (geometry el) h = false)
  ∧ ((marks el st < marks el st')%nat → inView (geometry el) h = true).
Proof.
  intros st'. subst st'.
  destruct (checkFallback_sets_of_loop geometry h st) as [Ev _].
  rewrite Ev, checkFallback_pending_of_loop, checkFallback_marks_of_loop.
  assert (Hrest : ∀ x,
    x ∈ pending (checkLoop geometry h (length (pending st)) st) →
    (x ∉ visible (checkLoop geometry h (length (pending st)) st))
    ∧ inView (geometry x) h = false).
  { apply checkLoop_pending_hidden; [lia|].
    intros j x Hj Hx. apply lookup_lt_Some in Hx. lia. }
  split; [|split].
  - intros Hin Hview.
    destruct (checkLoop_keeps_or_shows geometry h (length (pending st))
                st el Hin) as [Hp|Hv]; [|exact Hv].
    destruct (Hrest el Hp) as [_ Hout]. congruence.
  - intros Hp. split; [by apply checkLoop_pending_subset in Hp|].
    by apply Hrest.
  - apply checkLoop_marks_in_view.
Qed.

(** A target in view and one below the fold. *)
Lemma fallback_check_contract_witness :
  let geometry := λ el : elem,
    if decide (el = 0%nat) then {| top := 100; bottom := 300 |}
    else {| top := 900; bottom := 1100 |} in
  let st := initScrollReveals true false ∅ [0%nat; 1%nat] in
  0%nat ∈ pending st
  ∧ inView (geometry 0%nat) 800 = true
  ∧ 0%nat ∈ visible (checkFallback geometry 800 st).
Proof.
  split; [by left|]. split; [reflexivity|].
  pose proof (fallback_check_contract
                (λ el : elem,
                   if decide (el = 0%nat) then {| top := 100; bottom := 300 |}
                   else {| top := 900; bottom := 1100 |})
                800 (initScrollReveals true false ∅ [0%nat; 1%nat]) 0%nat)
    as H.
  cbv zeta in H. destruct H as [H _]. apply H; [by left | reflexivity].
Defined.

(** ** Coalescing of the fallback's checks *)

Lemma checkFallback_flags geometry h st :
  fallbackTicking (checkFallback geometry h st) = false
  ∧ frameQueue (checkFallback geometry h st) = frameQueue st.
Proof.
  unfold checkFallback. simpl.
  destruct (checkLoop_same_flags geometry h (length (pending st)) st)
    as (_ & _ & Hq).
  destruct (pending (checkLoop geometry h (length (pending st)) st));
    simpl; done.
Qed.

Lemma iter_checkFallback_flags geometry h k st :
  frameQueue (Nat.iter k (checkFallback geometry h) st) = frameQueue st
  ∧ (fallbackTicking (Nat.iter k (checkFallback geometry h) st)
     = match k with O => fallbackTicking st | S _ => false end).
Proof.
  induction k as [|k [IHq IHt]]; [done|]. simpl.
  destruct (checkFallback_flags geometry h
              (Nat.iter k (checkFallback geometry h) st)) as [Ht Hq].
  split; [congruence | exact Ht].
Qed.

(** A check is queued whenever the flag is set, and never more than two
    are: the one of initialisation and one asked for by a scroll event. *)
Lemma queue_bounds_step st ev :
  (fallbackTicking st = true → (1 ≤ frameQueue st)%nat) →
  (frameQueue st ≤ if fallbackTicking st then 2 else 1)%nat →
  (fallbackTicking (step st ev) = true → (1 ≤ frameQueue (step st ev))%nat)
  ∧ (frameQueue (step st ev)
     ≤ if fallbackTicking (step st ev) then 2 else 1)%nat.
Proof.
  intros Hj Hb. destruct ev as [entries| |geometry h].
  - assert (E : fallbackTicking (step st (Notify entries))
                = fallbackTicking st
                ∧ frameQueue (step st (Notify entries)) = frameQueue st).
    { simpl. unfold observerCallback. clear Hj Hb. revert st.
      induction entries as [|[t b] es IH]; intros st; [done|].
      simpl. destruct (IH (onEntry st (t, b))) as [-> ->].
      unfold onEntry. simpl. by destruct b. }
    destruct E as [-> ->]. done.
  - simpl. destruct (listening st); [|done].
    unfold onScrollFallback.
    destruct (fallbackTicking st) eqn:Et; [by rewrite Et|].
    simpl. split; lia.
  - simpl.
    destruct (iter_checkFallback_flags geometry h (frameQueue st)
                (clearFrameQueue st)) as [Hq Ht].
    rewrite Hq, Ht. simpl.
    destruct (frameQueue st) as [|k] eqn:Ek.
    + destruct (fallbackTicking st) eqn:Et; [|split; [done|lia]].
      specialize (Hj eq_refl). lia.
    + split; [done|lia].
Qed.

Lemma queue_bounds_run st evs :
  (fallbackTicking st = true → (1 ≤ frameQueue st)%nat) →
  (frameQueue st ≤ if fallbackTicking st then 2 else 1)%nat →
  (fallbackTicking (run st evs) = true → (1 ≤ frameQueue (run st evs))%nat)
  ∧ (frameQueue (run st evs)
     ≤ if fallbackTicking (run st evs) then 2 else 1)%nat.
Proof.
  revert st. induction evs as [|ev evs IH]; intros st Hj Hb; [done|].
  simpl. destruct (queue_bounds_step st ev Hj Hb) as [Hj' Hb'].
  by apply IH.
Qed.

Lemma queue_bounds_init hasObserver reduced vis0 els :
  let st := initScrollReveals hasObserver reduced vis0 els in
  (fallbackTicking st = true → (1 ≤ frameQueue st)%nat)
  ∧ (frameQueue st ≤ if fallbackTicking st then 2 else 1)%nat.
Proof.
  unfold initScrollReveals. destruct els as [|x xs]; [simpl; split; [done|lia]|].
  destruct (negb hasObserver || reduced); simpl; split; done || lia.
Qed.

Lemma frame_empties_queue st geometry h :
  (fallbackTicking st = true → (1 ≤ frameQueue st)%nat) →
  frameQueue (step st (Frame geometry h)) = 0%nat
  ∧ fallbackTicking (step st (Frame geometry h)) = false.
Proof.
  intros Hj. simpl.
  destruct (iter_checkFallback_flags geometry h (frameQueue st)
              (clearFrameQueue st)) as [Hq Ht].
  rewrite Hq, Ht. split; [done|].
  destruct (frameQueue st) eqn:Ek; [|done]. simpl.
  destruct (fallbackTicking st); [|done]. specialize (Hj eq_refl). lia.
Qed.

Lemma scrolls_queue_one st n :
  frameQueue st = 0%nat → fallbackTicking st = false →
  frameQueue (run st (replicate (S n) Scroll))
  = (if listening st then 1 else 0)%nat
  ∧ listening (run st (replicate (S n) Scroll)) = listening st.
Proof.
  intros Hq Ht. destruct (listening st) eqn:Hl.
  - assert (H1 : ∀ s, listening s = true → fallbackTicking s = true →
                 step s Scroll = s).
    { intros s Hs Hts. simpl. rewrite Hs. unfold onScrollFallback.
      by rewrite Hts. }
    assert (Hn : ∀ k s, listening s = true → fallbackTicking s = true →
                 run s (replicate k Scroll) = s).
    { induction k as [|k IH]; intros s Hs Hts; [done|].
      change (run s (replicate (S k) Scroll))
        with (run (step s Scroll) (replicate k Scroll)).
      rewrite (H1 s Hs Hts). by apply IH. }
    change (run st (replicate (S n) Scroll))
      with (run (step st Scroll) (replicate n Scroll)).
    assert (E : step st Scroll = requestFrame (setFallbackTicking true st)).
    { simpl. rewrite Hl. unfold onScrollFallback. by rewrite Ht. }
    rewrite E, Hn by done. simpl. by rewrite Hq, Hl.
  - assert (Hn : ∀ k s, listening s = false →
                 run s (replicate k Scroll) = s).
    { induction k as [|k IH]; intros s Hs; [done|].
      change (run s (replicate (S k) Scroll))
        with (run (step s Scroll) (replicate k Scroll)).
      replace (step s Scroll) with s by (simpl; by rewrite Hs).
      by apply IH. }
    rewrite Hn by done. by rewrite Hq, Hl.
Qed.

(** X2.  The fallback coalesces scroll events.  A frame leaves no check
    queued; after it, any positive number of scroll events queues exactly
    one check while the listener is attached and none once it is removed.
    At no time are more than two checks queued (the one asked for at
    initialisation and one asked for by a scroll event). *)
Theorem fallback_coalescing (hasObserver reduced : bool) (vis0 : gset elem)
    (els : list elem) (history : list event) (geometry : elem → rect)
    (h : Z) (n : nat) :
  let st0 := initScrollReveals hasObserver reduced vis0 els in
  let st := run st0 (history ++ [Frame geometry h]) in
  frameQueue st = 0%nat
  ∧ fallbackTicking st = false
  ∧ frameQueue (run st (replicate (S n) Scroll))
    = (if listening st then 1 else 0)%nat
  ∧ (frameQueue (run st0 history) ≤ 2)%nat.
Proof.
  intros st0 st.
  destruct (queue_bounds_init hasObserver reduced vis0 els) as [Hj0 Hb0].
  destruct (queue_bounds_run st0 history Hj0 Hb0) as [Hj Hb].
  assert (E : st = step (run st0 history) (Frame geometry h)).
  { subst st. unfold run. by rewrite foldl_app. }
  destruct (frame_empties_queue (run st0 history) geometry h Hj) as [Hq Ht].
  rewrite <- E in Hq, Ht.
  split; [exact Hq|]. split; [exact Ht|]. split.
  - by apply scrolls_queue_one.
  - destruct (fallbackTicking (run st0 history)); lia.
Qed.

End RevealFallback.

(* ===================================================================== *)
(** * Further properties of the ticker                                    *)
(* ===================================================================== *)

Section TickerIdle.

Import Ticker.

Lemma quiet_step st ev :
  ticking st = false → frameQueue st = 0%nat →
  (listening st = false ∨ match ev with Scroll _ => False | _ => True end) →
  ticking (step st ev) = false ∧ frameQueue (step st ev) = 0%nat
  ∧ listening (step st ev) = listening st
  ∧ published (step st ev) = published st.
Proof.
  intros Ht Hq Hquiet. destruct ev as [y|h|]; simpl.
  - destruct Hquiet as [Hl|[]]. by rewrite Hl.
  - done.
  - by rewrite Hq.
Qed.

Lemma quiet_run st evs :
  ticking st = false → frameQueue st = 0%nat →
  (listening st = false
   ∨ Forall (λ ev, match ev with Scroll _ => False | _ => True end) evs) →
  published (run st evs) = published st.
Proof.
  revert st. induction evs as [|ev evs IH]; intros st Ht Hq Hquiet; [done|].
  assert (Hev : listening st = false
                ∨ match ev with Scroll _ => False | _ => True end).
  { destruct Hquiet as [Hl|Hf]; [by left|].
    right. by apply Forall_cons in Hf as [Hev _]. }
  destruct (quiet_step st ev Ht Hq Hev) as (Ht' & Hq' & Hl' & Hp').
  simpl. rewrite IH; [exact Hp' | exact Ht' | exact Hq' |].
  destruct Hquiet as [Hl|Hf]; [left; congruence|].
  right. by apply Forall_cons in Hf as [_ Hf].
Qed.

(** X3.  The ticker does no work when there is nothing to do.  With
    reduced motion requested it never publishes anything, whatever events
    arrive.  Otherwise, once a frame has run, frames and resizes publish
    nothing further until the next scroll event: a frame with no scroll
    event before it makes no computation (and a resize alone does not
    refresh the hero's style). *)
Theorem ticker_idle (hasHeroContent : bool) (y0 h0 : float)
    (history quiet : list event) :
  published (run (initScrollLinked true hasHeroContent y0 h0) history) = []
  ∧ (Forall (λ ev, match ev with Scroll _ => False | _ => True end) quiet →
     let st := run (initScrollLinked false hasHeroContent y0 h0)
                 (history ++ [Frame]) in
     published (run st quiet) = published st).
Proof.
  split.
  - by apply (quiet_run (initScrollLinked true hasHeroContent y0 h0));
      [| |left].
  - intros Hquiet st.
    destruct (run_invariants (initScrollLinked false hasHeroContent y0 h0)
                history) as (Hc & _); [by right|].
    assert (E : st = step (run (initScrollLinked false hasHeroContent y0 h0)
                             history) Frame).
    { subst st. unfold run. by rewrite foldl_app. }
    apply quiet_run; [| |by right].
    + rewrite E. simpl.
      destruct Hc as [[_ ->]|[Ht ->]]; simpl; done.
    + rewrite E. simpl.
      destruct Hc as [[_ ->]|[Ht ->]]; simpl; done.
Qed.

(** Two idle frames and a resize after a scroll burst. *)
Lemma ticker_idle_witness :
  let quiet := [Frame; Resize 600%float; Frame] in
  let st := run (initScrollLinked false true 0%float 800%float)
              ([Scroll 10%float; Scroll 40%float] ++ [Frame]) in
  Forall (λ ev, match ev with Scroll _ => False | _ => True end) quiet
  ∧ published (run st quiet) = published st.
Proof.
  assert (Hq : Forall (λ ev, match ev with Scroll _ => False | _ => True end)
                 [Frame; Resize 600%float; Frame])
    by (repeat constructor).
  split; [exact Hq|].
  destruct (ticker_idle true 0%float 800%float [Scroll 10%float; Scroll 40%float]
              [Frame; Resize 600%float; Frame]) as [_ H].
  by apply H.
Defined.

End TickerIdle.

(* ===================================================================== *)
(** * Further properties of the conversational form                       *)
(* ===================================================================== *)

Section SessionProperties.

Import Convo Session.
Local Open Scope N_scope.

(** ** The gate of the first step *)

Lemma workInvariant_ext st st' :
  active st' = active st → answers st' = answers st →
  timers st' = timers st →
  workInvariant st → workInvariant st'.
Proof. unfold workInvariant. intros -> -> ->. done. Qed.

Lemma workInvariant_answers st a' :
  (work (answers st) ≠ [] → work a' ≠ []) →
  workInvariant st → workInvariant (setAnswers a' st).
Proof.
  intros Hw [H1 H2]. split; simpl.
  - destruct (active st) as [[| |]|]; simpl in *; try done; by apply Hw.
  - eapply Forall_impl; [exact H2|].
    intros t. simpl. destruct (task t); simpl; try done; apply Hw.
Qed.

Lemma workInvariant_showStep st target :
  stepNeedsWork target (answers st) →
  workInvariant st → workInvariant (showStep target st).
Proof. intros Hn [H1 H2]. by split. Qed.

Lemma workInvariant_showTyping st delay k :
  (∀ id, callbackNeedsWork (k id) (answers st)) →
  workInvariant st → workInvariant (showTyping delay k st).
Proof.
  intros Hn [H1 H2]. split; [exact H1|]. simpl.
  apply Forall_app. split; [exact H2|]. apply Forall_singleton. apply Hn.
Qed.

Lemma workInvariant_onSendClick st :
  workInvariant st → workInvariant (onSendClick st).
Proof.
  intros H. destruct (validDetails st) eqn:Hv.
  - assert (Hc : workInvariant (setAnswers (committed st) st))
      by (by apply workInvariant_answers).
    rewrite (onSendClick_accepted st Hv).
    destruct (composeMailto (committed st)) as [mailtoLink|]; [|exact Hc].
    apply workInvariant_showTyping; [done|].
    apply (workInvariant_ext (showStep None (setAnswers (committed st) st)));
      try done.
    by apply workInvariant_showStep.
  - rewrite (onSendClick_refused st Hv).
    destruct (falsy (trim (nameValue st))); by apply (workInvariant_ext st).
Qed.

Lemma workInvariant_fire st k :
  callbackNeedsWork k (answers st) →
  workInvariant st → workInvariant (fire st k).
Proof.
  intros Hn H. destruct k as [id|id|id| |id mailtoLink]; simpl in *.
  - apply workInvariant_showStep; [done|]. by apply (workInvariant_ext st).
  - apply workInvariant_showStep; [done|]. by apply (workInvariant_ext st).
  - unfold setTimeout.
    set (s1 := showStep (Some Step3) _).
    assert (H1 : workInvariant s1).
    { apply workInvariant_showStep; [done|]. by apply (workInvariant_ext st). }
    destruct H1 as [Ha Ht]. split; [exact Ha|]. simpl.
    apply Forall_app. split; [exact Ht|]. by apply Forall_singleton.
  - destruct (displayed Step3 st); [|done]. by apply (workInvariant_ext st).
  - by apply (workInvariant_ext st).
Qed.

Lemma workInvariant_tick st : workInvariant st → workInvariant (tick st).
Proof.
  intros [H1 H2]. unfold tick.
  set (s0 := setTimers _ _).
  assert (Hs0 : workInvariant s0).
  { split; [exact H1|]. simpl. apply Forall_forall. intros t Ht.
    apply list_elem_of_filter in Ht as [_ Ht].
    rewrite Forall_forall in H2. by apply H2. }
  assert (Hready : Forall (λ k, callbackNeedsWork k (answers s0))
                     (task <$> filter (λ x, (due x ≤ S (now st))%nat)
                                 (timers st))).
  { apply Forall_fmap, Forall_forall. intros t Ht.
    apply list_elem_of_filter in Ht as [_ Ht].
    rewrite Forall_forall in H2. by apply H2. }
  revert Hs0 Hready. generalize s0.
  induction (task <$> filter (λ x, (due x ≤ S (now st))%nat) (timers st))
    as [|k ks IH]; intros s Hs Hks; [done|].
  apply Forall_cons in Hks as [Hk Hks]. simpl.
  apply IH; [by apply workInvariant_fire | by rewrite fire_answers].
Qed.

Lemma workInvariant_dispatch pills st ev :
  workInvariant st → workInvariant (dispatch pills st ev).
Proof.
  intros H. destruct ev as [|v| |i|v|v|v| |shiftKey|]; simpl.
  - unfold onStartClick. apply workInvariant_showTyping; [done|].
    by apply (workInvariant_ext st).
  - destruct (displayed Step1 st); [|done]. by apply (workInvariant_ext st).
  - destruct (displayed Step1 st); [|done]. unfold onStep1Next.
    destruct (falsy (workValue st)) eqn:E.
    { by apply (workInvariant_ext st). }
    assert (Hw : workValue st ≠ []) by (by destruct (workValue st)).
    apply workInvariant_showTyping; [intros id; exact Hw|].
    apply workInvariant_showStep; [done|].
    apply (workInvariant_ext (setAnswers
             {| work := workValue st; source := source (answers st);
                name := name (answers st); email := email (answers st);
                note := note (answers st) |} st)); try done.
    by apply workInvariant_answers.
  - destruct (displayed Step2 st) eqn:Hd; [|done].
    destruct (_ !! i) as [v|]; [|done]. unfold onPillClick.
    assert (Hw : work (answers st) ≠ []).
    { destruct H as [H1 _]. apply displayed_active in Hd.
      by rewrite Hd in H1. }
    apply workInvariant_showTyping; [intros id; exact Hw|].
    apply workInvariant_showStep; [done|].
    apply (workInvariant_ext (setAnswers
             {| work := work (answers st); source := v;
                name := name (answers st); email := email (answers st);
                note := note (answers st) |} st)); [done|done|done|].
    by apply workInvariant_answers.
  - destruct (displayed Step3 st); [|done]. by apply (workInvariant_ext st).
  - destruct (displayed Step3 st); [|done]. by apply (workInvariant_ext st).
  - destruct (displayed Step3 st); [|done]. by apply (workInvariant_ext st).
  - destruct (displayed Step3 st); [|done]. by apply workInvariant_onSendClick.
  - destruct (displayed Step3 st && negb shiftKey); [|done].
    by apply workInvariant_onSendClick.
  - by apply workInvariant_tick.
Qed.

Lemma workInvariant_run pills st evs :
  workInvariant st → workInvariant (run pills st evs).
Proof.
  revert st. induction evs as [|ev evs IH]; intros st H; [done|].
  simpl. by apply IH, workInvariant_dispatch.
Qed.

Lemma workInvariant_init : workInvariant initConvoForm.
Proof. split; [done | by apply Forall_nil]. Qed.

(** X4.  The first gate of the form.  Whatever the markup's pills are and
    whatever the user does from the idle form, the Source step is on
    display only with a non-empty work answer.  A click on Next with no
    work type selected changes nothing but the flag and the focus of the
    dropdown: no answer, no turn, no timer, no change of step. *)
Theorem work_gate (pills : list jsstring) (evs : list event) :
  let st := run pills initConvoForm evs in
  (atSource st = true → work (answers st) ≠ [])
  ∧ (∀ s, workValue s = [] →
       onStep1Next s = setFocused (Some WorkSelect) (setWorkFlagged true s)
       ∧ answers (onStep1Next s) = answers s
       ∧ transcript (onStep1Next s) = transcript s
       ∧ timers (onStep1Next s) = timers s
       ∧ active (onStep1Next s) = active s).
Proof.
  intros st. split.
  - assert (H : workInvariant st)
      by apply workInvariant_run, workInvariant_init.
    intros Hd. apply displayed_active in Hd.
    destruct H as [H1 _]. by rewrite Hd in H1.
  - intros s Hw. unfold onStep1Next. by rewrite Hw.
Qed.

(** Start, pick "Design", click Next: the Source step appears. *)
Lemma work_gate_witness :
  let st := run [lit "Referral"] initConvoForm inquiryOpening in
  atSource st = true ∧ work (answers st) ≠ [].
Proof.
  split; [vm_compute; reflexivity|].
  pose proof (work_gate [lit "Referral"] inquiryOpening) as H.
  cbv zeta in H. destruct H as [H _]. apply H. vm_compute. reflexivity.
Defined.

(** ** Success is terminal *)

Lemma hidden_not_displayed s st : stepsHidden st = true → displayed s st = false.
Proof.
  intros H. unfold displayed. rewrite H. simpl.
  by rewrite andb_false_r.
Qed.

Lemma closed_fire st k :
  isAfterSend {| due := 0; task := k |} = false →
  closed st → closed (fire st k) ∧ sameOutcome st (fire st k).
Proof.
  intros Hk [Hh Ht].
  destruct k as [id|id|id| |id mailtoLink]; simpl in *; try discriminate.
  - done.
  - done.
  - split; [|done]. split; [done|]. simpl.
    rewrite existsb_app, Ht. done.
  - destruct (displayed Step3 st); done.
Qed.

Lemma sameOutcome_trans a b c :
  sameOutcome a b → sameOutcome b c → sameOutcome a c.
Proof.
  unfold sameOutcome.
  intros (?&?&?&?&?&?&?) (?&?&?&?&?&?&?). repeat split; congruence.
Qed.

Lemma closed_foldl_fire ks st :
  Forall (λ k, isAfterSend {| due := 0; task := k |} = false) ks →
  closed st → closed (foldl fire st ks) ∧ sameOutcome st (foldl fire st ks).
Proof.
  revert st. induction ks as [|k ks IH]; intros st Hks Hc.
  - split; [exact Hc|]. by repeat split.
  - apply Forall_cons in Hks as [Hk Hks]. simpl.
    destruct (closed_fire st k Hk Hc) as [Hc' Hs'].
    destruct (IH _ Hks Hc') as [Hc'' Hs''].
    split; [exact Hc''|]. by apply (sameOutcome_trans _ (fire st k)).
Qed.

Lemma existsb_filter_false {A} (f : A → bool) (P : A → Prop)
    `{∀ x, Decision (P x)} (l : list A) :
  existsb f l = false → existsb f (filter P l) = false.
Proof.
  induction l as [|x l IH]; [done|]. simpl.
  intros Hf. apply orb_false_iff in Hf as [Hx Hl].
  destruct (decide (P x)).
  - rewrite filter_cons_True by done. simpl. by rewrite Hx, IH.
  - rewrite filter_cons_False by done. by apply IH.
Qed.

Lemma closed_tick st : closed st → closed (tick st) ∧ sameOutcome st (tick st).
Proof.
  intros [Hh Ht]. unfold tick.
  set (s0 := setTimers _ _).
  assert (Hs0 : closed s0).
  { split; [done|]. simpl. by apply existsb_filter_false. }
  assert (Hready : Forall (λ k, isAfterSend {| due := 0; task := k |} = false)
                     (task <$> filter (λ x, (due x ≤ S (now st))%nat)
                                 (timers st))).
  { apply Forall_fmap, Forall_forall. intros t Hin.
    apply list_elem_of_filter in Hin as [_ Hin]. simpl.
    destruct (isAfterSend {| due := 0; task := task t |}) eqn:E; [|done].
    assert (existsb isAfterSend (timers st) = true); [|congruence].
    apply existsb_exists. exists t. split; [by apply list_elem_of_In|].
    exact E. }
  destruct (closed_foldl_fire _ s0 Hready Hs0) as [Hc Hs].
  split; [exact Hc|]. apply (sameOutcome_trans _ s0); [|exact Hs].
  by repeat split.
Qed.

Lemma closed_dispatch pills st ev :
  closed st →
  closed (dispatch pills st ev) ∧ sameOutcome st (dispatch pills st ev).
Proof.
  intros Hc. pose proof Hc as [Hh Ht].
  destruct ev as [|v| |i|v|v|v| |shiftKey|]; simpl;
    rewrite ?(hidden_not_displayed _ st Hh); simpl;
    try (split; [exact Hc | by repeat split]).
  - split; [|by repeat split]. split; [done|]. simpl.
    by rewrite existsb_app, Ht.
  - by apply closed_tick.
Qed.

(** X5.  Success is terminal.  Once the steps have been hidden (the
    summary panel is up) and no other accepted submission is waiting for
    its closing timer, no input and no passing of time changes an answer,
    a field value, the summary or the links handed to the mail client: no
    step is ever displayed again, whatever is clicked or typed.  (The
    start button still works, but what it starts stays hidden.) *)
Theorem success_terminal (pills : list jsstring) (st : state)
    (evs : list event) :
  closed st →
  closed (run pills st evs)
  ∧ sameOutcome st (run pills st evs)
  ∧ ∀ s, displayed s (run pills st evs) = false.
Proof.
  intros Hc.
  assert (H : closed (run pills st evs) ∧ sameOutcome st (run pills st evs)).
  { revert st Hc. induction evs as [|ev evs IH]; intros st Hc.
    - split; [exact Hc | by repeat split].
    - simpl. destruct (closed_dispatch pills st ev Hc) as [Hc' Hs'].
      destruct (IH _ Hc') as [Hc'' Hs''].
      split; [exact Hc''|].
      by apply (sameOutcome_trans _ (dispatch pills st ev)). }
  destruct H as [Hc' Hs]. split; [exact Hc'|]. split; [exact Hs|].
  intros s. apply hidden_not_displayed. by destruct Hc'.
Qed.

(** After the worked example: start again, click, type, wait. *)
Lemma success_terminal_witness :
  let st := run [lit "Referral"] initConvoForm (inquiry 0) in
  let evs := [ClickStart] ++ wait 600
               ++ [SelectWork (lit "Other"); ClickStep1Next; ClickSend] in
  closed st
  ∧ answers (run [lit "Referral"] st evs) = answers st
  ∧ navigations (run [lit "Referral"] st evs) = [inquiryLink].
Proof.
  assert (Hc : closed (run [lit "Referral"] initConvoForm (inquiry 0)))
    by (split; vm_compute; reflexivity).
  split; [exact Hc|].
  destruct (success_terminal [lit "Referral"] _
              ([ClickStart] ++ wait 600
                 ++ [SelectWork (lit "Other"); ClickStep1Next; ClickSend])
              Hc) as (_ & (Ha & Hn & _) & _).
  split; [exact Ha|]. rewrite Hn. vm_compute. reflexivity.
Defined.

(** ** One start, at most one message *)

Lemma chain_filter_split (P : timer → Prop) `{∀ t, Decision (P t)}
    (ts : list timer) :
  length (filter (λ t, isChain (task t) = true) ts)
  = (length (filter (λ t, isChain (task t) = true) (filter P ts))
     + length (filter (λ t, isChain (task t) = true)
                 (filter (λ t, ¬ P t) ts)))%nat.
Proof.
  induction ts as [|t ts IH]; [done|].
  destruct (decide (P t)) as [Hp|Hp].
  - rewrite (filter_cons_True P) by done.
    rewrite (filter_cons_False (λ t, ¬ P t)) by tauto.
    destruct (decide (isChain (task t) = true)) as [Hc|Hc].
    + rewrite !(filter_cons_True (λ t, isChain (task t) = true)) by done.
      simpl. lia.
    + rewrite !(filter_cons_False (λ t, isChain (task t) = true)) by done.
      exact IH.
  - rewrite (filter_cons_False P) by done.
    rewrite (filter_cons_True (λ t, ¬ P t)) by done.
    destruct (decide (isChain (task t) = true)) as [Hc|Hc].
    + rewrite !(filter_cons_True (λ t, isChain (task t) = true)) by done.
      simpl. lia.
    + rewrite !(filter_cons_False (λ t, isChain (task t) = true)) by done.
      exact IH.
Qed.

Lemma inFlight_add_timer st t :
  inFlight (setTimers (timers st ++ [t]) st)
  = (inFlight st + if isChain (task t) then 1 else 0)%nat.
Proof.
  unfold inFlight. simpl. rewrite filter_app, length_app.
  destruct (isChain (task t)) eqn:E.
  - rewrite (filter_cons_True _ t) by done. simpl. lia.
  - rewrite (filter_cons_False _ t) by congruence. simpl. lia.
Qed.

Lemma inFlight_showTyping st delay k :
  (∀ id, isChain (k id) = true) →
  inFlight (showTyping delay k st) = S (inFlight st).
Proof.
  intros Hk. unfold showTyping.
  set (s1 := setNextNode _ _).
  rewrite (inFlight_add_timer s1). simpl. rewrite Hk.
  unfold inFlight. simpl. lia.
Qed.

(** A callback moves its step from the timers to the display, or to the
    mail client; it creates none. *)
Lemma fire_budget st k :
  (inFlight (fire st k) + length (navigations (fire st k))
   ≤ inFlight st + length (navigations st)
     + if isChain k then 1 else 0)%nat.
Proof.
  destruct k as [id|id|id| |id mailtoLink]; simpl.
  - unfold inFlight. simpl. destruct (active st); lia.
  - unfold inFlight. simpl. destruct (active st); lia.
  - unfold setTimeout.
    set (s1 := showStep (Some Step3) _).
    rewrite (inFlight_add_timer s1). simpl.
    unfold inFlight. simpl. destruct (active st); lia.
  - destruct (displayed Step3 st); unfold inFlight; simpl; lia.
  - unfold inFlight. simpl. rewrite length_app. simpl. lia.
Qed.

Lemma foldl_fire_budget ks st :
  (inFlight (foldl fire st ks) + length (navigations (foldl fire st ks))
   ≤ inFlight st + length (navigations st)
     + length (filter (λ k, isChain k = true) ks))%nat.
Proof.
  revert st. induction ks as [|k ks IH]; intros st; [simpl; lia|].
  simpl. specialize (IH (fire st k)). pose proof (fire_budget st k) as Hk.
  destruct (isChain k) eqn:E.
  - rewrite (filter_cons_True _ k) by done. simpl. lia.
  - rewrite (filter_cons_False _ k) by congruence. lia.
Qed.

Lemma chain_fmap_task (ts : list timer) :
  length (filter (λ k, isChain k = true) (task <$> ts))
  = length (filter (λ t, isChain (task t) = true) ts).
Proof.
  induction ts as [|t ts IH]; [done|].
  rewrite fmap_cons.
  destruct (decide (isChain (task t) = true)) as [Hc|Hc].
  - rewrite (filter_cons_True _ (task t)) by done.
    rewrite (filter_cons_True _ t) by done. simpl. f_equal. exact IH.
  - rewrite (filter_cons_False _ (task t)) by done.
    rewrite (filter_cons_False _ t) by done. exact IH.
Qed.

Lemma tick_budget st :
  (inFlight (tick st) + length (navigations (tick st))
   ≤ inFlight st + length (navigations st))%nat.
Proof.
  unfold tick. set (s0 := setTimers _ _).
  pose proof (foldl_fire_budget
                (task <$> filter (λ x, (due x ≤ S (now st))%nat) (timers st))
                s0) as H.
  pose proof (chain_fmap_task
                (filter (λ x, (due x ≤ S (now st))%nat) (timers st)))
    as Hready.
  pose proof (chain_filter_split (λ x, (due x ≤ S (now st))%nat) (timers st))
    as Hsplit.
  assert (Hs0 : inFlight s0
                = (length (filter (λ t, isChain (task t) = true)
                             (filter (λ x, ¬ (due x ≤ S (now st))%nat)
                                (timers st)))
                   + match active st with Some _ => 1 | None => 0 end)%nat)
    by done.
  assert (Hn : navigations s0 = navigations st) by done.
  unfold inFlight at 2. rewrite Hn in H. lia.
Qed.

Lemma onSendClick_budget st :
  is_Some (active st) →
  (inFlight (onSendClick st) + length (navigations (onSendClick st))
   ≤ inFlight st + length (navigations st))%nat.
Proof.
  intros [s Hs]. destruct (validDetails st) eqn:Hv.
  - rewrite (onSendClick_accepted st Hv).
    destruct (composeMailto (committed st)) as [mailtoLink|].
    + rewrite inFlight_showTyping by done. simpl.
      unfold inFlight. simpl. rewrite Hs. lia.
    + unfold inFlight. simpl. lia.
  - rewrite (onSendClick_refused st Hv).
    destruct (falsy (trim (nameValue st))); unfold inFlight; simpl; lia.
Qed.

Lemma dispatch_budget pills st ev :
  (inFlight (dispatch pills st ev)
   + length (navigations (dispatch pills st ev))
   ≤ inFlight st + length (navigations st)
     + if isStart ev then 1 else 0)%nat.
Proof.
  destruct ev as [|v| |i|v|v|v| |shiftKey|]; simpl.
  - unfold onStartClick. rewrite inFlight_showTyping by done.
    unfold inFlight. simpl. lia.
  - destruct (displayed Step1 st); unfold inFlight; simpl; lia.
  - destruct (displayed Step1 st) eqn:Hd; [|lia].
    apply displayed_active in Hd. unfold onStep1Next.
    destruct (falsy (workValue st)).
    + unfold inFlight. simpl. lia.
    + rewrite inFlight_showTyping by done.
      unfold inFlight. simpl. rewrite Hd. lia.
  - destruct (displayed Step2 st) eqn:Hd; [|lia].
    apply displayed_active in Hd.
    destruct (_ !! i) as [v|]; [|lia]. unfold onPillClick.
    rewrite inFlight_showTyping by done.
    unfold inFlight. simpl. rewrite Hd. lia.
  - destruct (displayed Step3 st); unfold inFlight; simpl; lia.
  - destruct (displayed Step3 st); unfold inFlight; simpl; lia.
  - destruct (displayed Step3 st); unfold inFlight; simpl; lia.
  - destruct (displayed Step3 st) eqn:Hd; [|lia].
    apply displayed_active in Hd.
    pose proof (onSendClick_budget st (ex_intro _ _ Hd)). lia.
  - destruct (displayed Step3 st) eqn:Hd; simpl; [|lia].
    destruct shiftKey; simpl; [lia|].
    apply displayed_active in Hd.
    pose proof (onSendClick_budget st (ex_intro _ _ Hd)). lia.
  - pose proof (tick_budget st). lia.
Qed.

Lemma run_budget pills st evs :
  (inFlight (run pills st evs) + length (navigations (run pills st evs))
   ≤ inFlight st + length (navigations st) + starts evs)%nat.
Proof.
  revert st. induction evs as [|ev evs IH]; intros st.
  - unfold starts. simpl. lia.
  - simpl. specialize (IH (dispatch pills st ev)).
    pose proof (dispatch_budget pills st ev) as Hev.
    unfold starts in *. destruct (isStart ev) eqn:E.
    + rewrite (filter_cons_True _ ev) by done. simpl. lia.
    + rewrite (filter_cons_False _ ev) by congruence. lia.
Qed.

Lemma panels_follow_navigations pills evs :
  successPanels (run pills initConvoForm evs)
  = navigations (run pills initConvoForm evs).
Proof.
  assert (Hfire : ∀ st k, successPanels st = navigations st →
            successPanels (fire st k) = navigations (fire st k)).
  { intros st k E. destruct k; simpl; try done.
    - by destruct (displayed Step3 st).
    - by rewrite E. }
  assert (Hsend : ∀ st, successPanels st = navigations st →
            successPanels (onSendClick st) = navigations (onSendClick st)).
  { intros st E. destruct (validDetails st) eqn:Hv.
    - rewrite (onSendClick_accepted st Hv).
      by destruct (composeMailto (committed st)).
    - rewrite (onSendClick_refused st Hv).
      by destruct (falsy (trim (nameValue st))). }
  assert (Hstep : ∀ st ev, successPanels st = navigations st →
            successPanels (dispatch pills st ev)
            = navigations (dispatch pills st ev)).
  { intros st ev E. destruct ev as [|v| |i|v|v|v| |shiftKey|]; simpl;
      try done; try (by destruct (displayed _ st)).
    - destruct (displayed Step1 st); [|done]. unfold onStep1Next.
      by destruct (falsy (workValue st)).
    - destruct (displayed Step2 st); [|done]. by destruct (_ !! i).
    - destruct (displayed Step3 st); [|done]. by apply Hsend.
    - destruct (displayed Step3 st && negb shiftKey); [|done].
      by apply Hsend.
    - unfold tick. set (s0 := setTimers _ _).
      assert (Hs0 : successPanels s0 = navigations s0) by done.
      revert Hs0. generalize s0.
      induction (task <$> _) as [|k ks IH]; intros s Hs; [done|].
      simpl. by apply IH, Hfire. }
  generalize initConvoForm, (eq_refl : successPanels initConvoForm
                                        = navigations initConvoForm).
  induction evs as [|ev evs IH]; intros st E; [done|].
  simpl. by apply IH, Hstep.
Qed.

(** X6.  Every message handed to the mail client is paid for by a click
    on the start button.  After any inputs from the idle form, the number
    of links assigned to the location, plus the steps still under way
    (pending dialog callbacks and the step on display), is at most the
    number of start clicks; a summary panel is added with each link.  So a
    session started once hands over at most one message. *)
Theorem one_message_per_start (pills : list jsstring) (evs : list event) :
  let st := run pills initConvoForm evs in
  (inFlight st + length (navigations st) ≤ starts evs)%nat
  ∧ successPanels st = navigations st
  ∧ (starts evs = 1%nat → (length (navigations st) ≤ 1)%nat)
  ∧ (starts evs = 0%nat → navigations st = [] ∧ active st = None).
Proof.
  intros st. pose proof (run_budget pills initConvoForm evs) as H.
  fold st in H. change (inFlight initConvoForm) with 0%nat in H.
  change (navigations initConvoForm) with (@nil jsstring) in H.
  simpl in H.
  split; [lia|]. split; [apply panels_follow_navigations|].
  split; [lia|]. intros H0. unfold inFlight in H.
  destruct (navigations st), (active st); simpl in H; try lia. done.
Qed.

(** The worked example has one start click and hands over one link. *)
Lemma one_message_per_start_witness :
  starts (inquiry 0) = 1%nat
  ∧ (length (navigations (run [lit "Referral"] initConvoForm (inquiry 0)))
     ≤ 1)%nat.
Proof.
  split; [vm_compute; reflexivity|].
  pose proof (one_message_per_start [lit "Referral"] (inquiry 0)) as H.
  cbv zeta in H. destruct H as (_ & _ & H & _). apply H.
  vm_compute. reflexivity.
Defined.

(** ** Typing indicators *)

Lemma indicators_addBubble text who st :
  indicators (addBubble text who st) = indicators st.
Proof.
  unfold indicators, addBubble. simpl. rewrite omap_app. simpl.
  apply app_nil_r.
Qed.

Lemma indicators_removeTyping id st :
  indicators (removeTyping id st) = filter (λ x, x ≠ id) (indicators st).
Proof.
  unfold indicators, removeTyping. simpl.
  induction (chat st) as [|n l IH]; [done|].
  destruct n as [who text|id'].
  - rewrite (filter_cons_True (λ n, n ≠ Typing id)) by done. exact IH.
  - change (omap typingOfNode (Typing id' :: l))
      with (id' :: omap typingOfNode l).
    destruct (decide (id' = id)) as [->|Hne].
    + rewrite (filter_cons_False (λ n, n ≠ Typing id))
        by (intros Hn; by apply Hn).
      rewrite (filter_cons_False (λ x, x ≠ id)) by (intros Hn; by apply Hn).
      exact IH.
    + rewrite (filter_cons_True (λ n, n ≠ Typing id)) by congruence.
      rewrite (filter_cons_True (λ x, x ≠ id)) by done.
      change (omap typingOfNode (Typing id' :: filter (λ n, n ≠ Typing id) l))
        with (id' :: omap typingOfNode (filter (λ n, n ≠ Typing id) l)).
      by rewrite IH.
Qed.

Lemma awaited_snoc ts t :
  awaited (ts ++ [t])
  = awaited ts ++ match typingOfCallback (task t) with
                  | Some id => [id]
                  | None => []
                  end.
Proof.
  unfold awaited. rewrite omap_app. cbn.
  by destruct (typingOfCallback (task t)).
Qed.

Lemma typing_showTyping st delay k :
  (∀ id, typingOfCallback (k id) = Some id) →
  typingInvariant (indicators st) (awaited (timers st)) (nextNode st) →
  typingInvariant (indicators (showTyping delay k st))
    (awaited (timers (showTyping delay k st)))
    (nextNode (showTyping delay k st)).
Proof.
  intros Hk (Hiff & Hnd & Hlt). unfold showTyping. simpl.
  rewrite awaited_snoc. simpl. rewrite Hk.
  assert (Hshown : indicators (setTimers
            (timers st ++ [{| due := (now st + delay)%nat;
                              task := k (nextNode st) |}])
            (setNextNode (S (nextNode st))
               (setChat (chat st ++ [Typing (nextNode st)]) st)))
          = indicators st ++ [nextNode st]).
  { unfold indicators. simpl. by rewrite omap_app. }
  rewrite Hshown.
  assert (Hfresh : nextNode st ∉ awaited (timers st)).
  { intros Hin. rewrite Forall_forall in Hlt. specialize (Hlt _ Hin). lia. }
  split; [|split].
  - intros id. rewrite !elem_of_app. by rewrite Hiff.
  - apply NoDup_app. split; [exact Hnd|]. split; [|apply NoDup_singleton].
    intros x Hx Hx'. apply list_elem_of_singleton in Hx'. by subst.
  - apply Forall_app. split.
    + eapply Forall_impl; [exact Hlt|]. intros x Hx. simpl in *. lia.
    + apply Forall_singleton. lia.
Qed.

(** Firing the callback [k], with [ks] still to fire at this tick. *)
Lemma typing_fire st k (ks : list callback) :
  typingInvariant (indicators st)
    (awaited (timers st) ++ omap typingOfCallback (k :: ks)) (nextNode st) →
  typingInvariant (indicators (fire st k))
    (awaited (timers (fire st k)) ++ omap typingOfCallback ks)
    (nextNode (fire st k)).
Proof.
  assert (Hbot : ∀ id (extra : list timer),
    awaited extra = [] →
    typingInvariant (indicators st)
      (awaited (timers st) ++ id :: omap typingOfCallback ks) (nextNode st) →
    typingInvariant
      (filter (λ x, x ≠ id) (indicators st))
      (awaited (timers st ++ extra) ++ omap typingOfCallback ks)
      (nextNode st)).
  { intros id extra Hextra (Hiff & Hnd & Hlt).
    assert (Ha : awaited (timers st ++ extra) = awaited (timers st)).
    { unfold awaited in *. by rewrite omap_app, Hextra, app_nil_r. }
    rewrite Ha.
    apply NoDup_app in Hnd as (Hnd1 & Hdisj & Hnd2).
    apply NoDup_cons in Hnd2 as [Hid Hnd2].
    split; [|split].
    - intros x. rewrite list_elem_of_filter, Hiff, !elem_of_app, elem_of_cons.
      split.
      + intros [Hne [H|[H|H]]]; [by left | done | by right].
      + intros [H|H].
        * split; [|by left]. intros ->. apply (Hdisj id H). left.
        * split; [|right; by right]. by intros ->.
    - apply NoDup_app. split; [exact Hnd1|]. split; [|exact Hnd2].
      intros x Hx Hx'. apply (Hdisj x Hx). by right.
    - apply Forall_app in Hlt as [Hlt1 Hlt2].
      apply Forall_cons in Hlt2 as [_ Hlt2].
      apply Forall_app. by split. }
  destruct k as [id|id|id| |id mailtoLink]; intros H.
  - specialize (Hbot id [] eq_refl H).
    rewrite app_nil_r in Hbot.
    change (indicators (fire st (AfterStart id)))
      with (indicators (addBubble question1 Bot (removeTyping id st))).
    by rewrite indicators_addBubble, indicators_removeTyping.
  - specialize (Hbot id [] eq_refl H).
    rewrite app_nil_r in Hbot.
    change (indicators (fire st (AfterWork id)))
      with (indicators (addBubble question2 Bot (removeTyping id st))).
    by rewrite indicators_addBubble, indicators_removeTyping.
  - specialize (Hbot id
                  [{| due := (now st + 100)%nat; task := FocusName |}]
                  eq_refl H).
    change (indicators (fire st (AfterSource id)))
      with (indicators (addBubble question3 Bot (removeTyping id st))).
    by rewrite indicators_addBubble, indicators_removeTyping.
  - simpl in *. by destruct (displayed Step3 st).
  - specialize (Hbot id [] eq_refl H).
    rewrite app_nil_r in Hbot.
    change (indicators (fire st (AfterSend id mailtoLink)))
      with (indicators (removeTyping id st)).
    by rewrite indicators_removeTyping.
Qed.

Lemma typing_foldl_fire ks st :
  typingInvariant (indicators st)
    (awaited (timers st) ++ omap typingOfCallback ks) (nextNode st) →
  typingInvariant (indicators (foldl fire st ks))
    (awaited (timers (foldl fire st ks))) (nextNode (foldl fire st ks)).
Proof.
  revert st. induction ks as [|k ks IH]; intros st H.
  - simpl in *. by rewrite app_nil_r in H.
  - simpl. by apply IH, typing_fire.
Qed.

Lemma typing_tick st :
  typingInvariant (indicators st) (awaited (timers st)) (nextNode st) →
  typingInvariant (indicators (tick st)) (awaited (timers (tick st)))
    (nextNode (tick st)).
Proof.
  intros (Hiff & Hnd & Hlt). unfold tick.
  apply typing_foldl_fire. simpl.
  set (ready := filter (λ x, (due x ≤ S (now st))%nat) (timers st)).
  set (waiting := filter (λ x, ¬ (due x ≤ S (now st))%nat) (timers st)).
  assert (Hids : omap typingOfCallback (task <$> ready) = awaited ready).
  { unfold awaited. induction ready as [|t ts IH]; [done|].
    rewrite fmap_cons. cbn. by rewrite IH. }
  rewrite Hids.
  assert (Hperm : awaited waiting ++ awaited ready ≡ₚ awaited (timers st)).
  { unfold awaited. rewrite <- omap_app.
    apply omap_Permutation. rewrite Permutation_app_comm.
    apply filter_app_complement. }
  split; [|split].
  - intros id. rewrite Hiff. by rewrite Hperm.
  - by rewrite Hperm.
  - by rewrite Hperm.
Qed.

Lemma typing_same st st' :
  chat st' = chat st → timers st' = timers st → nextNode st' = nextNode st →
  typingInvariant (indicators st) (awaited (timers st)) (nextNode st) →
  typingInvariant (indicators st') (awaited (timers st')) (nextNode st').
Proof. unfold indicators. by intros -> -> ->. Qed.

Lemma typing_addBubble st text who :
  typingInvariant (indicators st) (awaited (timers st)) (nextNode st) →
  typingInvariant (indicators (addBubble text who st))
    (awaited (timers (addBubble text who st)))
    (nextNode (addBubble text who st)).
Proof. intros H. by rewrite indicators_addBubble. Qed.

Lemma typing_onSendClick st :
  typingInvariant (indicators st) (awaited (timers st)) (nextNode st) →
  typingInvariant (indicators (onSendClick st))
    (awaited (timers (onSendClick st))) (nextNode (onSendClick st)).
Proof.
  intros H. destruct (validDetails st) eqn:Hv.
  - rewrite (onSendClick_accepted st Hv).
    destruct (composeMailto (committed st)) as [mailtoLink|].
    + apply typing_showTyping; [done|]. apply typing_addBubble.
      by apply (typing_same st).
    + by apply (typing_same st).
  - rewrite (onSendClick_refused st Hv).
    destruct (falsy (trim (nameValue st))); by apply (typing_same st).
Qed.

Lemma typing_dispatch pills st ev :
  typingInvariant (indicators st) (awaited (timers st)) (nextNode st) →
  typingInvariant (indicators (dispatch pills st ev))
    (awaited (timers (dispatch pills st ev)))
    (nextNode (dispatch pills st ev)).
Proof.
  intros H. destruct ev as [|v| |i|v|v|v| |shiftKey|]; simpl.
  - unfold onStartClick. apply typing_showTyping; [done|].
    by apply (typing_same st).
  - destruct (displayed Step1 st); [|done]. by apply (typing_same st).
  - destruct (displayed Step1 st); [|done]. unfold onStep1Next.
    destruct (falsy (workValue st)); [by apply (typing_same st)|].
    apply typing_showTyping; [done|].
    match goal with
    | |- typingInvariant (indicators (showStep None ?s)) _ _ =>
        apply (typing_same s); [done|done|done|]
    end.
    apply typing_addBubble. by apply (typing_same st).
  - destruct (displayed Step2 st); [|done].
    destruct (_ !! i) as [v|]; [|done]. unfold onPillClick.
    apply typing_showTyping; [done|].
    match goal with
    | |- typingInvariant (indicators (showStep None ?s)) _ _ =>
        apply (typing_same s); [done|done|done|]
    end.
    apply typing_addBubble. by apply (typing_same st).
  - destruct (displayed Step3 st); [|done]. by apply (typing_same st).
  - destruct (displayed Step3 st); [|done]. by apply (typing_same st).
  - destruct (displayed Step3 st); [|done]. by apply (typing_same st).
  - destruct (displayed Step3 st); [|done]. by apply typing_onSendClick.
  - destruct (displayed Step3 st && negb shiftKey); [|done].
    by apply typing_onSendClick.
  - by apply typing_tick.
Qed.

Lemma only_bubbles (l : list node) :
  (∀ id, Typing id ∉ l) →
  l = (λ turn, Bubble turn.1 turn.2)
        <$> omap (λ n, match n with
                       | Bubble a t => Some (a, t)
                       | Typing _ => None
                       end) l.
Proof.
  induction l as [|n l IH]; intros Hnone; [done|].
  destruct n as [who text|id].
  - cbn. f_equal. apply IH. intros id Hin. apply (Hnone id). by right.
  - exfalso. apply (Hnone id). left.
Qed.

Lemma typing_run pills st evs :
  typingInvariant (indicators st) (awaited (timers st)) (nextNode st) →
  typingInvariant (indicators (run pills st evs))
    (awaited (timers (run pills st evs))) (nextNode (run pills st evs)).
Proof.
  revert st. induction evs as [|ev evs IH]; intros st H; [done|].
  simpl. by apply IH, typing_dispatch.
Qed.

(** X7.  A typing indicator is on screen exactly while its timer is
    pending.  After any inputs from the idle form, the indicators in the
    chat are those that a pending timer will remove, no two timers remove
    the same one; so once no timer is pending the chat holds bubbles only,
    and no indicator is ever left behind. *)
Theorem typing_indicators (pills : list jsstring) (evs : list event) :
  let st := run pills initConvoForm evs in
  (∀ id, Typing id ∈ chat st ↔ id ∈ awaited (timers st))
  ∧ NoDup (awaited (timers st))
  ∧ (timers st = [] →
     chat st = (λ turn, Bubble turn.1 turn.2) <$> transcript st).
Proof.
  intros st.
  assert (H : typingInvariant (indicators st) (awaited (timers st))
                (nextNode st)).
  { subst st. apply typing_run.
    split; [done|]. split; [apply NoDup_nil_2 | by apply Forall_nil]. }
  destruct H as (Hiff & Hnd & _).
  assert (Hind : ∀ id, Typing id ∈ chat st ↔ id ∈ indicators st).
  { intros id. unfold indicators. rewrite list_elem_of_omap. split.
    - intros Hin. by exists (Typing id).
    - intros (n & Hin & Hn). destruct n; simpl in Hn; [done|]. congruence. }
  split; [|split].
  - intros id. by rewrite Hind, Hiff.
  - exact Hnd.
  - intros Ht.
    assert (Hnone : ∀ id, Typing id ∉ chat st).
    { intros id Hin. apply Hind, Hiff in Hin. rewrite Ht in Hin.
      by apply elem_of_nil in Hin. }
    by apply only_bubbles.
Qed.

(** At the end of the worked example no timer is pending. *)
Lemma typing_indicators_witness :
  let st := run [lit "Referral"] initConvoForm (inquiry 0) in
  timers st = []
  ∧ chat st = (λ turn, Bubble turn.1 turn.2) <$> transcript st.
Proof.
  split; [vm_compute; reflexivity|].
  pose proof (typing_indicators [lit "Referral"] (inquiry 0)) as H.
  cbv zeta in H. destruct H as (_ & _ & H). apply H.
  vm_compute. reflexivity.
Defined.

(** ** The link handed to the mail client *)

Lemma hexDigit_safe n : n < 16 → isUnreserved (hexDigit n) = true.
Proof.
  intros Hn.
  assert (Hall : forallb (λ k, isUnreserved (hexDigit (N.of_nat k)))
                   (seq 0 16) = true) by (vm_compute; reflexivity).
  rewrite forallb_forall in Hall.
  rewrite <- (N2Nat.id n). apply Hall. apply in_seq. lia.
Qed.

Lemma percentEncode_safe b :
  b < 256 → Forall (λ c, isUriSafe c = true) (percentEncode b).
Proof.
  intros Hb. unfold percentEncode, isUriSafe.
  repeat apply Forall_cons_2; [done | | | apply Forall_nil_2].
  - rewrite hexDigit_safe; [done|]. apply N.Div0.div_lt_upper_bound. lia.
  - rewrite hexDigit_safe; [done|]. apply N.mod_upper_bound. lia.
Qed.

Lemma utf8_bytes cp : cp < 1114112 → Forall (λ b, b < 256) (utf8 cp).
Proof.
  intros Hcp. unfold utf8.
  assert (H64 : ∀ x, 128 + x mod 64 < 256).
  { intros x. pose proof (N.mod_upper_bound x 64). lia. }
  destruct (cp <? 128) eqn:E1.
  { apply N.ltb_lt in E1. apply Forall_singleton. lia. }
  destruct (cp <? 2048) eqn:E2.
  { apply N.ltb_lt in E2. repeat apply Forall_cons_2; [|apply H64|done].
    assert (cp / 64 < 32) by (apply N.Div0.div_lt_upper_bound; lia). lia. }
  destruct (cp <? 65536) eqn:E3.
  { apply N.ltb_lt in E3.
    repeat apply Forall_cons_2; [|apply H64|apply H64|done].
    assert (cp / 4096 < 16) by (apply N.Div0.div_lt_upper_bound; lia). lia. }
  repeat apply Forall_cons_2; [|apply H64|apply H64|apply H64|done].
  assert (cp / 262144 < 5) by (apply N.Div0.div_lt_upper_bound; lia). lia.
Qed.

Lemma escapeCodePoint_safe cp :
  cp < 1114112 → Forall (λ c, isUriSafe c = true) (escapeCodePoint cp).
Proof.
  intros Hcp. unfold escapeCodePoint. apply Forall_concat, Forall_fmap.
  eapply Forall_impl; [by apply utf8_bytes|].
  intros b Hb. by apply percentEncode_safe.
Qed.

Lemma encode_safe_bounded n s r :
  (length s ≤ n)%nat →
  Forall (λ c, isCodeUnit c = true) s →
  encodeURIComponent s = Some r →
  Forall (λ c, isUriSafe c = true) r.
Proof.
  revert s r. induction n as [|n IH]; intros s r Hlen Hcu Henc.
  { destruct s; [|simpl in Hlen; lia]. simpl in Henc.
    injection Henc as <-. done. }
  destruct s as [|c rest]; [simpl in Henc; by injection Henc as <-|].
  apply Forall_cons in Hcu as [Hc Hrest].
  unfold isCodeUnit in Hc. apply N.ltb_lt in Hc.
  simpl in Henc, Hlen.
  destruct (isUnreserved c) eqn:Eu.
  { destruct (encodeURIComponent rest) as [r0|] eqn:E0; [|done].
    injection Henc as <-. apply Forall_cons_2.
    - unfold isUriSafe. by rewrite Eu.
    - apply (IH rest); [lia | done | done]. }
  destruct (isLowSurrogate c) eqn:El; [done|].
  destruct (isHighSurrogate c) eqn:Eh.
  - destruct rest as [|d rest']; [done|].
    destruct (isLowSurrogate d) eqn:Ed; [|done].
    destruct (encodeURIComponent rest') as [r0|] eqn:E0; [|done].
    injection Henc as <-.
    apply Forall_cons in Hrest as [Hd Hrest'].
    apply Forall_app. split.
    + apply escapeCodePoint_safe.
      unfold isHighSurrogate in Eh. unfold isLowSurrogate in Ed.
      apply andb_true_iff in Eh as [Eh1 Eh2].
      apply andb_true_iff in Ed as [Ed1 Ed2].
      apply N.leb_le in Eh1, Eh2, Ed1, Ed2. lia.
    + apply (IH rest'); [simpl in Hlen; lia | done | done].
  - destruct (encodeURIComponent rest) as [r0|] eqn:E0; [|done].
    injection Henc as <-. apply Forall_app. split.
    + apply escapeCodePoint_safe. lia.
    + apply (IH rest); [lia | done | done].
Qed.

(** Whatever is encoded holds unreserved characters and percent signs
    only. *)
Lemma encode_safe s r :
  Forall (λ c, isCodeUnit c = true) s →
  encodeURIComponent s = Some r →
  Forall (λ c, isUriSafe c = true) r.
Proof. by apply (encode_safe_bounded (length s)). Qed.

Lemma occurrences_app c s t :
  occurrences c (s ++ t) = (occurrences c s + occurrences c t)%nat.
Proof. unfold occurrences. by rewrite filter_app, length_app. Qed.

Lemma occurrences_safe c s :
  isUriSafe c = false → Forall (λ d, isUriSafe d = true) s →
  occurrences c s = 0%nat.
Proof.
  intros Hc Hs. unfold occurrences.
  induction Hs as [|d s Hd Hs IH]; [done|].
  rewrite filter_cons_False by congruence. exact IH.
Qed.

Lemma lit_code_units s : Forall (λ c, isCodeUnit c = true) (lit s).
Proof.
  induction s as [|a s IH]; [done|]. simpl. apply Forall_cons_2; [|exact IH].
  unfold isCodeUnit. apply N.ltb_lt.
  pose proof (N_ascii_bounded a). lia.
Qed.

Lemma composed_code_units a :
  codeUnitAnswers a →
  Forall (λ c, isCodeUnit c = true) (composeSubject a)
  ∧ Forall (λ c, isCodeUnit c = true) (composeBody a).
Proof.
  unfold codeUnitAnswers. rewrite !Forall_app.
  intros (Hw & Hs & Hn & He & Ht).
  assert (Hdash : Forall (λ c, isCodeUnit c = true) dashSeparator)
    by (by repeat constructor).
  assert (Hnl : Forall (λ c, isCodeUnit c = true) newline)
    by (by repeat constructor).
  unfold composeSubject, composeBody. split.
  - rewrite !Forall_app. repeat split; try done; apply lit_code_units.
  - rewrite !Forall_app. repeat split; try done; try apply lit_code_units.
    destruct (falsy (note a)); [done|].
    rewrite !Forall_app. repeat split; try done; apply lit_code_units.
Qed.

(** X8.  The link handed to the mail client is well formed whatever the
    user typed.  When the composition succeeds on answers made of code
    units, the link is the fixed prefix with the recipient, the encoded
    subject, "&body=" and the encoded body; subject and body hold only
    unreserved characters and percent signs, so the link has exactly one
    '?' and one '&' and neither a '#' nor a space. *)
Theorem mailto_link_well_formed (a : answersT) (mailtoLink : jsstring) :
  codeUnitAnswers a →
  composeMailto a = Some mailtoLink →
  ∃ subject body,
    encodeURIComponent (composeSubject a) = Some subject
    ∧ encodeURIComponent (composeBody a) = Some body
    ∧ mailtoLink
      = lit "mailto:azlanallahwala@gmail.com?subject=" ++ subject
          ++ lit "&body=" ++ body
    ∧ Forall (λ c, isUriSafe c = true) subject
    ∧ Forall (λ c, isUriSafe c = true) body
    ∧ occurrences 63 mailtoLink = 1%nat
    ∧ occurrences 38 mailtoLink = 1%nat
    ∧ occurrences 35 mailtoLink = 0%nat
    ∧ occurrences 32 mailtoLink = 0%nat.
Proof.
  intros Hcu Hlink. unfold composeMailto in Hlink.
  destruct (composed_code_units a Hcu) as [Hsu Hbo].
  destruct (encodeURIComponent (composeSubject a)) as [subject|] eqn:Es;
    [|done].
  destruct (encodeURIComponent (composeBody a)) as [body|] eqn:Eb; [|done].
  assert (El : mailtoLink
               = lit "mailto:" ++ recipient ++ lit "?subject=" ++ subject
                   ++ lit "&body=" ++ body) by congruence.
  clear Hlink. subst mailtoLink.
  pose proof (encode_safe _ _ Hsu Es) as Hss.
  pose proof (encode_safe _ _ Hbo Eb) as Hbs.
  exists subject, body. repeat apply conj; try done.
  - rewrite !occurrences_app, (occurrences_safe 63 subject),
      (occurrences_safe 63 body) by done. reflexivity.
  - rewrite !occurrences_app, (occurrences_safe 38 subject),
      (occurrences_safe 38 body) by done. reflexivity.
  - rewrite !occurrences_app, (occurrences_safe 35 subject),
      (occurrences_safe 35 body) by done. reflexivity.
  - rewrite !occurrences_app, (occurrences_safe 32 subject),
      (occurrences_safe 32 body) by done. reflexivity.
Qed.

(** A name with '&', '?' and '#' in it, and a two-line note. *)
Lemma mailto_link_well_formed_witness :
  let a := {| work := lit "R&D"; source := lit "a friend";
              name := lit "Q&A? #1"; email := lit "q@a.io";
              note := lit "line one" ++ [10] ++ lit "line two" |} in
  codeUnitAnswers a
  ∧ ∃ mailtoLink, composeMailto a = Some mailtoLink
                  ∧ occurrences 38 mailtoLink = 1%nat.
Proof.
  set (a := {| work := lit "R&D"; source := lit "a friend";
               name := lit "Q&A? #1"; email := lit "q@a.io";
               note := lit "line one" ++ [10] ++ lit "line two" |}).
  assert (Hcu : codeUnitAnswers a).
  { unfold codeUnitAnswers. apply Forall_forall. intros c Hc.
    apply list_elem_of_In in Hc. revert c Hc.
    apply forallb_forall. vm_compute. reflexivity. }
  split; [exact Hcu|].
  destruct (composeMailto a) as [l|] eqn:El; [|by vm_compute in El].
  exists l. split; [done|].
  destruct (mailto_link_well_formed a l Hcu El)
    as (subject & body & _ & _ & _ & _ & _ & _ & H & _).
  exact H.
Defined.

(** ** Submissions and surrogates *)

(** Off the surrogate range the encoding goes unit by unit and cannot
    fail. *)
Lemma encode_plain s :
  Forall (λ c, isSurrogate c = false) s →
  encodeURIComponent s = Some (concat (encodeUnit <$> s)).
Proof.
  induction 1 as [|c s Hc Hs IH]; [done|].
  unfold isSurrogate in Hc. apply orb_false_iff in Hc as [Hh Hl].
  simpl. rewrite IH, Hl, Hh. unfold encodeUnit.
  by destruct (isUnreserved c).
Qed.

Lemma lit_plain s : Forall (λ c, isSurrogate c = false) (lit s).
Proof.
  induction s as [|a s IH]; [done|]. simpl. apply Forall_cons_2; [|exact IH].
  pose proof (N_ascii_bounded a) as Ha.
  unfold isSurrogate, isHighSurrogate, isLowSurrogate.
  rewrite (proj2 (N.leb_gt 55296 _)) by lia.
  rewrite (proj2 (N.leb_gt 56320 _)) by lia. done.
Qed.

Lemma composeMailto_plain a :
  plainAnswers a → is_Some (composeMailto a).
Proof.
  unfold plainAnswers. rewrite !Forall_app.
  intros (Hw & Hs & Hn & He & Ht).
  assert (Hdash : Forall (λ c, isSurrogate c = false) dashSeparator)
    by (by repeat constructor).
  assert (Hnl : Forall (λ c, isSurrogate c = false) newline)
    by (by repeat constructor).
  assert (Hsu : Forall (λ c, isSurrogate c = false) (composeSubject a)).
  { unfold composeSubject. rewrite !Forall_app.
    repeat split; try done; apply lit_plain. }
  assert (Hbo : Forall (λ c, isSurrogate c = false) (composeBody a)).
  { unfold composeBody. rewrite !Forall_app.
    repeat split; try done; try apply lit_plain.
    destruct (falsy (note a)); [done|].
    rewrite !Forall_app. repeat split; try done; apply lit_plain. }
  unfold composeMailto.
  rewrite (encode_plain _ Hsu), (encode_plain _ Hbo). by eexists.
Qed.

(** X9.  What the encoding does to an accepted submission.  If the
    values to commit hold no surrogate code unit the composition cannot
    fail: the submission goes through, the step is hidden and the closing
    timer is set.  If the composition fails (a lone surrogate makes
    encodeURIComponent throw) the handler stops after it has written the
    answers: name, email and note are committed, but no turn is added, no
    timer is set and the session stays at Details. *)
Theorem send_and_encoding (st : state) :
  validDetails st = true →
  (plainAnswers (committed st) →
     ∃ mailtoLink,
       composeMailto (committed st) = Some mailtoLink
       ∧ timers (onSendClick st)
         = timers st ++ [{| due := (now st + 400)%nat;
                            task := AfterSend (nextNode st) mailtoLink |}]
       ∧ active (onSendClick st) = None)
  ∧ (composeMailto (committed st) = None →
       onSendClick st = setAnswers (committed st) st
       ∧ answers (onSendClick st) = committed st
       ∧ atDetails (onSendClick st) = atDetails st
       ∧ transcript (onSendClick st) = transcript st
       ∧ timers (onSendClick st) = timers st).
Proof.
  intros Hv. rewrite (onSendClick_accepted st Hv). split.
  - intros Hp. destruct (composeMailto_plain _ Hp) as [l Hl].
    rewrite Hl. by exists l.
  - intros Hnone. by rewrite Hnone.
Qed.

(** Half of a surrogate pair as the name: the answers are written and
    the form stays where it was. *)
Lemma send_and_encoding_witness :
  let st := setEmailValue (lit "a@b.com")
              (setNameValue [55357]
                 (setActive (Some Step3)
                    (setFormActive true initConvoForm))) in
  validDetails st = true
  ∧ composeMailto (committed st) = None
  ∧ name (answers (onSendClick st)) = [55357]
  ∧ atDetails (onSendClick st) = true.
Proof.
  split; [vm_compute; reflexivity|]. split; [vm_compute; reflexivity|].
  destruct (send_and_encoding
              (setEmailValue (lit "a@b.com")
                 (setNameValue [55357]
                    (setActive (Some Step3)
                       (setFormActive true initConvoForm)))))
    as [_ H]; [vm_compute; reflexivity|].
  destruct H as (_ & Ha & Hd & _); [vm_compute; reflexivity|].
  split; [by rewrite Ha | by rewrite Hd].
Defined.

End SessionProperties.

(* ===================================================================== *)
(** * Properties of the single-class reveals                              *)
(* ===================================================================== *)

Section ObserversProperties.

Import Observers.

Lemma callback_marked entries st el :
  el ∈ marked (observerCallback entries st)
  ↔ el ∈ marked st ∨ (el, true) ∈ entries.
Proof.
  unfold observerCallback. revert st.
  induction entries as [|[t b] es IH]; intros st; simpl.
  - split; [by left|]. intros [H|H]; [done|]. by apply elem_of_nil in H.
  - rewrite IH, elem_of_cons. unfold onEntry. simpl.
    destruct b; simpl.
    + rewrite elem_of_union, elem_of_singleton. split.
      * intros [[H| ->]|H]; [by left | right; by left | right; by right].
      * intros [H|[H|H]]; [left; by left | | by right].
        injection H as ->. left. by right.
    + split.
      * intros [H|H]; [by left | right; by right].
      * intros [H|[H|H]]; [by left | done | by right].
Qed.

Lemma callback_observed entries st el :
  el ∈ observed (observerCallback entries st)
  ↔ el ∈ observed st ∧ (el, true) ∉ entries.
Proof.
  unfold observerCallback. revert st.
  induction entries as [|[t b] es IH]; intros st; simpl.
  - split; [|by intros [H _]]. intros H. split; [done|].
    apply not_elem_of_nil.
  - rewrite IH, not_elem_of_cons. unfold onEntry. simpl.
    destruct b; simpl.
    + rewrite elem_of_difference, elem_of_singleton. split.
      * intros [[H Hne] Hes]. split; [done|]. split; [|done]. congruence.
      * intros [H [Hne Hes]]. split; [|done]. split; [done|]. congruence.
    + split.
      * intros [H Hes]. by repeat split.
      * intros [H [_ Hes]]. by split.
Qed.

(** X10.  The three single-class reveals (pull quotes, stat callouts,
    contact bar) mark exactly what the observer reports.  After any
    notifications an element carries the class if and only if it carried
    it before or some entry reported it as intersecting, and it is still
    observed if and only if it was observed and no entry did; an entry
    that is not intersecting changes nothing.  Started without the
    observer, or with reduced motion, every element carries the class at
    once and nothing is observed. *)
Theorem class_reveal_follows_reports (st : state)
    (batches : list (list (elem * bool))) (el : elem) :
  (el ∈ marked (run st batches) ↔ el ∈ marked st ∨ reported el batches)
  ∧ (el ∈ observed (run st batches)
     ↔ el ∈ observed st ∧ ¬ reported el batches)
  ∧ (∀ target, onEntry st (target, false) = st)
  ∧ (∀ hasObserver reduced marked0 els,
       negb hasObserver || reduced = true →
       let st0 := initClassReveal hasObserver reduced marked0 els in
       (∀ x, x ∈ els → x ∈ marked st0) ∧ observed st0 = ∅).
Proof.
  split; [|split; [|split]].
  - unfold run, reported. revert st.
    induction batches as [|b bs IH]; intros st; simpl.
    + split; [by left|]. intros [H|(e & H & _)]; [done|].
      by apply elem_of_nil in H.
    + rewrite IH, callback_marked. split.
      * intros [[H|H]|(e & He & H)].
        -- by left.
        -- right. exists b. split; [left | done].
        -- right. exists e. split; [by right | done].
      * intros [H|(e & He & H)]; [left; by left|].
        apply elem_of_cons in He as [->|He].
        -- left. by right.
        -- right. by exists e.
  - unfold run, reported. revert st.
    induction batches as [|b bs IH]; intros st; simpl.
    + split; [|by intros [H _]]. intros H. split; [done|].
      intros (e & He & _). by apply elem_of_nil in He.
    + rewrite IH, callback_observed. split.
      * intros [[H Hb] Hbs]. split; [done|].
        intros (e & He & Hin). apply elem_of_cons in He as [->|He]; [done|].
        apply Hbs. by exists e.
      * intros [H Hn]. split; [split; [done|]|].
        -- intros Hin. apply Hn. exists b. split; [left | done].
        -- intros (e & He & Hin). apply Hn. exists e. split; [by right|done].
  - done.
  - intros hasObserver reduced marked0 els Hd st0. subst st0.
    unfold initClassReveal. destruct els as [|x xs].
    + split; [|done]. intros y Hy. by apply elem_of_nil in Hy.
    + rewrite Hd. simpl. split; [|done]. intros y Hy.
      apply elem_of_union_r. rewrite <- list_to_set_cons.
      by apply elem_of_list_to_set.
Qed.

(** The contact bar without the observer. *)
Lemma class_reveal_follows_reports_witness :
  let st0 := initContactBarReveal false false ∅ (Some 7%nat) in
  negb false || false = true ∧ 7%nat ∈ marked st0 ∧ observed st0 = ∅.
Proof.
  split; [reflexivity|].
  destruct (class_reveal_follows_reports
              (initContactBarReveal false false ∅ (Some 7%nat)) [] 7%nat)
    as (_ & _ & _ & H).
  destruct (H false false ∅ [7%nat] eq_refl) as [Hm Ho].
  split; [apply Hm; by left | exact Ho].
Defined.

End ObserversProperties.

(* ===================================================================== *)
(** * Properties of the navigation                                        *)
(* ===================================================================== *)

Section NavProperties.

Import Convo Nav.
Local Open Scope N_scope.

(** ** The mobile menu *)

Lemma runMenu_app wired m evs1 evs2 :
  runMenu wired m (evs1 ++ evs2) = runMenu wired (runMenu wired m evs1) evs2.
Proof. unfold runMenu. apply foldl_app. Qed.

Lemma toggles_from_closed n :
  runMenu true menuClosed (replicate n ToggleClick)
  = if Nat.odd n then menuOpen else menuClosed.
Proof.
  induction n as [|n IH]; [done|].
  replace (replicate (S n) ToggleClick)
    with (replicate n ToggleClick ++ [ToggleClick])
    by (by rewrite <- replicate_cons_app).
  rewrite runMenu_app, IH, Nat.odd_succ, <- Nat.negb_odd.
  by destruct (Nat.odd n).
Qed.

(** X11.  The mobile menu.  The three classes the toggle flips (on the
    button, on the menu, on the body) stay equal from a closed menu on,
    whatever is clicked; two clicks on the toggle undo each other in any
    state; a click on a link closes the menu whatever its state, so that
    after a link click and [n] toggle clicks the menu is open exactly when
    [n] is odd.  With the button or the menu missing nothing ever
    changes. *)
Theorem mobile_menu (m : menu) (evs : list menuEvent) (n : nat) :
  (let m' := runMenu true menuClosed evs in
   toggleActive m' = menuActive m' ∧ bodyNavOpen m' = menuActive m')
  ∧ onToggleClick (onToggleClick m) = m
  ∧ runMenu true m (evs ++ [LinkClick] ++ replicate n ToggleClick)
    = (if Nat.odd n then menuOpen else menuClosed)
  ∧ runMenu false m evs = m.
Proof.
  split; [|split; [|split]].
  - assert (H : ∀ m0, toggleActive m0 = menuActive m0
                      ∧ bodyNavOpen m0 = menuActive m0 →
                let m' := runMenu true m0 evs in
                toggleActive m' = menuActive m'
                ∧ bodyNavOpen m' = menuActive m').
    { induction evs as [|ev evs IH]; intros m0 Hm0; [done|].
      simpl. apply IH. destruct Hm0 as [H1 H2].
      destruct ev; simpl; [by rewrite H1, H2 | done]. }
    by apply H.
  - destruct m as [[] [] []]; done.
  - rewrite !runMenu_app.
    change (runMenu true (runMenu true m evs) [LinkClick]) with menuClosed.
    apply toggles_from_closed.
  - induction evs as [|ev evs IH]; [done|]. simpl. exact IH.
Qed.

(** ** The solid bar *)

(** X12.  The solid navigation bar follows the current offset and nothing
    else: after initialisation and any scroll events the class is set
    exactly when the last offset is above 80 pixels, so it is cleared
    again when the page scrolls back; at 80 pixels it is not set.  Without
    the bar there is no class to speak of. *)
Theorem nav_solid_tracks_offset (y0 : Q) (ys : list Q) :
  runNavScroll true y0 ys
  = Some (Ticker.Qltb 80 (default y0 (last ys)))
  ∧ runNavScroll false y0 ys = None
  ∧ handleNavScroll 80 = false
  ∧ (∀ y, (80 < y)%Q ↔ handleNavScroll y = true).
Proof.
  split; [|split; [|split]].
  - unfold runNavScroll, initNavScroll.
    assert (Hh : ∀ y, handleNavScroll y = Ticker.Qltb 80 y).
    { intros y. unfold handleNavScroll. by destruct (Ticker.Qltb 80 y). }
    rewrite Hh. generalize y0. clear y0.
    induction ys as [|z zs IH]; intros y0; [done|].
    simpl. rewrite Hh, IH. destruct zs as [|w ws]; [done|].
    rewrite last_cons_cons.
    destruct (last (w :: ws)) eqn:E; [done|]. by apply last_None in E.
  - unfold runNavScroll. simpl. induction ys as [|z zs IH]; [done|].
    exact IH.
  - reflexivity.
  - intros y. unfold handleNavScroll, Ticker.Qltb.
    destruct (Qle_bool y 80) eqn:E; simpl.
    + apply Qle_bool_iff in E. split; [|done]. intros H.
      exfalso. by apply (Qlt_not_le _ _ H).
    + split; [done|]. intros _. apply Qnot_le_lt. intros H.
      apply Qle_bool_iff in H. congruence.
Qed.

(** ** The active link *)

Lemma splitFrom_nonempty sep cur s : splitFrom sep cur s ≠ [].
Proof.
  revert cur. induction s as [|c s IH]; intros cur; simpl; [done|].
  destruct (c =? sep); [done | apply IH].
Qed.

Lemma splitFrom_plain sep cur s :
  sep ∉ s → splitFrom sep cur s = [cur ++ s].
Proof.
  revert cur. induction s as [|c s IH]; intros cur Hs; simpl.
  - by rewrite app_nil_r.
  - apply not_elem_of_cons in Hs as [Hc Hs].
    destruct (c =? sep) eqn:E; [apply N.eqb_eq in E; congruence|].
    rewrite IH by done. by rewrite <- app_assoc.
Qed.

(** The last piece is what follows the last separator. *)
Lemma splitFrom_last sep cur dir file :
  sep ∉ file →
  last (splitFrom sep cur (dir ++ sep :: file)) = Some file.
Proof.
  intros Hf. revert cur. induction dir as [|c dir IH]; intros cur; simpl.
  - rewrite N.eqb_refl, splitFrom_plain by done. done.
  - destruct (c =? sep); [|apply IH].
    pose proof (splitFrom_nonempty sep [] (dir ++ sep :: file)) as Hne.
    specialize (IH []).
    destruct (splitFrom sep [] (dir ++ sep :: file)); [done|].
    by rewrite last_cons_cons.
Qed.

Lemma splitFrom_pieces sep cur s :
  sep ∉ cur → Forall (λ piece, sep ∉ piece) (splitFrom sep cur s).
Proof.
  revert cur. induction s as [|c s IH]; intros cur Hcur; simpl.
  - by apply Forall_singleton.
  - destruct (c =? sep) eqn:E.
    + apply Forall_cons_2; [done|]. apply IH. apply not_elem_of_nil.
    + apply IH. rewrite elem_of_app, list_elem_of_singleton.
      intros [H| ->]; [done|]. by rewrite N.eqb_refl in E.
Qed.

Lemma currentFile_no_slash fullPath :
  currentFile fullPath ≠ [] ∧ slash ∉ currentFile fullPath.
Proof.
  assert (Hindex : lit "index.html" ≠ [] ∧ slash ∉ lit "index.html").
  { split; [done|].
    apply (bool_decide_eq_false_1 (slash ∈ lit "index.html")).
    vm_compute. reflexivity. }
  unfold currentFile, split.
  destruct (last (splitFrom slash [] fullPath)) as [file|] eqn:E;
    [|exact Hindex].
  destruct (falsy file) eqn:Ef; [exact Hindex|].
  split; [by destruct file|].
  apply last_Some_elem_of in E.
  pose proof (splitFrom_pieces slash [] fullPath (not_elem_of_nil _)) as Hp.
  rewrite Forall_forall in Hp. by apply Hp.
Qed.

(** X13.  The active navigation link.  The current file is what follows
    the last slash of the path, or index.html when nothing follows it (or
    the path is empty); it is never empty and holds no slash.  Outside a
    blog directory a link is made active exactly when its href equals the
    current file.  Inside one, the links to blog.html and ../blog.html
    are made active whatever the file is; and a link whose href holds a
    slash is never made active but by that rule. *)
Theorem active_nav_link (fullPath : jsstring) :
  currentFile fullPath ≠ []
  ∧ (slash ∉ currentFile fullPath)
  ∧ (∀ dir file, slash ∉ file → file ≠ [] →
       currentFile (dir ++ slash :: file) = file)
  ∧ (∀ dir, currentFile (dir ++ [slash]) = lit "index.html")
  ∧ currentFile [] = lit "index.html"
  ∧ (isInBlogDir fullPath = false →
       ∀ href, activates fullPath href = true
               ↔ href = Some (currentFile fullPath))
  ∧ (isInBlogDir fullPath = true →
       activates fullPath (Some (lit "blog.html")) = true
       ∧ activates fullPath (Some (lit "../blog.html")) = true)
  ∧ (∀ href, activates fullPath (Some href) = true → slash ∈ href →
       isInBlogDir fullPath = true ∧ href = lit "../blog.html").
Proof.
  destruct (currentFile_no_slash fullPath) as [Hne Hns].
  repeat apply conj; try done.
  - intros dir file Hf Hfe. unfold currentFile, split.
    rewrite splitFrom_last by done. by destruct file.
  - intros dir. unfold currentFile, split.
    by rewrite splitFrom_last by apply not_elem_of_nil.
  - intros Hb href. unfold activates. rewrite Hb. simpl.
    destruct (bool_decide (href = Some (currentFile fullPath))) eqn:E.
    + by apply bool_decide_eq_true in E.
    + apply bool_decide_eq_false in E. done.
  - intros Hb. unfold activates. by rewrite Hb.
  - intros href Ha Hs. unfold activates in Ha.
    assert (Hblog : slash ∉ lit "blog.html").
    { apply (bool_decide_eq_false_1 (slash ∈ lit "blog.html")).
      vm_compute. reflexivity. }
    destruct (isInBlogDir fullPath) eqn:Hb;
      repeat case_bool_decide; simplify_eq; done.
Qed.

(** A page of the blog directory and the link to the blog. *)
Lemma active_nav_link_witness :
  let fullPath := lit "/blog/first-post.html" in
  isInBlogDir fullPath = true
  ∧ currentFile fullPath = lit "first-post.html"
  ∧ activates fullPath (Some (lit "../blog.html")) = true.
Proof.
  split; [vm_compute; reflexivity|]. split; [vm_compute; reflexivity|].
  destruct (active_nav_link (lit "/blog/first-post.html"))
    as (_ & _ & _ & _ & _ & _ & H & _).
  by destruct H as [_ H]; [vm_compute; reflexivity|].
Defined.

End NavProperties.

(* ====================================================================== *)
(** * Properties of the lightbox *)

Section LightboxProperties.
Import Convo Lightbox.

Lemma galleryItems_length p : length (galleryItems p) = length (triggers p).
Proof. unfold galleryItems. by rewrite length_fmap. Qed.

Lemma openLightbox_index p st :
  currentIndex (openLightbox p st) = currentIndex st.
Proof.
  unfold openLightbox. destruct (galleryItems p); [done|].
  destruct (currentIndex st ≫= _); [done|].
  by destruct (lightboxImg p || lightboxCaption p).
Qed.

Lemma openLightbox_empty p st : triggers p = [] → openLightbox p st = st.
Proof. intros H. unfold openLightbox, galleryItems. by rewrite H. Qed.

Lemma openLightbox_invariant p st :
  (triggers p ≠ [] → inRange p st) →
  (triggers p = [] → active st = false) →
  bodyOverflow st = (if active st then lit "hidden" else []) →
  (triggers p = [] → active st = true → showsCurrent p st) →
  lightboxInvariant p (openLightbox p st).
Proof.
  intros Hr He Ho Hs.
  destruct (triggers p) as [|t ts] eqn:Et.
  - rewrite openLightbox_empty by done.
    unfold lightboxInvariant. rewrite Et. repeat apply conj; try done.
    intros Ha. by rewrite He in Ha.
  - destruct Hr as (i & Hi & Hlt); [done|].
    assert (Hitem : is_Some (galleryItems p !! i)).
    { apply lookup_lt_is_Some. by rewrite galleryItems_length. }
    destruct Hitem as [item Hitem].
    unfold openLightbox.
    destruct (galleryItems p) as [|g gs] eqn:Eg.
    { pose proof (galleryItems_length p) as Hl. by rewrite Eg, Et in Hl. }
    rewrite Hi. simpl. rewrite Hitem.
    unfold lightboxInvariant. rewrite Et. simpl.
    repeat apply conj; try done.
    + intros _. by exists i.
    + intros _. exists i, item. simpl. rewrite Eg.
      repeat apply conj; try done.
      * by intros ->.
      * by intros ->.
Qed.

Lemma closeLightbox_invariant p st :
  lightboxInvariant p st → lightboxInvariant p (closeLightbox st).
Proof.
  intros (Hr & He & Ho & Hs). unfold lightboxInvariant, closeLightbox.
  repeat apply conj; try done.
Qed.

Lemma nextIndex_inRange p st :
  triggers p ≠ [] → inRange p st →
  inRange p (setIndex (nextIndex p st) st).
Proof.
  intros Hne (i & Hi & Hlt). unfold inRange, nextIndex.
  rewrite Hi, galleryItems_length.
  destruct (length (triggers p)) as [|n] eqn:En; [lia|].
  eexists; split; [reflexivity|]. apply Nat.mod_upper_bound. lia.
Qed.

Lemma prevIndex_inRange p st :
  triggers p ≠ [] → inRange p st →
  inRange p (setIndex (prevIndex p st) st).
Proof.
  intros Hne (i & Hi & Hlt). unfold inRange, prevIndex.
  rewrite Hi, galleryItems_length.
  destruct (length (triggers p)) as [|n] eqn:En; [lia|].
  eexists; split; [reflexivity|]. apply Nat.mod_upper_bound. lia.
Qed.

Lemma moved_invariant p st idx :
  lightboxInvariant p st →
  (triggers p ≠ [] → inRange p (setIndex idx st)) →
  lightboxInvariant p (openLightbox p (setIndex idx st)).
Proof.
  intros (Hr & He & Ho & Hs) Hidx.
  apply openLightbox_invariant; try done.
  intros Hemp Ha. simpl in Ha. by rewrite He in Ha.
Qed.

Lemma step_invariant p st ev :
  lightboxInvariant p st → lightboxInvariant p (step p st ev).
Proof.
  intros Hinv. unfold step. destruct (lightbox p); [|done].
  pose proof Hinv as (Hr & He & Ho & Hs).
  destruct ev as [index| | | |onItself|k].
  - case_bool_decide; [|done]. apply moved_invariant; [done|].
    intros _. by exists index.
  - destruct (lightboxClose p); [|done]. by apply closeLightbox_invariant.
  - destruct (lightboxPrev p); [|done]. apply moved_invariant; [done|].
    intros Hne. apply prevIndex_inRange; auto.
  - destruct (lightboxNext p); [|done]. apply moved_invariant; [done|].
    intros Hne. apply nextIndex_inRange; auto.
  - destruct onItself; [|done]. by apply closeLightbox_invariant.
  - unfold onKeyDown. destruct (active st); [|done].
    destruct k; [|..|done].
    + by apply closeLightbox_invariant.
    + apply moved_invariant; [done|].
      intros Hne. apply nextIndex_inRange; auto.
    + apply moved_invariant; [done|].
      intros Hne. apply prevIndex_inRange; auto.
Qed.

Lemma run_invariant p st evs :
  lightboxInvariant p st → lightboxInvariant p (run p st evs).
Proof.
  revert st. induction evs as [|ev evs IH]; intros st Hinv; [done|].
  simpl. apply IH. by apply step_invariant.
Qed.

Lemma init_invariant p background text :
  lightboxInvariant p (initLightbox false [] background text).
Proof.
  unfold lightboxInvariant. repeat apply conj; try done.
  intros Hne. exists 0%nat. split; [done|].
  destruct (triggers p); [done|simpl; lia].
Qed.

(** X14.  The index of the lightbox.  On a page with at least one
    trigger, whatever is clicked or pressed, the current index names an
    item of the gallery; on a page with none, the lightbox is never
    opened. *)
Theorem lightbox_index_in_range (p : page) (background text : jsstring)
    (evs : list event) :
  let st := run p (initLightbox false [] background text) evs in
  (triggers p ≠ [] →
     ∃ i item, currentIndex st = Some i ∧ galleryItems p !! i = Some item)
  ∧ (triggers p = [] → active st = false).
Proof.
  intros st.
  destruct (run_invariant p _ evs (init_invariant p background text))
    as (Hr & He & _ & _).
  split; [|done].
  intros Hne. destruct (Hr Hne) as (i & Hi & Hlt).
  assert (Hitem : is_Some (galleryItems p !! i)).
  { apply lookup_lt_is_Some. by rewrite galleryItems_length. }
  destruct Hitem as [item Hitem]. by exists i, item.
Qed.

(** A gallery of two, the second trigger clicked and the next button
    pressed: the index is back at the first item. *)
Lemma lightbox_index_in_range_witness :
  let p := {| lightbox := true; lightboxImg := true; lightboxCaption := true;
              lightboxClose := true; lightboxPrev := true;
              lightboxNext := true;
              triggers := [ {| dataLightbox := lit "url(a.jpg)";
                               dataCaption := Some (lit "Harbour") |};
                            {| dataLightbox := lit "url(b.jpg)";
                               dataCaption := None |} ] |} in
  ∃ i item,
    currentIndex (run p (initLightbox false [] [] [])
                    [TriggerClick 1; NextClick]) = Some i
    ∧ galleryItems p !! i = Some item.
Proof.
  intros p.
  destruct (lightbox_index_in_range p [] [] [TriggerClick 1; NextClick])
    as [H _].
  apply H. vm_compute. discriminate.
Defined.

(** X15.  What the open lightbox shows.  Starting from a closed lightbox
    and a page that scrolls, after any clicks and key presses the page is
    locked against scrolling exactly while the lightbox is open, and an
    open lightbox shows the item at the current index: its caption in the
    caption element and its source, or the fallback colour when the
    source is empty, as the image's background. *)
Theorem lightbox_shows_current (p : page) (background text : jsstring)
    (evs : list event) :
  let st := run p (initLightbox false [] background text) evs in
  bodyOverflow st = (if active st then lit "hidden" else [])
  ∧ (active st = true →
       ∃ i item,
         currentIndex st = Some i
         ∧ galleryItems p !! i = Some item
         ∧ (lightboxImg p = true →
              imgBackground st
              = if falsy (src item) then lit "var(--bg-tertiary)"
                else src item)
         ∧ (lightboxCaption p = true → captionText st = caption item)).
Proof.
  intros st.
  destruct (run_invariant p _ evs (init_invariant p background text))
    as (_ & _ & Ho & Hs).
  split; [done|]. intros Ha. exact (Hs Ha).
Qed.

(** The second item of a gallery of two, which has no caption. *)
Lemma lightbox_shows_current_witness :
  let p := {| lightbox := true; lightboxImg := true; lightboxCaption := true;
              lightboxClose := true; lightboxPrev := true;
              lightboxNext := true;
              triggers := [ {| dataLightbox := lit "url(a.jpg)";
                               dataCaption := Some (lit "Harbour") |};
                            {| dataLightbox := [];
                               dataCaption := None |} ] |} in
  let st := run p (initLightbox false [] [] (lit "old"))
              [TriggerClick 0; KeyDown ArrowRight] in
  ∃ i item,
    currentIndex st = Some i
    ∧ galleryItems p !! i = Some item
    ∧ (lightboxImg p = true →
         imgBackground st
         = if falsy (src item) then lit "var(--bg-tertiary)" else src item)
    ∧ (lightboxCaption p = true → captionText st = caption item).
Proof.
  intros p st.
  destruct (lightbox_shows_current p [] (lit "old")
              [TriggerClick 0; KeyDown ArrowRight]) as [_ H].
  apply H. vm_compute. reflexivity.
Defined.

Lemma next_index p st i :
  lightbox p = true → lightboxNext p = true →
  currentIndex st = Some i → (i < length (triggers p))%nat →
  currentIndex (step p st NextClick)
  = Some ((i + 1) mod length (triggers p))%nat.
Proof.
  intros Hl Hn Hi Hlt. unfold step. rewrite Hl, Hn.
  unfold nextImage. rewrite openLightbox_index. simpl.
  unfold nextIndex. rewrite Hi, galleryItems_length.
  destruct (length (triggers p)); [lia|done].
Qed.

Lemma prev_index p st i :
  lightbox p = true → lightboxPrev p = true →
  currentIndex st = Some i → (i < length (triggers p))%nat →
  currentIndex (step p st PrevClick)
  = Some ((i + length (triggers p) - 1) mod length (triggers p))%nat.
Proof.
  intros Hl Hn Hi Hlt. unfold step. rewrite Hl, Hn.
  unfold prevImage. rewrite openLightbox_index. simpl.
  unfold prevIndex. rewrite Hi, galleryItems_length.
  destruct (length (triggers p)); [lia|done].
Qed.

Lemma next_index_iter p k : ∀ st i,
  lightbox p = true → lightboxNext p = true →
  currentIndex st = Some i → (i < length (triggers p))%nat →
  currentIndex (run p st (replicate k NextClick))
  = Some ((i + k) mod length (triggers p))%nat.
Proof.
  induction k as [|k IH]; intros st i Hl Hn Hi Hlt; simpl.
  - rewrite Nat.add_0_r, Nat.mod_small by done. done.
  - rewrite (IH _ ((i + 1) mod length (triggers p))%nat); try done.
    + f_equal. rewrite Nat.Div0.add_mod_idemp_l. f_equal. lia.
    + by apply next_index.
    + apply Nat.mod_upper_bound. lia.
Qed.

(** X16.  The gallery is a cycle.  With the two arrows in place and an
    index that names an item, [k] presses of next move the index [k]
    places forward round the gallery, so as many presses as there are
    items bring it back; and previous undoes next, as next undoes
    previous. *)
Theorem lightbox_cycle (p : page) (st : state) (i k : nat) :
  lightbox p = true → lightboxNext p = true → lightboxPrev p = true →
  currentIndex st = Some i → (i < length (triggers p))%nat →
  currentIndex (run p st (replicate k NextClick))
  = Some ((i + k) mod length (triggers p))%nat
  ∧ currentIndex (run p st (replicate (length (triggers p)) NextClick))
    = Some i
  ∧ currentIndex (run p st [NextClick; PrevClick]) = Some i
  ∧ currentIndex (run p st [PrevClick; NextClick]) = Some i.
Proof.
  intros Hl Hn Hp Hi Hlt.
  set (n := length (triggers p)) in *.
  repeat apply conj.
  - by apply next_index_iter.
  - rewrite (next_index_iter p n st i) by done. fold n. f_equal.
    rewrite <- Nat.Div0.add_mod_idemp_r, Nat.Div0.mod_same, Nat.add_0_r.
    by apply Nat.mod_small.
  - simpl.
    rewrite (prev_index p _ ((i + 1) mod n)%nat); try done.
    + fold n. f_equal.
      destruct (decide (i + 1 = n)%nat) as [E|E].
      * rewrite E, Nat.Div0.mod_same. rewrite Nat.mod_small; lia.
      * rewrite (Nat.mod_small (i + 1)) by lia.
        replace (i + 1 + n - 1)%nat with (i + 1 * n)%nat by lia.
        rewrite Nat.Div0.mod_add. by apply Nat.mod_small.
    + by apply next_index.
    + apply Nat.mod_upper_bound. lia.
  - simpl.
    rewrite (next_index p _ ((i + n - 1) mod n)%nat); try done.
    + fold n. f_equal. rewrite Nat.Div0.add_mod_idemp_l.
      replace (i + n - 1 + 1)%nat with (i + 1 * n)%nat by lia.
      rewrite Nat.Div0.mod_add. by apply Nat.mod_small.
    + by apply prev_index.
    + apply Nat.mod_upper_bound. lia.
Qed.

(** Three items, the last one current, five presses of next. *)
Lemma lightbox_cycle_witness :
  let item := {| dataLightbox := lit "url(a.jpg)"; dataCaption := None |} in
  let p := {| lightbox := true; lightboxImg := false;
              lightboxCaption := false; lightboxClose := false;
              lightboxPrev := true; lightboxNext := true;
              triggers := [item; item; item] |} in
  let st := setIndex (Some 2%nat) (initLightbox false [] [] []) in
  currentIndex (run p st (replicate 5 NextClick)) = Some 1%nat
  ∧ currentIndex (run p st [NextClick; PrevClick]) = Some 2%nat.
Proof.
  intros item p st.
  destruct (lightbox_cycle p st 2 5) as (H1 & _ & H2 & _);
    try (vm_compute; reflexivity).
  split; [exact H1 | exact H2].
Defined.

End LightboxProperties.

(* ====================================================================== *)
(** * Properties of the gallery filter *)

Section GalleryFilterProperties.
Import Convo GalleryFilter.

Lemma cleared_filters (l : list button) :
  dataFilter <$> (setActive false <$> l) = dataFilter <$> l.
Proof. rewrite <- list_fmap_compose. by apply list_fmap_ext. Qed.

Lemma marked_filters i (l : list button) :
  dataFilter <$> alter (setActive true) i (setActive false <$> l)
  = dataFilter <$> l.
Proof.
  revert i. induction l as [|b l IH]; intros [|i]; simpl; try done.
  - f_equal. apply cleared_filters.
  - f_equal. apply IH.
Qed.

Lemma marked_active i (l : list button) j b :
  alter (setActive true) i (setActive false <$> l) !! j = Some b →
  btnActive b = bool_decide (j = i).
Proof.
  intros H. rewrite list_lookup_alter, list_lookup_fmap in H.
  case_decide; case_bool_decide; simplify_eq;
    rewrite ?list_lookup_fmap in H;
    by destruct (l !! _); simplify_eq/=.
Qed.

Lemma onFilterClick_data i st :
  dataFilter <$> filterButtons (onFilterClick i st)
  = dataFilter <$> filterButtons st
  ∧ dataCategory <$> galleryItems (onFilterClick i st)
    = dataCategory <$> galleryItems st.
Proof.
  unfold onFilterClick. destruct (filterButtons st !! i); [|done]. simpl.
  split; [apply marked_filters|].
  rewrite <- list_fmap_compose. by apply list_fmap_ext.
Qed.

Lemma steps_data w evs : ∀ st,
  dataFilter <$> filterButtons (foldl (step w) st evs)
  = dataFilter <$> filterButtons st
  ∧ dataCategory <$> galleryItems (foldl (step w) st evs)
    = dataCategory <$> galleryItems st.
Proof.
  induction evs as [|[i] evs IH]; intros st; [done|]. simpl.
  destruct (IH (step w st (FilterClick i))) as [-> ->].
  unfold step. destruct w; [|done]. apply onFilterClick_data.
Qed.

(** X17.  The gallery filter.  Without a button or without an item
    nothing is wired and a click changes nothing.  Otherwise, after a
    click on a button, whatever was clicked before: that button and no
    other is active; an item is displayed when the button's filter is
    "all" or equals the item's category, and hidden otherwise; and no
    filter or category has changed. *)
Theorem gallery_filter (st : state) (evs : list event) (i : nat)
    (btn : button) :
  filterButtons st !! i = Some btn →
  let st' := run st (evs ++ [FilterClick i]) in
  (initGalleryFilter st = false → st' = st)
  ∧ (initGalleryFilter st = true →
       (∀ j b, filterButtons st' !! j = Some b →
               btnActive b = bool_decide (j = i))
       ∧ (∀ it, it ∈ galleryItems st' →
            display it = if shows (dataFilter btn) (dataCategory it)
                         then [] else lit "none")
       ∧ (dataFilter btn = Some (lit "all") →
            ∀ it, it ∈ galleryItems st' → display it = [])
       ∧ dataFilter <$> filterButtons st' = dataFilter <$> filterButtons st
       ∧ dataCategory <$> galleryItems st'
         = dataCategory <$> galleryItems st).
Proof.
  intros Hbtn st'. subst st'. unfold run. split; intros Hw; rewrite Hw.
  - generalize (evs ++ [FilterClick i]). intros l.
    induction l as [|ev l IH]; [done|]. simpl. apply IH.
  - rewrite foldl_app. simpl.
    destruct (steps_data true evs st) as [Hf Hc].
    set (st1 := foldl (step true) st evs) in *.
    assert (Hbtn1 : ∃ btn1, filterButtons st1 !! i = Some btn1
                            ∧ dataFilter btn1 = dataFilter btn).
    { assert (H : (dataFilter <$> filterButtons st1) !! i
                  = (dataFilter <$> filterButtons st) !! i) by by rewrite Hf.
      rewrite !list_lookup_fmap, Hbtn in H.
      destruct (filterButtons st1 !! i) as [btn1|]; [|done].
      exists btn1. split; [done|]. simpl in H. congruence. }
    destruct Hbtn1 as (btn1 & Hbtn1 & Hsame).
    assert (Hshown : ∀ it, it ∈ galleryItems (onFilterClick i st1) →
              display it = if shows (dataFilter btn) (dataCategory it)
                           then [] else lit "none").
    { intros it Hit. unfold onFilterClick in Hit. rewrite Hbtn1 in Hit.
      simpl in Hit. apply list_elem_of_fmap in Hit as (it0 & -> & _).
      simpl. by rewrite Hsame. }
    repeat apply conj.
    + intros j b Hj. unfold onFilterClick in Hj. rewrite Hbtn1 in Hj.
      simpl in Hj. by apply marked_active in Hj.
    + exact Hshown.
    + intros Hall it Hit. rewrite (Hshown it Hit). unfold shows.
      rewrite Hall. by rewrite bool_decide_eq_true_2.
    + destruct (onFilterClick_data i st1) as [-> _]. exact Hf.
    + destruct (onFilterClick_data i st1) as [_ ->]. exact Hc.
Qed.

(** Three buttons and three items; "web" is clicked, then "all", then
    "print".  The item without a category is hidden. *)
Lemma gallery_filter_witness :
  let st := {| filterButtons :=
                 [ {| dataFilter := Some (lit "all"); btnActive := true |};
                   {| dataFilter := Some (lit "web"); btnActive := false |};
                   {| dataFilter := Some (lit "print"); btnActive := false |} ];
               galleryItems :=
                 [ {| dataCategory := Some (lit "web"); display := [] |};
                   {| dataCategory := Some (lit "print"); display := [] |};
                   {| dataCategory := None; display := [] |} ] |} in
  let st' := run st [FilterClick 1; FilterClick 0; FilterClick 2] in
  Forall (λ it, display it = if shows (Some (lit "print")) (dataCategory it)
                             then [] else lit "none")
    (galleryItems st').
Proof.
  intros st st'. apply Forall_forall.
  pose proof (gallery_filter st [FilterClick 1; FilterClick 0] 2
                {| dataFilter := Some (lit "print"); btnActive := false |})
    as H.
  cbv zeta in H. destruct H as [_ H]; [reflexivity|].
  destruct H as (_ & H & _); [vm_compute; reflexivity|].
  exact H.
Defined.

End GalleryFilterProperties.

(* ====================================================================== *)
(** * Properties of the contact form *)

Section ContactFormProperties.
Import Convo Session ContactForm.

Lemma join_all (P : N → Prop) sep parts :
  Forall P sep → Forall (Forall P) parts → Forall P (join sep parts).
Proof.
  intros Hsep. induction 1 as [|part rest Hpart Hrest IH]; [done|].
  simpl. destruct rest as [|part' rest']; [done|].
  rewrite !Forall_app. done.
Qed.

Lemma optionalPart_all (P : N → Prop) label value :
  Forall P label → Forall P value →
  Forall (Forall P) (optionalPart label value).
Proof.
  intros Hl Hv. unfold optionalPart. destruct (falsy value); [done|].
  apply Forall_singleton. by rewrite Forall_app.
Qed.

(** What holds of every code unit of the values and of the fixed text
    holds of every code unit of the subject and of the body. *)
Lemma composed_all (P : N → Prop) v :
  (∀ s, Forall P (lit s)) → P emDash → P 32%N → P 10%N →
  Forall P (name v ++ email v ++ company v ++ projectType v ++ budget v
              ++ timeline v ++ message v) →
  Forall P (composeSubject v) ∧ Forall P (composeBody v).
Proof.
  intros Hlit Hdash Hsp Hnl. rewrite !Forall_app.
  intros (Hn & He & Hc & Hp & Hb & Ht & Hm).
  assert (Hnewline : Forall P newline) by (by repeat constructor).
  split.
  - unfold composeSubject, dashSeparator. rewrite !Forall_app.
    repeat split; try done. by repeat constructor.
  - unfold composeBody, bodyParts. apply join_all; [done|].
    rewrite !Forall_app. repeat split.
    + apply Forall_cons_2; [apply Hlit|].
      apply Forall_cons_2; [apply Forall_nil_2|].
      apply Forall_cons_2; [by rewrite Forall_app|].
      apply Forall_cons_2; [by rewrite Forall_app|].
      apply Forall_nil_2.
    + by apply optionalPart_all.
    + by apply optionalPart_all.
    + by apply optionalPart_all.
    + by apply optionalPart_all.
    + apply Forall_singleton. apply Forall_nil_2.
    + apply optionalPart_all; [|done]. by rewrite Forall_app.
    + apply Forall_cons_2; [apply Forall_nil_2|].
      apply Forall_singleton. apply Hlit.
Qed.

(** X18.  The link of the contact form is well formed whatever was
    typed.  When the composition succeeds on values made of code units,
    the link is the fixed prefix with the recipient, the encoded subject,
    "&body=" and the encoded body; subject and body hold only unreserved
    characters and percent signs, so the link has exactly one '?' and one
    '&' and neither a '#' nor a space. *)
Theorem contact_link_well_formed (c : controls) (mailtoLink : jsstring) :
  codeUnitValues (gather c) →
  composeMailto (gather c) = Some mailtoLink →
  ∃ subject body,
    encodeURIComponent (composeSubject (gather c)) = Some subject
    ∧ encodeURIComponent (composeBody (gather c)) = Some body
    ∧ mailtoLink
      = lit "mailto:azlanallahwala@gmail.com?subject=" ++ subject
          ++ lit "&body=" ++ body
    ∧ Forall (λ c, isUriSafe c = true) subject
    ∧ Forall (λ c, isUriSafe c = true) body
    ∧ occurrences 63 mailtoLink = 1%nat
    ∧ occurrences 38 mailtoLink = 1%nat
    ∧ occurrences 35 mailtoLink = 0%nat
    ∧ occurrences 32 mailtoLink = 0%nat.
Proof.
  intros Hcu Hlink. unfold composeMailto in Hlink.
  destruct (composed_all (λ c, isCodeUnit c = true) (gather c))
    as [Hsu Hbo]; try done.
  { apply lit_code_units. }
  destruct (encodeURIComponent (composeSubject (gather c)))
    as [subject|] eqn:Es; [|done].
  destruct (encodeURIComponent (composeBody (gather c)))
    as [body|] eqn:Eb; [|done].
  assert (El : mailtoLink
               = lit "mailto:azlanallahwala@gmail.com?subject=" ++ subject
                   ++ lit "&body=" ++ body) by congruence.
  clear Hlink. subst mailtoLink.
  pose proof (encode_safe _ _ Hsu Es) as Hss.
  pose proof (encode_safe _ _ Hbo Eb) as Hbs.
  exists subject, body. repeat apply conj; try done.
  - rewrite !occurrences_app, (occurrences_safe 63 subject),
      (occurrences_safe 63 body) by done. reflexivity.
  - rewrite !occurrences_app, (occurrences_safe 38 subject),
      (occurrences_safe 38 body) by done. reflexivity.
  - rewrite !occurrences_app, (occurrences_safe 35 subject),
      (occurrences_safe 35 body) by done. reflexivity.
  - rewrite !occurrences_app, (occurrences_safe 32 subject),
      (occurrences_safe 32 body) by done. reflexivity.
Qed.

(** A name with '&' and '?' in it, no company, and a message. *)
Lemma contact_link_well_formed_witness :
  let c := {| nameControl := Some (lit "R&D? Ltd");
              emailControl := Some (lit "rd@example.org");
              companyControl := Some [];
              projectTypeControl := Some (lit "Branding");
              budgetControl := None;
              timelineControl := Some (lit "Q3 #1");
              messageControl := Some (lit "Hello there") |} in
  ∃ mailtoLink,
    composeMailto (gather c) = Some mailtoLink
    ∧ occurrences 63 mailtoLink = 1%nat
    ∧ occurrences 38 mailtoLink = 1%nat.
Proof.
  intros c.
  destruct (composeMailto (gather c)) as [mailtoLink|] eqn:E;
    [|vm_compute in E; discriminate].
  exists mailtoLink. split; [reflexivity|].
  destruct (contact_link_well_formed c mailtoLink)
    as (subject & body & _ & _ & _ & _ & _ & H63 & H38 & _).
  - apply Forall_forall. intros x Hx. apply list_elem_of_In in Hx.
    revert x Hx. apply forallb_forall. vm_compute. reflexivity.
  - exact E.
  - split; [exact H63 | exact H38].
Defined.

Lemma filter_none_ready (t : nat) (l : list nat) :
  filter (λ due, (due ≤ t)%nat) l = [] →
  filter (λ due, ¬ (due ≤ t)%nat) l = l.
Proof.
  induction l as [|d l IH]; [done|].
  destruct (decide (d ≤ t)%nat) as [H|H].
  - by rewrite (filter_cons_True (λ due, (due ≤ t)%nat)) by done.
  - rewrite (filter_cons_False (λ due, (due ≤ t)%nat)) by done.
    rewrite (filter_cons_True (λ due, ¬ (due ≤ t)%nat)) by done.
    intros E. by rewrite IH.
Qed.

Lemma tick_resetsPending st : resetsPending st → resetsPending (tick st).
Proof.
  intros [Hdue Hface]. unfold resetsPending, tick. simpl. split.
  - apply Forall_forall. intros d Hd.
    apply list_elem_of_filter in Hd as [Hlate Hd].
    rewrite Forall_forall in Hdue. specialize (Hdue d Hd). lia.
  - destruct (filter (λ due, (due ≤ S (now st))%nat) (timers st)) eqn:E;
      [|done].
    rewrite filter_none_ready by done. exact Hface.
Qed.

Lemma onSubmit_resetsPending btn c st :
  resetsPending st → resetsPending (onSubmit btn c st).
Proof.
  intros [Hdue Hface]. unfold onSubmit.
  destruct (composeMailto (gather c)); [|done].
  destruct btn; [|done]. unfold resetsPending. simpl. split.
  - apply Forall_app. split; [done|]. apply Forall_singleton. lia.
  - intros _. by destruct (timers st).
Qed.

Lemma run_resetsPending contactForm btn evs : ∀ st,
  resetsPending st → resetsPending (run contactForm btn st evs).
Proof.
  induction evs as [|ev evs IH]; intros st Hst; [done|].
  simpl. apply IH. destruct ev as [c|]; simpl.
  - destruct contactForm; [|done]. by apply onSubmit_resetsPending.
  - by apply tick_resetsPending.
Qed.

(** Once every pending reset is due the timers run out, the button shows
    [Opening] no more, and nothing is navigated to meanwhile. *)
Lemma ticks_reset contactForm btn n : ∀ st,
  resetsPending st →
  Forall (λ due, (due ≤ now st + n)%nat) (timers st) →
  btnFace st ≠ Original →
  let st' := run contactForm btn st (replicate n Tick) in
  timers st' = [] ∧ btnFace st' = SendMessage
  ∧ navigations st' = navigations st.
Proof.
  induction n as [|n IH]; intros st Hst Hdue Hface; simpl.
  - destruct Hst as [Hlate Hopening].
    assert (Hnone : timers st = []).
    { destruct (timers st) as [|d l]; [done|].
      apply Forall_cons_1 in Hlate as [? _].
      apply Forall_cons_1 in Hdue as [? _]. lia. }
    repeat split; try done.
    destruct (btnFace st); try done. by destruct Hopening.
  - specialize (IH (tick st) (tick_resetsPending st Hst)).
    apply IH.
    + unfold tick. simpl. apply Forall_forall. intros d Hd.
      apply list_elem_of_filter in Hd as [_ Hd].
      rewrite Forall_forall in Hdue. specialize (Hdue d Hd). lia.
    + unfold tick. simpl.
      by destruct (filter (λ due, (due ≤ S (now st))%nat) (timers st)).
Qed.

(** X19.  A submission of the contact form.  The handler validates
    nothing: when the values hold no surrogate code unit (empty fields
    included) the composition succeeds, the page navigates to the link
    and the button shows that the mail client is opening.  Three seconds
    without another submission later, no reset is pending and the button
    shows "Send Message" again. *)
Theorem contact_submission (c : controls) (evs : list event) (n : nat) :
  plainValues (gather c) → (3000 ≤ n)%nat →
  let st := run true true initContactForm (evs ++ [Submit c]) in
  let st' := run true true st (replicate n Tick) in
  ∃ mailtoLink,
    composeMailto (gather c) = Some mailtoLink
    ∧ last (navigations st) = Some mailtoLink
    ∧ btnFace st = Opening
    ∧ timers st' = []
    ∧ btnFace st' = SendMessage
    ∧ navigations st' = navigations st.
Proof.
  intros Hplain Hn st st'.
  destruct (composed_all (λ c, isSurrogate c = false) (gather c))
    as [Hsu Hbo]; try done.
  { apply lit_plain. }
  assert (Hlink : ∃ mailtoLink, composeMailto (gather c) = Some mailtoLink).
  { unfold composeMailto.
    rewrite (encode_plain _ Hsu), (encode_plain _ Hbo). by eexists. }
  destruct Hlink as [mailtoLink Hlink]. exists mailtoLink.
  assert (Hinit : resetsPending initContactForm) by (by split).
  pose proof (run_resetsPending true true evs _ Hinit) as Hbefore.
  assert (Est : st = onSubmit true c (run true true initContactForm evs)).
  { unfold st, run. by rewrite foldl_app. }
  assert (Hst : resetsPending st).
  { rewrite Est. by apply onSubmit_resetsPending. }
  assert (Hface : btnFace st = Opening).
  { rewrite Est. unfold onSubmit. by rewrite Hlink. }
  split; [done|]. split.
  { rewrite Est. unfold onSubmit. rewrite Hlink. simpl. apply last_snoc. }
  split; [done|].
  apply ticks_reset; [done| |by rewrite Hface].
  destruct Hst as [Hdue _]. eapply Forall_impl; [exact Hdue|].
  simpl. intros d Hd. lia.
Qed.

(** Every field empty, submitted twice a second apart. *)
Lemma contact_submission_witness :
  let c := {| nameControl := Some []; emailControl := Some [];
              companyControl := None; projectTypeControl := Some [];
              budgetControl := None; timelineControl := None;
              messageControl := Some [] |} in
  let st := run true true initContactForm
              ([Submit c] ++ replicate 1000 Tick ++ [Submit c]) in
  btnFace st = Opening
  ∧ btnFace (run true true st (replicate 3000 Tick)) = SendMessage.
Proof.
  intros c st.
  pose proof (contact_submission c ([Submit c] ++ replicate 1000 Tick) 3000)
    as H.
  cbv zeta in H.
  destruct H as (mailtoLink & _ & _ & Hopening & _ & Hreset & _).
  - apply Forall_forall. intros x Hx. apply negb_true_iff.
    apply list_elem_of_In in Hx. revert x Hx.
    apply (proj1 (forallb_forall (λ x, negb (isSurrogate x)) _)).
    vm_compute. reflexivity.
  - lia.
  - unfold st. rewrite <- !app_assoc in Hopening, Hreset.
    split; [exact Hopening | exact Hreset].
Defined.

End ContactFormProperties.

(* ====================================================================== *)
(** * Properties of the hero title *)

Section HeroProperties.
Import Convo Hero.
Local Open Scope N_scope.

Lemma closeBr_app s t n : closeBr s = Some n → closeBr (s ++ t) = Some n.
Proof.
  revert n. induction s as [|c s IH]; intros n H; [done|]. simpl in *.
  destruct (isWhiteSpace c).
  - destruct (closeBr s) as [m|]; [|done]. by rewrite (IH m).
  - destruct (c =? 62); [done|]. destruct (c =? 47); [|done].
    by destruct s.
Qed.

(** A match does not depend on what follows it. *)
Lemma matchBr_app s t n : matchBr s = Some n → matchBr (s ++ t) = Some n.
Proof.
  destruct s as [|lt [|b [|r rest]]]; try done. simpl.
  destruct ((lt =? 60) && ((b =? 98) || (b =? 66))
            && ((r =? 114) || (r =? 82))); [|done].
  destruct (closeBr rest) as [m|] eqn:E; [|done].
  by rewrite (closeBr_app _ t m).
Qed.

Lemma matchBr_app_None s t : matchBr (s ++ t) = None → matchBr s = None.
Proof.
  intros H. destruct (matchBr s) as [n|] eqn:E; [|done].
  by rewrite (matchBr_app _ t n) in H.
Qed.

Lemma matchBr_other c rest : c ≠ 60 → matchBr (c :: rest) = None.
Proof.
  intros Hc. destruct rest as [|b [|r rest]]; try done. simpl.
  by rewrite (proj2 (N.eqb_neq c 60)).
Qed.

Lemma noBreak_infix p m q : noBreak (p ++ m ++ q) → noBreak m.
Proof.
  intros H before after ->. apply (matchBr_app_None _ q).
  apply (H (p ++ before)). by rewrite <- !app_assoc.
Qed.

Lemma trim_infix s : ∃ p q, s = p ++ trim s ++ q.
Proof.
  destruct (trimStart_suffix s) as [p Hp].
  destruct (trimStart_suffix (reverse (trimStart s))) as [q Hq].
  exists p, (reverse q). unfold trim.
  rewrite <- reverse_app, <- Hq, reverse_involutive. exact Hp.
Qed.

Lemma splitBrFrom_cons cur skip c rest :
  splitBrFrom cur skip (c :: rest)
  = match skip with
    | S k => splitBrFrom cur k rest
    | O =>
        match matchBr (c :: rest) with
        | Some n => cur :: splitBrFrom [] (n - 1) rest
        | None => splitBrFrom (cur ++ [c]) 0 rest
        end
    end.
Proof. reflexivity. Qed.

Lemma splitBrFrom_noBreak s : ∀ cur skip,
  (skip ≠ 0%nat → cur = []) →
  (∀ before after, cur = before ++ after → after ≠ [] →
     matchBr (after ++ s) = None) →
  Forall noBreak (splitBrFrom cur skip s).
Proof.
  induction s as [|c rest IH]; intros cur skip Hskip Hcur.
  - apply Forall_singleton. intros before after E.
    destruct after as [|a after]; [done|].
    rewrite <- (app_nil_r (a :: after)). by apply (Hcur before).
  - rewrite splitBrFrom_cons. destruct skip as [|k].
    + destruct (matchBr (c :: rest)) as [n|] eqn:E.
      * apply Forall_cons_2.
        -- intros before after Eq.
           destruct after as [|a after]; [done|].
           apply (matchBr_app_None _ (c :: rest)). by apply (Hcur before).
        -- apply IH; [done|]. intros before after Eq.
           by destruct before, after.
      * apply IH; [done|]. intros before after Eq Hne.
        destruct (exists_last Hne) as (after0 & x & ->).
        rewrite app_assoc in Eq. apply app_inj_tail in Eq as [-> ->].
        rewrite <- app_assoc. simpl.
        destruct after0 as [|a after0]; [exact E|].
        by apply (Hcur before).
    + rewrite Hskip by done. apply IH; [done|].
      intros before after Eq. by destruct before, after.
Qed.

Lemma splitBrFrom_plain s : ∀ cur,
  60 ∉ s → splitBrFrom cur 0 s = [cur ++ s].
Proof.
  induction s as [|c rest IH]; intros cur Hs.
  - simpl. by rewrite app_nil_r.
  - apply not_elem_of_cons in Hs as [Hc Hrest].
    rewrite splitBrFrom_cons, matchBr_other by done. rewrite IH by done.
    by rewrite <- app_assoc.
Qed.

Lemma join_empty_sep parts :
  ContactForm.join [] parts = [] ↔ Forall (λ s, s = []) parts.
Proof.
  induction parts as [|part rest IH]; simpl.
  - split; [constructor | done].
  - destruct rest as [|part' rest'].
    + split; [by intros ->; repeat constructor|].
      by intros [? _]%Forall_cons_1.
    + simpl in *. rewrite Forall_cons. rewrite <- IH.
      split.
      * by intros [-> ?]%app_eq_nil.
      * by intros [-> ->].
Qed.

Lemma wrapLine_blank piece : trim piece = [] → wrapLine piece = [].
Proof. intros E. unfold wrapLine. by rewrite E. Qed.

Lemma wrapLine_text piece :
  trim piece ≠ [] → falsy (wrapLine piece) = false.
Proof.
  intros E. unfold wrapLine. by destruct (trim piece).
Qed.

Lemma rebuilt_blank pieces :
  Forall (λ s, s = [])
    (filter (λ s, falsy s = false) (wrapLine <$> pieces))
  ↔ Forall (λ piece, trim piece = []) pieces.
Proof.
  induction pieces as [|piece pieces IH]; [done|].
  change (wrapLine <$> piece :: pieces)
    with (wrapLine piece :: (wrapLine <$> pieces)).
  destruct (decide (trim piece = [])) as [E|E].
  - rewrite filter_cons_False by (by rewrite wrapLine_blank).
    split; intros H.
    + apply Forall_cons_2; [done | by apply IH].
    + apply IH. by apply Forall_cons_1 in H as [_ H].
  - rewrite filter_cons_True by (by apply wrapLine_text).
    split; intros [H _]%Forall_cons_1; [|done].
    apply wrapLine_text in E. by rewrite H in E.
Qed.

Lemma frames_passed n : ∀ t,
  awaiting t = None → frames n t = t.
Proof.
  induction n as [|n IH]; intros t Ht; [done|].
  unfold frames in *. rewrite Nat.iter_succ_r.
  unfold frame at 2. rewrite Ht. by apply IH.
Qed.

(** X20.  The lines of the hero title.  No piece that the split leaves
    holds a line break, trimmed or not.  A title without a "<" is one
    line: its trimmed text in one wrapper, or nothing when it is blank.
    And the title is left empty exactly when every piece is blank. *)
Theorem hero_title_lines (rawHTML : jsstring) :
  Forall noBreak (splitBr rawHTML)
  ∧ Forall (λ piece, noBreak (trim piece)) (splitBr rawHTML)
  ∧ (60 ∉ rawHTML →
       rebuild rawHTML
       = if falsy (trim rawHTML) then []
         else openWrapper ++ trim rawHTML ++ closeWrapper)
  ∧ (rebuild rawHTML = []
     ↔ Forall (λ piece, trim piece = []) (splitBr rawHTML)).
Proof.
  assert (Hpieces : Forall noBreak (splitBr rawHTML)).
  { apply splitBrFrom_noBreak; [done|]. intros before after E.
    by destruct before, after. }
  split; [|split; [|split]].
  - exact Hpieces.
  - eapply Forall_impl; [exact Hpieces|]. simpl. intros piece Hp.
    destruct (trim_infix piece) as (p & q & E). rewrite E in Hp.
    by apply noBreak_infix in Hp.
  - intros Hplain. unfold rebuild, splitBr.
    rewrite splitBrFrom_plain by done. simpl.
    unfold wrapLine. simpl.
    destruct (falsy (trim rawHTML)) eqn:E.
    + by rewrite filter_cons_False, filter_nil by done.
    + rewrite filter_cons_True by done. by rewrite filter_nil.
  - unfold rebuild. split.
    + intros H. apply rebuilt_blank. by apply join_empty_sep.
    + intros H. apply join_empty_sep. by apply rebuilt_blank.
Qed.

(** A title of one line with a space after it. *)
Lemma hero_title_lines_witness :
  rebuild (lit "Design that moves. ")
  = openWrapper ++ lit "Design that moves." ++ closeWrapper.
Proof.
  destruct (hero_title_lines (lit "Design that moves. "))
    as (_ & _ & H & _).
  rewrite H.
  - vm_compute. reflexivity.
  - apply (bool_decide_eq_false_1 (60 ∈ lit "Design that moves. ")).
    vm_compute. reflexivity.
Defined.

(** X21.  When the hero title starts to move.  With reduced motion the
    class is there as soon as the title is rebuilt.  Otherwise the title
    gets it on the second animation frame after that and not on the
    first; the frames leave the markup as rebuilt. *)
Theorem hero_title_motion (prefersReducedMotion : bool) (t : title)
    (n : nat) :
  let t' := frames n (splitHeroTitle prefersReducedMotion t) in
  innerHTML t' = rebuild (innerHTML t)
  ∧ (prefersReducedMotion = true → motionReady t' = true)
  ∧ (prefersReducedMotion = false →
       motionReady t' = motionReady t || bool_decide (2 ≤ n)%nat).
Proof.
  intros t'. subst t'. destruct prefersReducedMotion.
  - assert (H : ∀ u, motionReady u = true →
              innerHTML (frames n u) = innerHTML u
              ∧ motionReady (frames n u) = true).
    { induction n as [|n IH]; intros u Hu; [done|].
      unfold frames in *. rewrite Nat.iter_succ_r.
      assert (Hf : motionReady (frame u) = true
                   ∧ innerHTML (frame u) = innerHTML u).
      { unfold frame. by destruct (awaiting u) as [[|[|k]]|]. }
      destruct Hf as [Hf1 Hf2].
      by destruct (IH (frame u) Hf1) as [-> ->]. }
    destruct (H (splitHeroTitle true t)) as [-> ->]; [done|]. done.
  - destruct n as [|[|n]].
    + repeat split; try done. intros _. simpl. by rewrite orb_false_r.
    + repeat split; try done. intros _. simpl. by rewrite orb_false_r.
    + unfold frames. rewrite !Nat.iter_succ_r.
      change (Nat.iter n frame ?u) with (frames n u).
      rewrite frames_passed by done. simpl.
      repeat split; try done. intros _. by rewrite orb_true_r.
Qed.

(** Three frames without reduced motion. *)
Lemma hero_title_motion_witness :
  let t := {| innerHTML := lit "A<br>B"; motionReady := false;
              awaiting := None |} in
  motionReady (frames 1 (splitHeroTitle false t)) = false
  ∧ motionReady (frames 3 (splitHeroTitle false t)) = true.
Proof.
  intros t.
  destruct (hero_title_motion false t 1) as (_ & _ & H1).
  destruct (hero_title_motion false t 3) as (_ & _ & H3).
  split; [by rewrite H1 | by rewrite H3].
Defined.

End HeroProperties.
